(** * ROHF solver and ECP basis construction of psi4: a shallow embedding

    Sources embedded here:
      - src/lib/libscf_solver/rohf.cc   (class ROHF)
      - psi4/libmints/ecp.cc            (ECPShellInfo, GaussianECPShell, ECPBasisSet)

    A C++ [double] is a primitive binary64 float; every arithmetic
    expression keeps the association order of the source.  An [int] that
    counts or indexes the elements of a container is a [nat]; an [int]
    that carries a value (angular momentum, radial power, nuclear charge)
    is a [Z], and the arithmetic on it wraps at 32 bits ([int_sub]).  The
    conversion of a [double] to an [int] truncates and has no result
    outside the range of [int] ([to_int]). *)

From Stdlib Require Import ZArith Lia.
From Stdlib Require Import Floats.PrimFloat Floats.SpecFloat Floats.FloatOps.
From stdpp Require Import base option list gmap strings sorting.

Abbreviation double := PrimFloat.float.

#[global] Instance double_inhabited : Inhabited double := populate 0%float.

(** ** The type [int] *)

Definition int_min : Z := -2147483648.
Definition int_max : Z := 2147483647.


(** The [int] that a 32-bit two's complement machine leaves for the
    mathematical value [z].  A signed overflow is undefined in the
    source; the embedding wraps, and every statement about a result of
    [int] arithmetic carries [int_range] of the mathematical value. *)
Definition int_wrap (z : Z) : Z := ((z + 2147483648) mod 4294967296 - 2147483648)%Z.

(** [a - b] on [int]. *)
Definition int_sub (a b : Z) : Z := int_wrap (a - b).

(** The implicit conversion of a [double] to an [int]: the fraction is
    dropped; a NaN, an infinity or a value outside the range of [int]
    has no defined result. *)
Definition to_int (x : double) : option Z :=
  match Prim2SF x with
  | S754_zero _ => Some 0%Z
  | S754_finite s m e =>
      let magnitude := Z.shiftl (Zpos m) e in
      let z := if s then Z.opp magnitude else magnitude in
      if bool_decide (int_min ≤ z ≤ int_max)%Z then Some z else None
  | _ => None
  end.

(** ** Loops *)

(** [for (int i = lo; i < hi; ++i) body] over a state. *)
Definition for_loop {S : Type} (lo hi : nat) (body : nat → S → S) (s : S) : S :=
  foldl (λ acc i, body i acc) s (seq lo (hi - lo)).

(** [acc] plus the terms of [terms], accumulated from left to right as a
    [val += term] loop does. *)
Definition dsum_from (acc : double) (terms : list double) : double :=
  foldl PrimFloat.add acc terms.

(** ** Matrices blocked by irrep *)

Module Mat.

(** One irrep block, row-major; a matrix is the list of its blocks. *)
Abbreviation Block := (list (list double)).
Abbreviation Matrix := (list Block).

(** A cell address: irrep, row, column. *)
Abbreviation Cell := (nat * nat * nat)%type.

Definition cell_at (M : Matrix) (c : Cell) : option double :=
  let '(h, i, j) := c in
  M !! h ≫= λ B : Block, B !! i ≫= λ row : list double, row !! j.

(** [M->get(h, i, j)].  Reading outside the block is undefined in the
    source; the embedding answers 0 there. *)
Definition get (M : Matrix) (h i j : nat) : double :=
  default 0%float (cell_at M (h, i, j)).

(** [M->set(h, i, j, v)].  Writing outside the block is undefined in the
    source; the embedding leaves the matrix as it is. *)
Definition set (M : Matrix) (h i j : nat) (v : double) : Matrix :=
  alter (alter (<[j := v]>) i) h M.

(** The cell lies inside the storage of [M]. *)
Definition in_range (M : Matrix) (c : Cell) : Prop := is_Some (cell_at M c).

(** A piece of code [g] over a state whose matrix of interest is
    [proj s]: it stores [target c] into every cell [c] selected by [hit]
    and leaves every other cell of that matrix as it was. *)
Definition stores {S : Type} (proj : S → Matrix) (g : S → S)
    (hit : Cell → bool) (target : Cell → double) : Prop :=
  ∀ (s : S) (c : Cell), in_range (proj s) c →
    cell_at (proj (g s)) c = if hit c then Some (target c) else cell_at (proj s) c.

(** Every block [h] is square of dimension [dims[h]]. *)
Definition has_shape (M : Matrix) (dims : list nat) : Prop :=
  Forall2 (λ (B : Block) (d : nat),
             length B = d ∧ Forall (λ row : list double, length row = d) B)
          M dims.

(** Modelled from the spec: class Matrix (the dense-matrix provider) is
    not among the sources; [copy], [add], [subtract] and [scale] act on
    every element of every irrep block.  The two operands of [add] and
    [subtract] have the same block dimensions in rohf.cc (one factory
    creates every matrix); on unequal operands the embedding keeps the
    common part. *)
Definition copy (this other : Matrix) : Matrix := other.

Definition zip_cells (f : double → double → double) (A B : Matrix) : Matrix :=
  zip_with (zip_with (zip_with f)) A B.

Definition add (this other : Matrix) : Matrix := zip_cells PrimFloat.add this other.
Definition subtract (this other : Matrix) : Matrix := zip_cells PrimFloat.sub this other.
Definition scale (this : Matrix) (a : double) : Matrix :=
  fmap (M := list) (fmap (M := list) (fmap (M := list) (PrimFloat.mul a))) this.

(** All elements of all blocks, in storage order. *)
Definition elements (M : Matrix) : list double := concat (concat M).

(** The operations of class Matrix that rohf.cc calls and whose result
    depends on the linear-algebra back end: the similarity transform
    [transform(F, C)], the element-wise dot product [vector_dot] and the
    root-mean-square [rms]. *)
Class Provider := {
  transform : Matrix → Matrix → Matrix;
  vector_dot : Matrix → Matrix → double;
  rms : Matrix → double
}.

(** Modelled from the spec: the Frobenius dot product over all matrix
    elements across all irreps, summed in storage order. *)
Definition frobenius_dot (A B : Matrix) : double :=
  dsum_from 0%float (zip_with PrimFloat.mul (elements A) (elements B)).

(** The number of elements as a double (exact below 2^53). *)
Definition count_double (xs : list double) : double :=
  foldl (λ acc _, PrimFloat.add acc 1%float) 0%float xs.

(** Modelled from the spec: the RMS norm, the square root of the mean of
    the squared elements. *)
Definition rms_norm (A : Matrix) : double :=
  let xs := elements A in
  PrimFloat.sqrt
    (PrimFloat.div (dsum_from 0%float (zip_with PrimFloat.mul xs xs))
                   (count_double xs)).

(** Modelled from the spec: the similarity transform C^T F C of one
    block, each entry summed in index order. *)
Definition block_transform (F C : Block) : Block :=
  let n := length F in
  let entry (p q : nat) : double :=
    dsum_from 0%float
      (flat_map (λ i, map (λ j,
           PrimFloat.mul (PrimFloat.mul (default 0%float (C !! i ≫= (.!! p)))
                                        (default 0%float (F !! i ≫= (.!! j))))
                         (default 0%float (C !! j ≫= (.!! q))))
         (seq 0 n)) (seq 0 n)) in
  map (λ p, map (entry p) (seq 0 n)) (seq 0 n).

Definition similarity_transform (F C : Matrix) : Matrix :=
  zip_with block_transform F C.

Definition reference_provider : Provider :=
  {| transform := similarity_transform;
     vector_dot := frobenius_dot;
     rms := rms_norm |}.

End Mat.

(** ** class ROHF (rohf.cc) *)

Module ROHF.
Import Mat.

(** The members of ROHF (and of its base HF) that the embedded methods
    read or write.  [Cb_] and [epsilon_b_] are the same shared objects as
    [Ca_] and [epsilon_a_] (common_init), so one field stands for both.
    The per-irrep tables are indexed by [h]. *)
Record State := {
  nirrep_ : nat;
  nsopi_ : list nat;
  nmopi_ : list nat;
  doccpi_ : list nat;
  soccpi_ : list nat;
  H_ : Matrix;
  Ga_ : Matrix;
  Gb_ : Matrix;
  Fa_ : Matrix;
  Fb_ : Matrix;
  moFa_ : Matrix;
  moFb_ : Matrix;
  Feff_ : Matrix;
  Ca_ : Matrix;
  Da_ : Matrix;
  Db_ : Matrix;
  Dt_ : Matrix;
  Dt_old_ : Matrix;
  E_ : double;
  Eold_ : double;
  Drms_ : double;
  nuclearrep_ : double;
  energy_threshold_ : double;
  density_threshold_ : double
}.

(** Writers of the members that the methods assign. *)
Definition with_fock (st : State) (Fa Fb moFa moFb Feff : Matrix) : State :=
  {| nirrep_ := nirrep_ st; nsopi_ := nsopi_ st; nmopi_ := nmopi_ st;
     doccpi_ := doccpi_ st; soccpi_ := soccpi_ st;
     H_ := H_ st; Ga_ := Ga_ st; Gb_ := Gb_ st;
     Fa_ := Fa; Fb_ := Fb; moFa_ := moFa; moFb_ := moFb; Feff_ := Feff;
     Ca_ := Ca_ st; Da_ := Da_ st; Db_ := Db_ st; Dt_ := Dt_ st;
     Dt_old_ := Dt_old_ st; E_ := E_ st; Eold_ := Eold_ st; Drms_ := Drms_ st;
     nuclearrep_ := nuclearrep_ st;
     energy_threshold_ := energy_threshold_ st;
     density_threshold_ := density_threshold_ st |}.

Definition with_density (st : State) (Da Db Dt : Matrix) : State :=
  {| nirrep_ := nirrep_ st; nsopi_ := nsopi_ st; nmopi_ := nmopi_ st;
     doccpi_ := doccpi_ st; soccpi_ := soccpi_ st;
     H_ := H_ st; Ga_ := Ga_ st; Gb_ := Gb_ st;
     Fa_ := Fa_ st; Fb_ := Fb_ st; moFa_ := moFa_ st; moFb_ := moFb_ st;
     Feff_ := Feff_ st;
     Ca_ := Ca_ st; Da_ := Da; Db_ := Db; Dt_ := Dt;
     Dt_old_ := Dt_old_ st; E_ := E_ st; Eold_ := Eold_ st; Drms_ := Drms_ st;
     nuclearrep_ := nuclearrep_ st;
     energy_threshold_ := energy_threshold_ st;
     density_threshold_ := density_threshold_ st |}.

Definition with_saved (st : State) (Dt_old : Matrix) (Eold : double) : State :=
  {| nirrep_ := nirrep_ st; nsopi_ := nsopi_ st; nmopi_ := nmopi_ st;
     doccpi_ := doccpi_ st; soccpi_ := soccpi_ st;
     H_ := H_ st; Ga_ := Ga_ st; Gb_ := Gb_ st;
     Fa_ := Fa_ st; Fb_ := Fb_ st; moFa_ := moFa_ st; moFb_ := moFb_ st;
     Feff_ := Feff_ st;
     Ca_ := Ca_ st; Da_ := Da_ st; Db_ := Db_ st; Dt_ := Dt_ st;
     Dt_old_ := Dt_old; E_ := E_ st; Eold_ := Eold; Drms_ := Drms_ st;
     nuclearrep_ := nuclearrep_ st;
     energy_threshold_ := energy_threshold_ st;
     density_threshold_ := density_threshold_ st |}.

Definition with_Drms (st : State) (Drms : double) : State :=
  {| nirrep_ := nirrep_ st; nsopi_ := nsopi_ st; nmopi_ := nmopi_ st;
     doccpi_ := doccpi_ st; soccpi_ := soccpi_ st;
     H_ := H_ st; Ga_ := Ga_ st; Gb_ := Gb_ st;
     Fa_ := Fa_ st; Fb_ := Fb_ st; moFa_ := moFa_ st; moFb_ := moFb_ st;
     Feff_ := Feff_ st;
     Ca_ := Ca_ st; Da_ := Da_ st; Db_ := Db_ st; Dt_ := Dt_ st;
     Dt_old_ := Dt_old_ st; E_ := E_ st; Eold_ := Eold_ st; Drms_ := Drms;
     nuclearrep_ := nuclearrep_ st;
     energy_threshold_ := energy_threshold_ st;
     density_threshold_ := density_threshold_ st |}.

(** The orbitals of an iteration arrive through [Ca_] (form_C) and the
    energy through [E_] (the driver assigns [E_ = compute_E()]); both
    assignments are made by code outside rohf.cc's embedded methods. *)
Definition with_orbitals (st : State) (Ca : Matrix) : State :=
  {| nirrep_ := nirrep_ st; nsopi_ := nsopi_ st; nmopi_ := nmopi_ st;
     doccpi_ := doccpi_ st; soccpi_ := soccpi_ st;
     H_ := H_ st; Ga_ := Ga_ st; Gb_ := Gb_ st;
     Fa_ := Fa_ st; Fb_ := Fb_ st; moFa_ := moFa_ st; moFb_ := moFb_ st;
     Feff_ := Feff_ st;
     Ca_ := Ca; Da_ := Da_ st; Db_ := Db_ st; Dt_ := Dt_ st;
     Dt_old_ := Dt_old_ st; E_ := E_ st; Eold_ := Eold_ st; Drms_ := Drms_ st;
     nuclearrep_ := nuclearrep_ st;
     energy_threshold_ := energy_threshold_ st;
     density_threshold_ := density_threshold_ st |}.

Definition with_energy (st : State) (E : double) : State :=
  {| nirrep_ := nirrep_ st; nsopi_ := nsopi_ st; nmopi_ := nmopi_ st;
     doccpi_ := doccpi_ st; soccpi_ := soccpi_ st;
     H_ := H_ st; Ga_ := Ga_ st; Gb_ := Gb_ st;
     Fa_ := Fa_ st; Fb_ := Fb_ st; moFa_ := moFa_ st; moFb_ := moFb_ st;
     Feff_ := Feff_ st;
     Ca_ := Ca_ st; Da_ := Da_ st; Db_ := Db_ st; Dt_ := Dt_ st;
     Dt_old_ := Dt_old_ st; E_ := E; Eold_ := Eold_ st; Drms_ := Drms_ st;
     nuclearrep_ := nuclearrep_ st;
     energy_threshold_ := energy_threshold_ st;
     density_threshold_ := density_threshold_ st |}.

(** [void ROHF::save_density_and_energy()] *)
Definition save_density_and_energy (st : State) : State :=
  with_saved st (copy (Dt_old_ st) (Dt_ st)) (E_ st).

Section WithProvider.
Context {MP : Provider}.

(** [bool ROHF::test_convergency()]: the result and the state with
    [Drms_] assigned. *)
Definition test_convergency (st : State) : bool * State :=
  let ediff := PrimFloat.sub (E_ st) (Eold_ st) in
  let D_rms := copy [] (Dt_ st) in
  let D_rms := subtract D_rms (Dt_old_ st) in
  let Drms := rms D_rms in
  let st' := with_Drms st Drms in
  if PrimFloat.ltb (PrimFloat.abs ediff) (energy_threshold_ st)
     && PrimFloat.ltb Drms (density_threshold_ st)
  then (true, st') else (false, st').

(** The two stores of one pass of the open/closed loop body:
    [val = moFb->get(h,i,j); Feff->set(h,i,j,val); Feff->set(h,j,i,val)]. *)
Definition set_pair (src : Matrix) (h i j : nat) (Feff : Matrix) : Matrix :=
  let val := get src h i j in
  let Feff := set Feff h i j val in
  set Feff h j i val.

(** The loop nest of form_F over the irreps, on [Feff_]. *)
Definition assemble_Feff (nirrep : nat) (doccpi soccpi nmopi : list nat)
    (moFa moFb : Matrix) (Feff : Matrix) : Matrix :=
  for_loop 0 nirrep (λ h,
    let docc := doccpi !!! h in
    let socc := soccpi !!! h in
    for_loop docc (docc + socc) (λ i Feff,
      (* Set the open/closed portion *)
      let Feff := for_loop 0 docc (set_pair moFb h i) Feff in
      (* Set the open/virtual portion *)
      for_loop (docc + socc) (nmopi !!! h) (set_pair moFa h i) Feff))
  Feff.

(** [void ROHF::form_F()] *)
Definition form_F (st : State) : State :=
  let Fa := copy (Fa_ st) (H_ st) in
  let Fb := copy (Fb_ st) (H_ st) in
  let Fa := add Fa (Ga_ st) in
  let Fb := add Fb (Gb_ st) in
  let moFa := transform Fa (Ca_ st) in
  let moFb := transform Fb (Ca_ st) in
  let Feff := copy (Feff_ st) moFa in
  let Feff := add Feff moFb in
  let Feff := scale Feff 0.5%float in
  let Feff := assemble_Feff (nirrep_ st) (doccpi_ st) (soccpi_ st) (nmopi_ st)
                            moFa moFb Feff in
  with_fock st Fa Fb moFa moFb Feff.

(** [double ROHF::compute_E()] *)
Definition compute_E (st : State) : double :=
  let DH := vector_dot (Da_ st) (H_ st) in
  let DH := PrimFloat.add DH (vector_dot (Db_ st) (H_ st)) in
  let DFa := vector_dot (Da_ st) (Fa_ st) in
  let DFb := vector_dot (Db_ st) (Fb_ st) in
  let Eelec := PrimFloat.mul 0.5%float (PrimFloat.add (PrimFloat.add DH DFa) DFb) in
  let Etotal := PrimFloat.add (nuclearrep_ st) Eelec in
  Etotal.

(** [double ROHF::compute_initial_E()] *)
Definition compute_initial_E (st : State) : double := compute_E st.

End WithProvider.

(** The product [Ca_->get(h, i, m) * Ca_->get(h, j, m)] added to [val]. *)
Definition orbital_term (C : Matrix) (h i j m : nat) : double :=
  PrimFloat.mul (get C h i m) (get C h j m).

(** The body of the innermost [j] loop of form_D on the pair (Db_, Da_). *)
Definition form_D_cell (C : Matrix) (docc socc h i j : nat)
    (D : Matrix * Matrix) : Matrix * Matrix :=
  let '(Db, Da) := D in
  let val := 0%float in
  let val := for_loop 0 docc (λ m val, PrimFloat.add val (orbital_term C h i j m)) val in
  let Db := set Db h i j val in
  let val := for_loop docc (docc + socc)
               (λ m val, PrimFloat.add val (orbital_term C h i j m)) val in
  let Da := set Da h i j val in
  (Db, Da).

(** The loop nest of form_D. *)
Definition form_D_loops (nirrep : nat) (nsopi doccpi soccpi : list nat)
    (C : Matrix) (D : Matrix * Matrix) : Matrix * Matrix :=
  for_loop 0 nirrep (λ h,
    for_loop 0 (nsopi !!! h) (λ i,
      for_loop 0 (nsopi !!! h) (λ j,
        form_D_cell C (doccpi !!! h) (soccpi !!! h) h i j)))
  D.

(** [void ROHF::form_D()] *)
Definition form_D (st : State) : State :=
  let '(Db, Da) := form_D_loops (nirrep_ st) (nsopi_ st) (doccpi_ st) (soccpi_ st)
                                (Ca_ st) (Db_ st, Da_ st) in
  let Dt := copy (Dt_ st) Da in
  let Dt := copy Dt Db in
  with_density st Da Db Dt.

(** The terms that the two [m] loops of form_D add for cell (i, j). *)
Definition docc_terms (st : State) (h i j : nat) : list double :=
  map (orbital_term (Ca_ st) h i j) (seq 0 (doccpi_ st !!! h)).
Definition socc_terms (st : State) (h i j : nat) : list double :=
  map (orbital_term (Ca_ st) h i j) (seq (doccpi_ st !!! h) (soccpi_ st !!! h)).

(** The orbital classes of irrep [h]. *)
Definition is_closed (st : State) (h i : nat) : bool :=
  bool_decide (i < doccpi_ st !!! h).
Definition is_open (st : State) (h i : nat) : bool :=
  bool_decide (doccpi_ st !!! h ≤ i < doccpi_ st !!! h + soccpi_ st !!! h).
Definition is_virtual (st : State) (h i : nat) : bool :=
  bool_decide (doccpi_ st !!! h + soccpi_ st !!! h ≤ i < nmopi_ st !!! h).

(** The value that form_D stores in [Db_] and in [Da_] at a cell. *)
Definition beta_value (st : State) (c : Cell) : double :=
  let '(h, i, j) := c in dsum_from 0%float (docc_terms st h i j).
Definition alpha_value (st : State) (c : Cell) : double :=
  let '(h, i, j) := c in dsum_from (beta_value st c) (socc_terms st h i j).

(** The cells that the loop nest of form_D visits. *)
Definition visited (st : State) (c : Cell) : bool :=
  existsb (λ h, existsb (λ i, existsb (λ j, bool_decide (c = (h, i, j)))
                                      (seq 0 (nsopi_ st !!! h - 0)))
                        (seq 0 (nsopi_ st !!! h - 0)))
          (seq 0 (nirrep_ st - 0)).

(** The cells that one pass of [set_pair] writes. *)
Definition pair_hit (h i j : nat) (c : Cell) : bool :=
  bool_decide (c = (h, i, j)) || bool_decide (c = (h, j, i)).

(** The cells that the loop nest of form_F writes, read off the loop
    bounds. *)
Definition Feff_written (nirrep : nat) (doccpi soccpi nmopi : list nat)
    (c : Cell) : bool :=
  existsb (λ h,
    existsb (λ i,
        existsb (λ j, pair_hit h i j c) (seq 0 (doccpi !!! h - 0))
        || existsb (λ j, pair_hit h i j c)
             (seq (doccpi !!! h + soccpi !!! h)
                  (nmopi !!! h - (doccpi !!! h + soccpi !!! h))))
      (seq (doccpi !!! h) (doccpi !!! h + soccpi !!! h - doccpi !!! h)))
    (seq 0 (nirrep - 0)).

(** The same cells, by orbital class: one index open and the other
    closed or virtual. *)
Definition couples_open (st : State) (h a b : nat) : bool :=
  (is_open st h a && (is_closed st h b || is_virtual st h b))
  || (is_open st h b && (is_closed st h a || is_virtual st h a)).

(** What the loop nest of form_F stores in a cell that it writes. *)
Definition Feff_stored (st : State) (moFa moFb : Matrix) (c : Cell) : double :=
  let '(h, a, b) := c in
  if is_open st h a && is_closed st h b then get moFb h a b
  else if is_open st h b && is_closed st h a then get moFb h b a
  else if is_open st h a && is_virtual st h b then get moFa h a b
  else get moFa h b a.

End ROHF.

(** ** Collaborators of ecp.cc *)

(** [pow] and [exp] of <cmath>, as the C library in use computes them.
    ecp.cc calls [pow]; [exp] is the exponential that the specification
    of evaluate names. *)
Module Libm.
Class Functions := {
  pow : double → Z → double;
  exp : double → double
}.

(** A stand-in to run the embedding on sample inputs: [pow] by repeated
    multiplication (or division), [exp] by forty terms of its series.
    Every statement below holds for any [Functions]. *)
Definition pow_by_squares (r : double) (n : Z) : double :=
  let p := foldl (λ acc _, PrimFloat.mul acc r) 1%float (seq 0 (Z.abs_nat n)) in
  if bool_decide (n < 0)%Z then PrimFloat.div 1%float p else p.

Definition exp_series (x : double) : double :=
  let step (st : double * double * double) (_ : nat) :=
    let '(sum, term, k) := st in
    let term := PrimFloat.div (PrimFloat.mul term x) k in
    (PrimFloat.add sum term, term, PrimFloat.add k 1%float) in
  (foldl step (1%float, 1%float, 1%float) (seq 0 40)).1.1.

Definition sample : Functions := {| pow := pow_by_squares; exp := exp_series |}.
End Libm.

(** A result or a thrown PSIEXCEPTION with its message. *)
Inductive Outcome (A : Type) : Type :=
  | Returned (a : A)
  | Thrown (what : string).
Arguments Returned {A} a.
Arguments Thrown {A} what.

(** [std::map<std::string, std::map<std::string, V>>]. *)
Module Map2.
Section Map2.
Context {V : Type}.

(** [m[b][l] = v] *)
Definition assign (b l : string) (v : V) (m : gmap string (gmap string V))
    : gmap string (gmap string V) :=
  <[b := <[l := v]> (default ∅ (m !! b))]> m.

Definition find (m : gmap string (gmap string V)) (b l : string) : option V :=
  m !! b ≫= λ inner : gmap string V, inner !! l.

(** Reading [m[b][l]]: a key that is absent is created with the
    value-initialised [dflt], which is what the read then yields. *)
Definition at_ (dflt : V) (m : gmap string (gmap string V)) (b l : string) : V :=
  default dflt (find m b l).

End Map2.

(** The order in which an iteration visits a [std::map<std::string, A>]:
    ascending keys under [std::less<std::string>], which compares the
    strings byte by byte. *)
Definition key_le {A : Type} (x y : string * A) : Prop :=
  String.leb x.1 y.1 = true.

#[global] Instance key_le_dec {A : Type} (x y : string * A) : Decision (key_le x y).
Proof. unfold key_le. apply _. Defined.

Definition in_key_order {A : Type} (m : gmap string A) : list (string * A) :=
  merge_sort key_le (map_to_list m).

(** The entries in the order of the two nested iterations. *)
Definition entries {V : Type} (m : gmap string (gmap string V))
    : list (string * string * V) :=
  in_key_order m ≫= λ '(b, inner),
    (λ '(l, v), (b, l, v)) <$> in_key_order inner.
End Map2.

Inductive GaussianType : Type := Cartesian | Pure.

#[global] Instance GaussianType_eq_dec : EqDecision GaussianType.
Proof. solve_decision. Defined.

Record Vector3 := { v3_x : double; v3_y : double; v3_z : double }.

(** Modelled from the spec: the comparisons of the value types of the
    provider, element by element with the [==] of [double]. *)
Definition Vector3_eq (a b : Vector3) : bool :=
  PrimFloat.eqb (v3_x a) (v3_x b) && PrimFloat.eqb (v3_y a) (v3_y b)
  && PrimFloat.eqb (v3_z a) (v3_z b).

(** [std::vector<T>::operator==]: equal sizes and equal elements. *)
Fixpoint vector_eq {A : Type} (eq : A → A → bool) (a b : list A) : bool :=
  match a, b with
  | [], [] => true
  | x :: a', y :: b' => eq x y && vector_eq eq a' b'
  | _, _ => false
  end.

(** ** class ECPShellInfo (ecp.cc) *)

Module ECPShellInfo.

(** The members of ShellInfo and of ECPShellInfo. *)
Record t := {
  l_ : Z;
  puream_ : GaussianType;
  exp_ : list double;
  coef_ : list double;
  erd_coef_ : list double;
  original_coef_ : list double;
  n_ : list Z;
  sub_l_ : list Z;
  nc_ : nat;
  center_ : Vector3;
  start_ : nat;
  ncartesian_ : nat;
  nfunction_ : nat
}.

(** What the constructor of the base class ShellInfo (not among the
    sources) computes from the angular momentum and the coefficients:
    the normalised [coef_] and [erd_coef_], and the function counts. *)
Class Base := {
  base_coef : Z → list double → list double → list double;
  base_erd_coef : Z → list double → list double → list double;
  INT_NCART : Z → nat;
  INT_NFUNC : GaussianType → Z → nat
}.

(** [ECPShellInfo::ECPShellInfo(am, c, e, n, sub_l, nc, center, start)] *)
Definition make {B : Base} (am : Z) (c e : list double) (n sub_l : list Z)
    (nc : nat) (center : Vector3) (start : nat) : t :=
  {| l_ := am; puream_ := Cartesian; exp_ := e;
     coef_ := base_coef am c e; erd_coef_ := base_erd_coef am c e;
     original_coef_ := c; n_ := n; sub_l_ := sub_l;
     nc_ := nc; center_ := center; start_ := start;
     ncartesian_ := INT_NCART am; nfunction_ := INT_NFUNC Cartesian am |}.

(** Accessors of the header. Modelled from the spec: the sequences of a
    descriptor have one entry per primitive, so [nprimitive()] is their
    common length; an index past the end is undefined in the source and
    reads 0 here. *)
Definition nprimitive (s : t) : nat := length (exp_ s).
Definition exp (s : t) (prim : nat) : double := exp_ s !!! prim.
Definition coef (s : t) (prim : nat) : double := coef_ s !!! prim.
Definition original_coef (s : t) (prim : nat) : double := original_coef_ s !!! prim.
Definition n (s : t) (prim : nat) : Z := n_ s !!! prim.
Definition subl (s : t) (prim : nat) : Z := sub_l_ s !!! prim.
Definition am (s : t) : Z := l_ s.
Definition is_pure (s : t) : bool := bool_decide (puream_ s = Pure).
Definition ncartesian (s : t) : nat := ncartesian_ s.
Definition nfunction (s : t) : nat := nfunction_ s.

(** [ECPShellInfo ECPShellInfo::copy()] *)
Definition copy {B : Base} (s : t) : t :=
  make (l_ s) (original_coef_ s) (exp_ s) (n_ s) (sub_l_ s)
       (nc_ s) (center_ s) (start_ s).

(** [ECPShellInfo ECPShellInfo::copy(int nc, const Vector3& c)] *)
Definition copy_at {B : Base} (s : t) (nc : nat) (c : Vector3) : t :=
  make (l_ s) (original_coef_ s) (exp_ s) (n_ s) (sub_l_ s) nc c (start_ s).

(** [bool ECPShellInfo::operator==(const ECPShellInfo& RHS) const] *)
Definition operator_eq (this RHS : t) : bool :=
  Z.eqb (l_ this) (l_ RHS)
  && bool_decide (puream_ this = puream_ RHS)
  && vector_eq PrimFloat.eqb (exp_ this) (exp_ RHS)
  && vector_eq PrimFloat.eqb (original_coef_ this) (erd_coef_ RHS)
  && vector_eq Z.eqb (n_ this) (n_ RHS)
  && vector_eq Z.eqb (sub_l_ this) (sub_l_ RHS)
  && Nat.eqb (nc_ this) (nc_ RHS)
  && Vector3_eq (center_ this) (center_ RHS)
  && Nat.eqb (start_ this) (start_ RHS)
  && Nat.eqb (ncartesian_ this) (ncartesian_ RHS)
  && Nat.eqb (nfunction_ this) (nfunction_ RHS).

(** The comparison in the words of the specification: every field of
    one descriptor against the same field of the other, element by
    element. *)
Definition fieldwise_equal (a b : t) : bool :=
  Z.eqb (l_ a) (l_ b)
  && bool_decide (puream_ a = puream_ b)
  && vector_eq PrimFloat.eqb (exp_ a) (exp_ b)
  && vector_eq PrimFloat.eqb (coef_ a) (coef_ b)
  && vector_eq PrimFloat.eqb (erd_coef_ a) (erd_coef_ b)
  && vector_eq PrimFloat.eqb (original_coef_ a) (original_coef_ b)
  && vector_eq Z.eqb (n_ a) (n_ b)
  && vector_eq Z.eqb (sub_l_ a) (sub_l_ b)
  && Nat.eqb (nc_ a) (nc_ b)
  && Vector3_eq (center_ a) (center_ b)
  && Nat.eqb (start_ a) (start_ b)
  && Nat.eqb (ncartesian_ a) (ncartesian_ b)
  && Nat.eqb (nfunction_ a) (nfunction_ b).

(** The invariant of the data model: one coefficient, radial power and
    sub-label per exponent. *)
Definition well_formed (s : t) : Prop :=
  length (original_coef_ s) = length (exp_ s)
  ∧ length (n_ s) = length (exp_ s)
  ∧ length (sub_l_ s) = length (exp_ s).

End ECPShellInfo.

(** [Gaussian94ECPBasisSetParser::ecp_parse(symbol, lines)]: the text
    format is not parsed, the shell list stays empty. *)
Definition ecp_parse (symbol : string) (lines : list string) : list ECPShellInfo.t :=
  let shell_list := [] in
  shell_list.

(** ** class GaussianECPShell (ecp.cc) *)

(** A pointer into an array that stays as it is while the pointer lives:
    the array and the index of the element pointed to. *)
Record Ptr (A : Type) := { ptr_array : list A; ptr_first : nat }.
Arguments ptr_array {A} p.
Arguments ptr_first {A} p.
Arguments Build_Ptr {A} ptr_array ptr_first.

(** [p[i]] for an [int] index, which may be negative; undefined in the
    source outside the array, [None] here. *)
Definition ptr_read_at {A : Type} (p : Ptr A) (i : Z) : option A :=
  let k := (Z.of_nat (ptr_first p) + i)%Z in
  if bool_decide (0 ≤ k)%Z then ptr_array p !! Z.to_nat k else None.

(** [p[i]] for a loop index. *)
Definition ptr_read {A : Type} (p : Ptr A) (i : nat) : option A :=
  ptr_array p !! (ptr_first p + i).

(** The [n] elements that start at [p]. *)
Definition ptr_view {A : Type} (p : Ptr A) (n : nat) : list A :=
  take n (drop (ptr_first p) (ptr_array p)).

Module GaussianShell.

(** Modelled from the spec: the base class GaussianShell (its header is
    not among the sources), as far as ecp.cc uses it: the members that
    the constructor of GaussianECPShell hands to it, in the order
    (am, nprimitive, oc, c, ec, e, pure, nc, center, start), and the
    accessor [exp(int prim)] of the shell classes, which returns
    [exp_[prim]] as [ShellInfo::exp] does for the descriptors.  [center_]
    is kept as the index of the atom's first coordinate in [xyz_]. *)
Record t := {
  l_ : Z;
  nprimitive_ : nat;
  original_coef_ : Ptr double;
  coef_ : Ptr double;
  erd_coef_ : Ptr double;
  exp_ : Ptr double;
  puream_ : GaussianType;
  nc_ : nat;
  center_ : nat;
  start_ : nat
}.

Definition make (am : Z) (nprimitive : nat) (oc c ec e : Ptr double)
    (pure : GaussianType) (nc : nat) (center : nat) (start : nat) : t :=
  {| l_ := am; nprimitive_ := nprimitive; original_coef_ := oc; coef_ := c;
     erd_coef_ := ec; exp_ := e; puream_ := pure; nc_ := nc;
     center_ := center; start_ := start |}.

Definition am (s : t) : Z := l_ s.

(** [double exp(int prim) const] *)
Definition exp (s : t) (prim : Z) : option double := ptr_read_at (exp_ s) prim.

End GaussianShell.

Module GaussianECPShell.

(** The base part and the two members that the class adds. *)
Record t := {
  base : GaussianShell.t;
  n_ : Ptr Z;
  sub_l_ : Ptr Z
}.

(** [GaussianECPShell::GaussianECPShell(am, nprimitive, oc, e, n, subl, nc, center, start)]:
    the three coefficient pointers of the base class all receive [oc]. *)
Definition make (am : Z) (nprimitive : nat) (oc e : Ptr double)
    (n subl : Ptr Z) (nc : nat) (center : nat) (start : nat) : t :=
  {| base := GaussianShell.make am nprimitive oc oc oc e Cartesian nc center start;
     n_ := n; sub_l_ := subl |}.

(** The inherited members. *)
Definition l_ (s : t) : Z := GaussianShell.l_ (base s).
Definition nprimitive_ (s : t) : nat := GaussianShell.nprimitive_ (base s).
Definition original_coef_ (s : t) : Ptr double := GaussianShell.original_coef_ (base s).
Definition exp_ (s : t) : Ptr double := GaussianShell.exp_ (base s).
Definition am (s : t) : Z := l_ s.

Section WithLibm.
Context {LM : Libm.Functions}.

(** One pass of the loop body of evaluate.  [pow] is the function of
    <cmath>.  The name [exp] is looked up in the class first, where the
    base class declares the accessor [exp(int)]: the call
    [exp(-exp_[i] * r2)] converts its argument to [int] and reads the
    exponent array at that index. *)
Definition evaluate_step (s : t) (r r2 : double) (l : Z)
    (i : nat) (value : option double) : option double :=
  value ≫= λ value,
  ptr_read (sub_l_ s) i ≫= λ sl,
  if Z.eqb sl l then
    ptr_read (n_ s) i ≫= λ n,
    ptr_read (original_coef_ s) i ≫= λ c,
    ptr_read (exp_ s) i ≫= λ e,
    to_int (PrimFloat.mul (PrimFloat.opp e) r2) ≫= λ prim,
    GaussianShell.exp (base s) prim ≫= λ x,
    Some (PrimFloat.add value (PrimFloat.mul (PrimFloat.mul (Libm.pow r n) c) x))
  else Some value.

(** [double GaussianECPShell::evaluate(double r, int l) const]; [None]
    when the loop reads past the end of an array or converts a value
    that no [int] holds. *)
Definition evaluate (s : t) (r : double) (l : Z) : option double :=
  let value := 0%float in
  let r2 := PrimFloat.mul r r in
  for_loop 0 (nprimitive_ s) (evaluate_step s r r2 l) (Some value).

(** One primitive as evaluate reads it: sub-label, radial power,
    coefficient and exponent. *)
Definition primitive (s : t) (i : nat) : option (Z * Z * double * double) :=
  ptr_read (sub_l_ s) i ≫= λ sl,
  ptr_read (n_ s) i ≫= λ n,
  ptr_read (original_coef_ s) i ≫= λ c,
  ptr_read (exp_ s) i ≫= λ e,
  Some (sl, n, c, e).

Definition primitives (s : t) : option (list (Z * Z * double * double)) :=
  mapM (primitive s) (seq 0 (nprimitive_ s)).

(** The primitives whose sub-label is [l]. *)
Definition labelled (l : Z) (ps : list (Z * Z * double * double))
    : list (Z * Z * double * double) :=
  filter (λ p, p.1.1.1 = l) ps.

(** The term of one primitive in the words of the specification,
    [r^n * coef * exp(-exponent * r^2)] with the exponential function,
    and the value that the specification gives to evaluate(r, l). *)
Definition specified_term (r : double) (p : Z * Z * double * double) : double :=
  let '(_, n, c, e) := p in
  PrimFloat.mul (PrimFloat.mul (Libm.pow r n) c)
                (Libm.exp (PrimFloat.mul (PrimFloat.opp e) (PrimFloat.mul r r))).

Definition specified_value (r : double) (l : Z) (ps : list (Z * Z * double * double))
    : double :=
  dsum_from 0%float (specified_term r <$> labelled l ps).

(** The term that the loop body adds for one primitive: the element of
    the exponent array at the converted index in the place of the
    exponential. *)
Definition stored_term (s : t) (r : double) (p : Z * Z * double * double)
    : option double :=
  let '(_, n, c, e) := p in
  to_int (PrimFloat.mul (PrimFloat.opp e) (PrimFloat.mul r r)) ≫= λ prim,
  GaussianShell.exp (base s) prim ≫= λ x,
  Some (PrimFloat.mul (PrimFloat.mul (Libm.pow r n) c) x).
End WithLibm.

End GaussianECPShell.

(** ** The molecule *)

Module Molecule.

(** One atom: its label, its nuclear charge, the basis-set name and the
    shell hash registered for each role, and its position. *)
Record CoordEntry := {
  label_ : string;
  Z_ : Z;
  basissets_ : gmap string string;
  shells_ : gmap string string;
  xyz_ : Vector3
}.

(** The calls that change the molecule, in the order they are made. *)
Inductive Call : Type :=
  | set_basis_all_atoms_called (name key : string)
  | set_shell_by_label_called (label hash key : string)
  | update_geometry_called
  | set_nuclear_charge_called (atom : nat) (Z : Z).

#[global] Instance Call_eq_dec : EqDecision Call.
Proof. solve_decision. Defined.

Record t := { atoms : list CoordEntry; calls : list Call }.

Definition no_atom : CoordEntry :=
  {| label_ := ""; Z_ := 0; basissets_ := ∅; shells_ := ∅;
     xyz_ := {| v3_x := 0; v3_y := 0; v3_z := 0 |} |}.

#[global] Instance CoordEntry_inhabited : Inhabited CoordEntry := populate no_atom.

(** Modelled from the spec: the molecule provider (class Molecule and
    class CoordEntry are not among the sources) with per-atom basis-name
    lookup, label lookup, nuclear-charge get and set, atom count,
    coordinates and the trigger that recomputes geometry and symmetry.
    [basis_on_atom] reads the name registered for the role "BASIS".  The
    nuclear charge is kept as the integer that construct_ecp_from_pydict
    reads into its [int Z].  Every mutating call is also appended to
    [calls]. *)
Definition natom (m : t) : nat := length (atoms m).
Definition atom_entry (m : t) (n : nat) : CoordEntry := atoms m !!! n.
Definition label (m : t) (n : nat) : string := label_ (atom_entry m n).
Definition xyz (m : t) (n : nat) : Vector3 := xyz_ (atom_entry m n).
Definition basisset (a : CoordEntry) (role : string) : string :=
  default "" (basissets_ a !! role).
Definition basis_on_atom (m : t) (n : nat) : string :=
  basisset (atom_entry m n) "BASIS".

Definition with_basis (name role : string) (a : CoordEntry) : CoordEntry :=
  {| label_ := label_ a; Z_ := Z_ a; basissets_ := <[role := name]> (basissets_ a);
     shells_ := shells_ a; xyz_ := xyz_ a |}.
Definition with_shell (hash role : string) (a : CoordEntry) : CoordEntry :=
  {| label_ := label_ a; Z_ := Z_ a; basissets_ := basissets_ a;
     shells_ := <[role := hash]> (shells_ a); xyz_ := xyz_ a |}.
Definition with_Z (z : Z) (a : CoordEntry) : CoordEntry :=
  {| label_ := label_ a; Z_ := z; basissets_ := basissets_ a;
     shells_ := shells_ a; xyz_ := xyz_ a |}.

Definition set_basis_all_atoms (m : t) (name key : string) : t :=
  {| atoms := with_basis name key <$> atoms m;
     calls := calls m ++ [set_basis_all_atoms_called name key] |}.

Definition set_shell_by_label (m : t) (label hash key : string) : t :=
  {| atoms := (λ a, if bool_decide (label_ a = label) then with_shell hash key a else a)
              <$> atoms m;
     calls := calls m ++ [set_shell_by_label_called label hash key] |}.

Definition update_geometry (m : t) : t :=
  {| atoms := atoms m; calls := calls m ++ [update_geometry_called] |}.

Definition set_nuclear_charge (m : t) (atom : nat) (z : Z) : t :=
  {| atoms := alter (with_Z z) atom (atoms m);
     calls := calls m ++ [set_nuclear_charge_called atom z] |}.

Definition Z (m : t) (n : nat) : BinNums.Z := Z_ (atom_entry m n).

(** Two molecules whose atoms carry the same labels and basis names. *)
Definition same_names (m m' : t) : Prop :=
  ∀ n, label_ (atom_entry m' n) = label_ (atom_entry m n)
       ∧ basissets_ (atom_entry m' n) = basissets_ (atom_entry m n).

End Molecule.

(** ** class ECPBasisSet (ecp.cc) *)

Module ECPBasisSet.

Abbreviation ShellMap := (gmap string (gmap string (list ECPShellInfo.t))).

(** The unique primitives and the ranges [primitive_start], [primitive_end]
    of the first loop of the constructor. *)
Record Pool := {
  uexps : list double;
  ucoefs : list double;
  uns : list Z;
  usubls : list Z;
  uoriginal_coefs : list double;
  uerd_coefs : list double;
  n_uprimitive_ : nat;
  primitive_start : gmap string (gmap string nat);
  primitive_end : gmap string (gmap string nat)
}.

Definition empty_pool : Pool :=
  {| uexps := []; ucoefs := []; uns := []; usubls := []; uoriginal_coefs := [];
     uerd_coefs := []; n_uprimitive_ := 0; primitive_start := ∅; primitive_end := ∅ |}.

(** The body of the loop over [prim]. *)
Definition push_primitive (shell : ECPShellInfo.t) (prim : nat) (p : Pool) : Pool :=
  {| uexps := uexps p ++ [ECPShellInfo.exp shell prim];
     ucoefs := ucoefs p ++ [ECPShellInfo.coef shell prim];
     uns := uns p ++ [ECPShellInfo.n shell prim];
     usubls := usubls p ++ [ECPShellInfo.subl shell prim];
     uoriginal_coefs := uoriginal_coefs p ++ [ECPShellInfo.original_coef shell prim];
     uerd_coefs := uerd_coefs p ++ [0%float];
     n_uprimitive_ := S (n_uprimitive_ p);
     primitive_start := primitive_start p;
     primitive_end := primitive_end p |}.

Definition push_shell (p : Pool) (shell : ECPShellInfo.t) : Pool :=
  for_loop 0 (ECPShellInfo.nprimitive shell) (push_primitive shell) p.

Definition mark_start (basis label : string) (p : Pool) : Pool :=
  {| uexps := uexps p; ucoefs := ucoefs p; uns := uns p; usubls := usubls p;
     uoriginal_coefs := uoriginal_coefs p; uerd_coefs := uerd_coefs p;
     n_uprimitive_ := n_uprimitive_ p;
     primitive_start := Map2.assign basis label (n_uprimitive_ p) (primitive_start p);
     primitive_end := primitive_end p |}.

Definition mark_end (basis label : string) (p : Pool) : Pool :=
  {| uexps := uexps p; ucoefs := ucoefs p; uns := uns p; usubls := usubls p;
     uoriginal_coefs := uoriginal_coefs p; uerd_coefs := uerd_coefs p;
     n_uprimitive_ := n_uprimitive_ p;
     primitive_start := primitive_start p;
     primitive_end := Map2.assign basis label (n_uprimitive_ p) (primitive_end p) |}.

(** The body of the loop over the labels of one basis: the shells of
    the label are visited in order. *)
Definition push_entry (p : Pool) (e : string * string * list ECPShellInfo.t) : Pool :=
  let '(basis, label, shells) := e in
  let p := mark_start basis label p in
  let p := foldl push_shell p shells in
  mark_end basis label p.

(** The first loop nest of the constructor.  The two nested map
    iterations visit the entries one after the other; the embedding
    visits them in the order of [Map2.entries]. *)
Definition unique_primitives (shell_map : ShellMap) : Pool :=
  foldl push_entry empty_pool (Map2.entries shell_map).

(** The sub-labels that the first loop appends for the shells of one
    entry. *)
Definition flat_subls (shells : list ECPShellInfo.t) : list Z :=
  shells ≫= λ s, ECPShellInfo.subl s <$> seq 0 (ECPShellInfo.nprimitive s).

(** A descriptor all of whose primitives carry the angular momentum of
    the shell as sub-label. *)
Definition one_label (s : ECPShellInfo.t) : Prop :=
  ECPShellInfo.sub_l_ s
  = replicate (ECPShellInfo.nprimitive s) (ECPShellInfo.l_ s).

(** A storage shell all of whose primitives can be read and carry the
    angular momentum of the shell as sub-label. *)
Definition reads_one_label (sh : GaussianECPShell.t) : Prop :=
  ∀ i, i < GaussianECPShell.nprimitive_ sh →
       ptr_read (GaussianECPShell.sub_l_ sh) i = Some (GaussianECPShell.l_ sh).

(** The counters of the second loop. *)
Record Counts := { c_n_shells : nat; c_nprimitive : nat; c_nao : nat; c_nbf : nat }.

Definition count_shell (c : Counts) (shell : ECPShellInfo.t) : Counts :=
  let nprim := ECPShellInfo.nprimitive shell in
  {| c_n_shells := S (c_n_shells c);
     c_nprimitive := c_nprimitive c + nprim;
     c_nao := c_nao c + ECPShellInfo.ncartesian shell;
     c_nbf := c_nbf c + ECPShellInfo.nfunction shell |}.

Definition shells_of_atom (basistype : string) (mol : Molecule.t)
    (shell_map : ShellMap) (n : nat) : list ECPShellInfo.t :=
  let atom := Molecule.atom_entry mol n in
  let basis := Molecule.basisset atom basistype in
  let label := Molecule.label_ atom in
  Map2.at_ [] shell_map basis label.

Definition count_all (basistype : string) (mol : Molecule.t) (shell_map : ShellMap)
    : Counts :=
  for_loop 0 (Molecule.natom mol)
    (λ n c, foldl count_shell c (shells_of_atom basistype mol shell_map n))
    {| c_n_shells := 0; c_nprimitive := 0; c_nao := 0; c_nbf := 0 |}.

(** The tables and counters that the third loop fills.  Each array is
    written at consecutive indices from 0, so it is the list of the
    values stored so far.  [shells_] is an array of GaussianShell: the
    assignment of a GaussianECPShell to one of its elements keeps the
    base part.  [constructed_] is not a member: it logs the
    GaussianECPShell objects in the order in which the loop constructs
    them. *)
Record Tables := {
  shells_ : list GaussianShell.t;
  constructed_ : list GaussianECPShell.t;
  shell_first_ao_ : list nat;
  shell_first_basis_function_ : list nat;
  ao_to_shell_ : list nat;
  function_to_shell_ : list nat;
  function_center_ : list nat;
  shell_center_ : list nat;
  center_to_nshell_ : list nat;
  center_to_shell_ : list nat;
  xyz_ : list double;
  puream_ : bool;
  max_am_ : Z;
  max_nprimitive_ : nat;
  shell_count : nat;
  ao_count : nat;
  bf_count : nat
}.

Definition empty_tables : Tables :=
  {| shells_ := []; constructed_ := [];
     shell_first_ao_ := []; shell_first_basis_function_ := [];
     ao_to_shell_ := []; function_to_shell_ := []; function_center_ := [];
     shell_center_ := []; center_to_nshell_ := []; center_to_shell_ := [];
     xyz_ := []; puream_ := false; max_am_ := 0; max_nprimitive_ := 0;
     shell_count := 0; ao_count := 0; bf_count := 0 |}.

(** The body of the loop over the shells of atom [n]; [atom_nprim] is
    threaded with the tables. *)
Definition assemble_shell (pool : Pool) (n ustart : nat)
    (acc : Tables * nat) (thisshell : ECPShellInfo.t) : Tables * nat :=
  let '(T, atom_nprim) := acc in
  let shell_nprim := ECPShellInfo.nprimitive thisshell in
  let am := ECPShellInfo.am thisshell in
  let shell :=
    GaussianECPShell.make am shell_nprim
      (Build_Ptr (uoriginal_coefs pool) (ustart + atom_nprim))
      (Build_Ptr (uexps pool) (ustart + atom_nprim))
      (Build_Ptr (uns pool) (ustart + atom_nprim))
      (Build_Ptr (usubls pool) (ustart + atom_nprim))
      n (3 * n) (bf_count T) in
  ({| shells_ := shells_ T ++ [GaussianECPShell.base shell];
      constructed_ := constructed_ T ++ [shell];
      shell_first_ao_ := shell_first_ao_ T ++ [ao_count T];
      shell_first_basis_function_ := shell_first_basis_function_ T ++ [bf_count T];
      ao_to_shell_ :=
        ao_to_shell_ T ++ replicate (ECPShellInfo.ncartesian thisshell) (shell_count T);
      function_to_shell_ :=
        function_to_shell_ T ++ replicate (ECPShellInfo.nfunction thisshell) (shell_count T);
      function_center_ :=
        function_center_ T ++ replicate (ECPShellInfo.nfunction thisshell) n;
      shell_center_ := shell_center_ T ++ [n];
      center_to_nshell_ := center_to_nshell_ T;
      center_to_shell_ := center_to_shell_ T;
      xyz_ := xyz_ T;
      puream_ := if ECPShellInfo.is_pure thisshell then true else puream_ T;
      max_am_ := if bool_decide (am < max_am_ T)%Z then max_am_ T else am;
      max_nprimitive_ :=
        if bool_decide (max_nprimitive_ T < shell_nprim) then shell_nprim
        else max_nprimitive_ T;
      shell_count := S (shell_count T);
      ao_count := ao_count T + ECPShellInfo.ncartesian thisshell;
      bf_count := bf_count T + ECPShellInfo.nfunction thisshell |},
   atom_nprim + shell_nprim).

Definition open_atom (nshells : nat) (T : Tables) : Tables :=
  {| shells_ := shells_ T; constructed_ := constructed_ T;
     shell_first_ao_ := shell_first_ao_ T;
     shell_first_basis_function_ := shell_first_basis_function_ T;
     ao_to_shell_ := ao_to_shell_ T; function_to_shell_ := function_to_shell_ T;
     function_center_ := function_center_ T; shell_center_ := shell_center_ T;
     center_to_nshell_ := center_to_nshell_ T ++ [nshells];
     center_to_shell_ := center_to_shell_ T ++ [shell_count T];
     xyz_ := xyz_ T; puream_ := puream_ T; max_am_ := max_am_ T;
     max_nprimitive_ := max_nprimitive_ T; shell_count := shell_count T;
     ao_count := ao_count T; bf_count := bf_count T |}.

Definition store_xyz (v : Vector3) (T : Tables) : Tables :=
  {| shells_ := shells_ T; constructed_ := constructed_ T;
     shell_first_ao_ := shell_first_ao_ T;
     shell_first_basis_function_ := shell_first_basis_function_ T;
     ao_to_shell_ := ao_to_shell_ T; function_to_shell_ := function_to_shell_ T;
     function_center_ := function_center_ T; shell_center_ := shell_center_ T;
     center_to_nshell_ := center_to_nshell_ T;
     center_to_shell_ := center_to_shell_ T;
     xyz_ := xyz_ T ++ [v3_x v; v3_y v; v3_z v];
     puream_ := puream_ T; max_am_ := max_am_ T;
     max_nprimitive_ := max_nprimitive_ T; shell_count := shell_count T;
     ao_count := ao_count T; bf_count := bf_count T |}.

Definition nprimitive_problem : string :=
  "Problem with nprimitive in basis set construction!".

(** The primitives that the shells of atom [n] consume: the final value
    of [atom_nprim]. *)
Definition consumed (basistype : string) (mol : Molecule.t) (shell_map : ShellMap)
    (n : nat) : nat :=
  sum_list (ECPShellInfo.nprimitive <$> shells_of_atom basistype mol shell_map n).

(** [uend - ustart] for atom [n], as an [int]. *)
Definition range_size (basistype : string) (mol : Molecule.t)
    (starts ends : gmap string (gmap string nat)) (n : nat) : Z :=
  let atom := Molecule.atom_entry mol n in
  let basis := Molecule.basisset atom basistype in
  let label := Molecule.label_ atom in
  (Z.of_nat (Map2.at_ 0%nat ends basis label)
   - Z.of_nat (Map2.at_ 0%nat starts basis label))%Z.

(** The body of the third loop for atom [n]. *)
Definition assemble_atom (basistype : string) (mol : Molecule.t)
    (shell_map : ShellMap) (pool : Pool) (n : nat) (T : Tables) : Outcome Tables :=
  let atom := Molecule.atom_entry mol n in
  let basis := Molecule.basisset atom basistype in
  let label := Molecule.label_ atom in
  let shells := Map2.at_ [] shell_map basis label in
  let ustart := Map2.at_ 0 (primitive_start pool) basis label in
  let uend := Map2.at_ 0 (primitive_end pool) basis label in
  let nshells := length shells in
  let T := open_atom nshells T in
  let atom_nprim := 0 in
  let '(T, atom_nprim) := foldl (assemble_shell pool n ustart) (T, atom_nprim) shells in
  let T := store_xyz (Molecule.xyz mol n) T in
  if bool_decide (Z.of_nat atom_nprim ≠ Z.of_nat uend - Z.of_nat ustart)%Z
  then Thrown nprimitive_problem
  else Returned T.

(** The third loop: an exception ends it. *)
Definition assemble_atoms (basistype : string) (mol : Molecule.t)
    (shell_map : ShellMap) (pool : Pool) : Outcome Tables :=
  for_loop 0 (Molecule.natom mol)
    (λ n acc, match acc with
              | Returned T => assemble_atom basistype mol shell_map pool n T
              | Thrown what => Thrown what
              end)
    (Returned empty_tables).

(** The constructed object. *)
Record t := {
  name_ : string;
  key_ : string;
  target_ : string;
  n_uprimitive : nat;
  uexponents_ : list double;
  ucoefficients_ : list double;
  uoriginal_coefficients_ : list double;
  uerd_coefficients_ : list double;
  uns_ : list Z;
  usubls_ : list Z;
  n_shells_ : nat;
  nprimitive_ : nat;
  nao_ : nat;
  nbf_ : nat;
  tables : Tables
}.

(** [ECPBasisSet::ECPBasisSet()] *)
Definition make_empty : t :=
  {| name_ := ""; key_ := ""; target_ := ""; n_uprimitive := 0;
     uexponents_ := []; ucoefficients_ := []; uoriginal_coefficients_ := [];
     uerd_coefficients_ := []; uns_ := []; usubls_ := [];
     n_shells_ := 0; nprimitive_ := 0; nao_ := 0; nbf_ := 0;
     tables := empty_tables |}.

(** [ECPBasisSet::ECPBasisSet(basistype, mol, shell_map)] *)
Definition make (basistype : string) (mol : Molecule.t) (shell_map : ShellMap)
    : Outcome t :=
  let pool := unique_primitives shell_map in
  let counts := count_all basistype mol shell_map in
  match assemble_atoms basistype mol shell_map pool with
  | Thrown what => Thrown what
  | Returned T =>
      Returned {| name_ := basistype; key_ := ""; target_ := "";
                  n_uprimitive := n_uprimitive_ pool;
                  uexponents_ := uexps pool;
                  ucoefficients_ := ucoefs pool;
                  uoriginal_coefficients_ := uoriginal_coefs pool;
                  uerd_coefficients_ := uerd_coefs pool;
                  uns_ := uns pool;
                  usubls_ := usubls pool;
                  n_shells_ := c_n_shells counts;
                  nprimitive_ := c_nprimitive counts;
                  nao_ := c_nao counts;
                  nbf_ := c_nbf counts;
                  tables := T |}
  end.

Definition rename (bs : t) (name key target : string) : t :=
  {| name_ := name; key_ := key; target_ := target;
     n_uprimitive := n_uprimitive bs; uexponents_ := uexponents_ bs;
     ucoefficients_ := ucoefficients_ bs;
     uoriginal_coefficients_ := uoriginal_coefficients_ bs;
     uerd_coefficients_ := uerd_coefficients_ bs; uns_ := uns_ bs;
     usubls_ := usubls_ bs; n_shells_ := n_shells_ bs;
     nprimitive_ := nprimitive_ bs; nao_ := nao_ bs; nbf_ := nbf_ bs;
     tables := tables bs |}.

(** *** The structured input of construct_ecp_from_pydict *)

(** [[ angmom, [ e1, c1, r1 ], ..., [ ep, cp, rp ] ]] *)
Record PyShell := { py_am : Z; py_primitives : list (double * double * Z) }.

(** [[ label, hash, ncore, shell, shell, ... ]] *)
Record PyAtom := {
  py_label : string;
  py_hash : string;
  py_ncore : Z;
  py_shells : list PyShell
}.

Record PyBasis := {
  py_key : string;
  py_name : string;
  py_blend : string;
  py_message : string;
  py_ecp_shell_map : list PyAtom
}.

Definition empty_ecp_information : string :=
  "Empty ECP information being used to construct ECPBasisSet.".

Section WithBase.
Context {B : ECPShellInfo.Base}.

(** The loop over the primitives of one shell entry and the
    descriptor pushed after it. *)
Definition shell_of_py (sh : PyShell) : ECPShellInfo.t :=
  let am := py_am sh in
  let '(coefficients, exponents, ns, sub_ls) :=
    foldl (λ '(coefficients, exponents, ns, sub_ls) '(e, c, r),
             (coefficients ++ [c], exponents ++ [e], ns ++ [r], sub_ls ++ [am]))
          ([], [], [], []) (py_primitives sh) in
  let fake_center := {| v3_x := 0; v3_y := 0; v3_z := 0 |} in
  ECPShellInfo.make am coefficients exponents ns sub_ls 0 fake_center 0.

(** The state of the loop over [basisinfo]. *)
Record Reading := {
  r_mol : Molecule.t;
  basis_atom_ncore : gmap string (gmap string Z);
  basis_atom_shell : ShellMap
}.

Definition read_atom (name key : string) (R : Reading) (a : PyAtom) : Reading :=
  let vec_shellinfo := shell_of_py <$> py_shells a in
  {| r_mol := Molecule.set_shell_by_label (r_mol R) (py_label a) (py_hash a) key;
     basis_atom_ncore := Map2.assign name (py_label a) (py_ncore a) (basis_atom_ncore R);
     basis_atom_shell := Map2.assign name (py_label a) vec_shellinfo (basis_atom_shell R) |}.

Definition read_atoms (mol : Molecule.t) (pybs : PyBasis) : Reading :=
  foldl (read_atom (py_name pybs) (py_key pybs))
        {| r_mol := mol; basis_atom_ncore := ∅; basis_atom_shell := ∅ |}
        (py_ecp_shell_map pybs).

(** The body of the loop that modifies the nuclear charges. *)
Definition adjust_charge (ncores : gmap string (gmap string Z)) (atom : nat)
    (mol : Molecule.t) : Molecule.t :=
  let basis := Molecule.basis_on_atom mol atom in
  let label := Molecule.label mol atom in
  let ncore := Map2.at_ 0%Z ncores basis label in
  let Z := Molecule.Z mol atom in
  let Z := int_sub Z ncore in
  Molecule.set_nuclear_charge mol atom Z.

(** [ECPBasisSet::construct_ecp_from_pydict(mol, pybs, forced_puream)]:
    the molecule as the call leaves it, and the basis set or the
    exception. *)
Definition construct_ecp_from_pydict (mol : Molecule.t) (pybs : PyBasis)
    (forced_puream : Z) : Molecule.t * Outcome t :=
  let key := py_key pybs in
  let name := py_name pybs in
  let label := py_blend pybs in
  let mol := Molecule.set_basis_all_atoms mol name key in
  if bool_decide (length (py_ecp_shell_map pybs) = 0)
  then (mol, Thrown empty_ecp_information)
  else
    let R := read_atoms mol pybs in
    let mol := r_mol R in
    let mol := Molecule.update_geometry mol in
    let mol := for_loop 0 (Molecule.natom mol)
                 (adjust_charge (basis_atom_ncore R)) mol in
    match make key mol (basis_atom_shell R) with
    | Thrown what => (mol, Thrown what)
    | Returned basisset => (mol, Returned (rename basisset name key label))
    end.

(** The core-electron count that the charge loop finds for an atom. *)
Definition core_electrons (ncores : gmap string (gmap string Z))
    (mol : Molecule.t) (atom : nat) : Z :=
  Map2.at_ 0%Z ncores (Molecule.basis_on_atom mol atom) (Molecule.label mol atom).

(** The molecule at the moment update_geometry returns. *)
Definition molecule_at_update (mol : Molecule.t) (pybs : PyBasis) : Molecule.t :=
  Molecule.update_geometry
    (r_mol (read_atoms
              (Molecule.set_basis_all_atoms mol (py_name pybs) (py_key pybs)) pybs)).


End WithBase.





End ECPBasisSet.

(** ** Sample ROHF states *)

Module ROHFSamples.
Import Mat ROHF.

Definition zero2 : Matrix := [[[0; 0]; [0; 0]]]%float.

(** A degenerate core Hamiltonian on two orthonormal basis functions. *)
Definition H2 : Matrix := [[[-1; 0]; [0; -1]]]%float.

(** Two orthonormal orbital sets: column 0 is the occupied orbital,
    the first basis function in [C_first] and the second in [C_swapped]. *)
Definition C_first : Matrix := [[[1; 0]; [0; 1]]]%float.
Definition C_swapped : Matrix := [[[0; 1]; [1; 0]]]%float.

(** One irrep, two basis functions, no doubly-occupied orbital and one
    singly-occupied orbital (a one-electron doublet), before the first
    density is formed. *)
Definition doublet : State :=
  {| nirrep_ := 1; nsopi_ := [2]; nmopi_ := [2]; doccpi_ := [0]; soccpi_ := [1];
     H_ := H2; Ga_ := zero2; Gb_ := zero2; Fa_ := H2; Fb_ := H2;
     moFa_ := H2; moFb_ := H2; Feff_ := H2;
     Ca_ := C_first; Da_ := zero2; Db_ := zero2; Dt_ := zero2; Dt_old_ := zero2;
     E_ := 0%float; Eold_ := 0%float; Drms_ := 0%float;
     nuclearrep_ := 0%float;
     energy_threshold_ := 0x1p-20%float;
     density_threshold_ := 0x1p-20%float |}.

(** Modelled from the spec: the tail of one pass of the SCF driver (the
    driver itself is in the base class HF, not among the sources).  The
    history is saved, the orbitals [Ca] of the pass arrive, then
    FormD → ComputeEnergy → TestConvergence. *)
Definition finish_iteration {MP : Provider} (st : State) (Ca : Matrix)
    : bool * State :=
  let st := save_density_and_energy st in
  let st := with_orbitals st Ca in
  let st := form_D st in
  let st := with_energy st (compute_E st) in
  test_convergency st.

(** The doublet after a first pass with the orbitals [C_first]. *)
Definition doublet_after_first_pass : State :=
  (finish_iteration (MP := reference_provider) doublet C_first).2.

(** One irrep with one closed, one open and one virtual orbital; the
    orbitals are the basis functions themselves. *)
Definition H3 : Matrix := [[[1; 2; 3]; [2; 4; 5]; [3; 5; 6]]]%float.
Definition Ga3 : Matrix := [[[8; 0; 2]; [0; 2; 4]; [2; 4; 0]]]%float.
Definition Gb3 : Matrix := [[[0; 6; 0]; [6; 0; 2]; [0; 2; 8]]]%float.
Definition C3 : Matrix := [[[1; 0; 0]; [0; 1; 0]; [0; 0; 1]]]%float.
Definition zero3 : Matrix := [[[0; 0; 0]; [0; 0; 0]; [0; 0; 0]]]%float.

Definition three_class : State :=
  {| nirrep_ := 1; nsopi_ := [3]; nmopi_ := [3]; doccpi_ := [1]; soccpi_ := [1];
     H_ := H3; Ga_ := Ga3; Gb_ := Gb3; Fa_ := zero3; Fb_ := zero3;
     moFa_ := zero3; moFb_ := zero3; Feff_ := zero3;
     Ca_ := C3; Da_ := zero3; Db_ := zero3; Dt_ := zero3; Dt_old_ := zero3;
     E_ := 0%float; Eold_ := 0%float; Drms_ := 0%float;
     nuclearrep_ := 0.5%float;
     energy_threshold_ := 0x1p-20%float;
     density_threshold_ := 0x1p-20%float |}.

(** The same occupations with orbitals that mix the basis functions:
    the closed orbital is (2, 5, 0), the open one (3, 7, 0). *)
Definition C_mixed : Matrix := [[[2; 3; 0]; [5; 7; 0]; [0; 0; 1]]]%float.

Definition mixed_orbitals : State := with_orbitals three_class C_mixed.

End ROHFSamples.

(** ** Sample ECP inputs *)

Module ECPSamples.
Import ECPBasisSet.

(** The usual function counts of a shell, and a base-class constructor
    that keeps the coefficients as given and leaves the ERD ones empty.
    Every statement below holds for any [ECPShellInfo.Base]. *)
Definition plain_base : ECPShellInfo.Base :=
  {| ECPShellInfo.base_coef := λ _ c _, c;
     ECPShellInfo.base_erd_coef := λ _ _ _, [];
     ECPShellInfo.INT_NCART := λ am, Z.to_nat ((am + 2) * (am + 1) / 2);
     ECPShellInfo.INT_NFUNC := λ pure am,
       match pure with
       | Pure => Z.to_nat (2 * am + 1)
       | Cartesian => Z.to_nat ((am + 2) * (am + 1) / 2)
       end |}.

Definition origin : Vector3 := {| v3_x := 0; v3_y := 0; v3_z := 0 |}.

(** A one-primitive descriptor whose ERD coefficient differs from the
    original coefficient. *)
Definition descriptor : ECPShellInfo.t :=
  {| ECPShellInfo.l_ := 1; ECPShellInfo.puream_ := Cartesian;
     ECPShellInfo.exp_ := [0.5%float]; ECPShellInfo.coef_ := [1%float];
     ECPShellInfo.erd_coef_ := [2%float]; ECPShellInfo.original_coef_ := [1%float];
     ECPShellInfo.n_ := [2%Z]; ECPShellInfo.sub_l_ := [1%Z];
     ECPShellInfo.nc_ := 0; ECPShellInfo.center_ := origin;
     ECPShellInfo.start_ := 0;
     ECPShellInfo.ncartesian_ := 3; ECPShellInfo.nfunction_ := 3 |}.

(** The same descriptor with other coefficients: its original
    coefficient is 2 and its ERD coefficient 1. *)
Definition other_descriptor : ECPShellInfo.t :=
  {| ECPShellInfo.l_ := 1; ECPShellInfo.puream_ := Cartesian;
     ECPShellInfo.exp_ := [0.5%float]; ECPShellInfo.coef_ := [2%float];
     ECPShellInfo.erd_coef_ := [1%float]; ECPShellInfo.original_coef_ := [2%float];
     ECPShellInfo.n_ := [2%Z]; ECPShellInfo.sub_l_ := [1%Z];
     ECPShellInfo.nc_ := 0; ECPShellInfo.center_ := origin;
     ECPShellInfo.start_ := 0;
     ECPShellInfo.ncartesian_ := 3; ECPShellInfo.nfunction_ := 3 |}.

(** A base-class constructor that rescales: [coef_] holds twice and
    [erd_coef_] four times the coefficients given.  It stands for a
    ShellInfo constructor that normalises the two in different ways. *)
Definition rescaling_base : ECPShellInfo.Base :=
  {| ECPShellInfo.base_coef := λ _ c _, PrimFloat.mul 2%float <$> c;
     ECPShellInfo.base_erd_coef := λ _ c _, PrimFloat.mul 4%float <$> c;
     ECPShellInfo.INT_NCART := ECPShellInfo.INT_NCART (Base := plain_base);
     ECPShellInfo.INT_NFUNC := ECPShellInfo.INT_NFUNC (Base := plain_base) |}.

(** The descriptor that the constructor builds for one primitive with
    the coefficient 1, and the one for the coefficient 4. *)
Definition built_descriptor : ECPShellInfo.t :=
  ECPShellInfo.make (B := rescaling_base) 1 [1%float] [0.5%float] [2%Z] [1%Z] 0 origin 0.

Definition rescaled_descriptor : ECPShellInfo.t :=
  ECPShellInfo.make (B := rescaling_base) 1 [4%float] [0.5%float] [2%Z] [1%Z] 0 origin 0.

(** A storage shell of three primitives that mixes the sub-labels 0, 1
    and 0; its arrays start at index 1 of a pool of five. *)
Definition mixed_shell : GaussianECPShell.t :=
  GaussianECPShell.make 1 3
    (Build_Ptr [9; 2; 3; 4; 9]%float 1)
    (Build_Ptr [9; 0; 0; 0; 9]%float 1)
    (Build_Ptr [7; 0; 2; 1; 7]%Z 1)
    (Build_Ptr [7; 0; 1; 0; 7]%Z 1)
    0 0 0.

(** The same shell with the exponents 0.5, 0.25 and 0.75. *)
Definition half_shell : GaussianECPShell.t :=
  GaussianECPShell.make 1 3
    (Build_Ptr [9; 2; 3; 4; 9]%float 1)
    (Build_Ptr [9; 0.5; 0.25; 0.75; 9]%float 1)
    (Build_Ptr [7; 0; 2; 1; 7]%Z 1)
    (Build_Ptr [7; 0; 1; 0; 7]%Z 1)
    0 0 0.

(** Two atoms, a labelled "CU" atom of charge 29 and a hydrogen. *)
Definition atom (label : string) (z : Z) : Molecule.CoordEntry :=
  {| Molecule.label_ := label; Molecule.Z_ := z; Molecule.basissets_ := ∅;
     Molecule.shells_ := ∅; Molecule.xyz_ := origin |}.

Definition CuH : Molecule.t :=
  {| Molecule.atoms := [atom "CU" 29; atom "H" 1]; Molecule.calls := [] |}.

(** An ECP for the copper atom that replaces 10 core electrons: a shell
    of angular momentum 2 with two primitives and a shell of angular
    momentum 0 with one. *)
Definition cu_ecp : PyBasis :=
  {| py_key := "BASIS"; py_name := "LANL2DZ"; py_blend := "LANL2DZ";
     py_message := "";
     py_ecp_shell_map :=
       [ {| py_label := "CU"; py_hash := "abc"; py_ncore := 10;
            py_shells :=
              [ {| py_am := 2;
                   py_primitives := [(0.5, 1, 1%Z); (0.25, 2, 2%Z)]%float |};
                {| py_am := 0;
                   py_primitives := [(1, 3, 0%Z)]%float |} ] |} ] |}.




(** Precomputed ranges that disagree with the shells of the copper
    atom: the range of ("LANL2DZ", "CU") holds two primitives, the shells
    consume three. *)
Definition short_pool : Pool :=
  let p := unique_primitives
             (basis_atom_shell (read_atoms (B := plain_base) CuH cu_ecp)) in
  {| uexps := uexps p; ucoefs := ucoefs p; uns := uns p; usubls := usubls p;
     uoriginal_coefs := uoriginal_coefs p; uerd_coefs := uerd_coefs p;
     n_uprimitive_ := n_uprimitive_ p;
     primitive_start := primitive_start p;
     primitive_end := Map2.assign "LANL2DZ" "CU" 2 (primitive_end p) |}.

(** The basis set that construct_ecp_from_pydict returns for copper
    hydride. *)
Definition CuH_result : Molecule.t * Outcome t :=
  construct_ecp_from_pydict (B := plain_base) CuH cu_ecp 0.

Definition cu_basis : t :=
  match CuH_result.2 with
  | Returned bs => bs
  | Thrown _ => make_empty
  end.

End ECPSamples.

(** ** Vocabulary for the layout of an assembled ECP basis set *)

Module ECPLayout.
Import ECPBasisSet.

(** What the first loop of the constructor appends to one pool array for
    one descriptor, read through the accessor [rd], and for a list of
    descriptors. *)
Definition column {A : Type} (rd : ECPShellInfo.t → nat → A) (s : ECPShellInfo.t)
    : list A :=
  rd s <$> seq 0 (ECPShellInfo.nprimitive s).

Definition flat_column {A : Type} (rd : ECPShellInfo.t → nat → A)
    (shells : list ECPShellInfo.t) : list A :=
  shells ≫= column rd.

(** The number of primitives of a list of descriptors, and of a list of
    map entries. *)
Definition total_primitives (shells : list ECPShellInfo.t) : nat :=
  sum_list_with ECPShellInfo.nprimitive shells.

Definition entries_primitives (es : list (string * string * list ECPShellInfo.t)) : nat :=
  sum_list_with (λ e, total_primitives e.2) es.

(** The [n] elements of an array from index [first] on. *)
Definition slice {A : Type} (l : list A) (first n : nat) : list A :=
  take n (drop first l).

Definition nondecreasing (l : list nat) : Prop :=
  ∀ i j x y, i ≤ j → l !! i = Some x → l !! j = Some y → x ≤ y.

(** Running offsets: element [k] is [from] plus the sizes before [k]. *)
Fixpoint prefix_sums (from : nat) (sizes : list nat) : list nat :=
  match sizes with
  | [] => []
  | n :: sizes' => from :: prefix_sums (from + n) sizes'
  end.

Definition first_offsets (size : ECPShellInfo.t → nat) (from : nat)
    (ss : list ECPShellInfo.t) : list nat :=
  prefix_sums from (size <$> ss).

(** For each descriptor in turn, [size] copies of its index, counted
    from [k]. *)
Fixpoint owners (size : ECPShellInfo.t → nat) (k : nat)
    (ss : list ECPShellInfo.t) : list nat :=
  match ss with
  | [] => []
  | s :: ss' => replicate (size s) k ++ owners size (S k) ss'
  end.

(** For each descriptor in turn, [size] copies of the index of its atom. *)
Definition centers (size : ECPShellInfo.t → nat) (ds : list (nat * ECPShellInfo.t))
    : list nat :=
  ds ≫= λ d, replicate (size d.2) d.1.

(** The storage shells that the loop over the shells of atom [n] builds,
    from [atom_nprim = k] and [bf_count = bf] on. *)
Fixpoint built_shells (pool : Pool) (n ustart k bf : nat)
    (ss : list ECPShellInfo.t) : list GaussianECPShell.t :=
  match ss with
  | [] => []
  | s :: ss' =>
      GaussianECPShell.make (ECPShellInfo.am s) (ECPShellInfo.nprimitive s)
        (Build_Ptr (uoriginal_coefs pool) (ustart + k))
        (Build_Ptr (uexps pool) (ustart + k))
        (Build_Ptr (uns pool) (ustart + k))
        (Build_Ptr (usubls pool) (ustart + k))
        n (3 * n) bf
      :: built_shells pool n ustart (k + ECPShellInfo.nprimitive s)
           (bf + ECPShellInfo.nfunction s) ss'
  end.

(** The tables after the loop over the shells [ss] of atom [n], which
    starts from the tables [T] with [atom_nprim = k]. *)
Definition shells_appended (pool : Pool) (n ustart : nat) (T : Tables) (k : nat)
    (ss : list ECPShellInfo.t) : Tables :=
  {| shells_ :=
       shells_ T ++ (GaussianECPShell.base <$> built_shells pool n ustart k (bf_count T) ss);
     constructed_ := constructed_ T ++ built_shells pool n ustart k (bf_count T) ss;
     shell_first_ao_ :=
       shell_first_ao_ T ++ first_offsets ECPShellInfo.ncartesian (ao_count T) ss;
     shell_first_basis_function_ :=
       shell_first_basis_function_ T
       ++ first_offsets ECPShellInfo.nfunction (bf_count T) ss;
     ao_to_shell_ := ao_to_shell_ T ++ owners ECPShellInfo.ncartesian (shell_count T) ss;
     function_to_shell_ :=
       function_to_shell_ T ++ owners ECPShellInfo.nfunction (shell_count T) ss;
     function_center_ :=
       function_center_ T ++ centers ECPShellInfo.nfunction ((λ s, (n, s)) <$> ss);
     shell_center_ := shell_center_ T ++ replicate (length ss) n;
     center_to_nshell_ := center_to_nshell_ T;
     center_to_shell_ := center_to_shell_ T;
     xyz_ := xyz_ T;
     puream_ := foldl (λ p s, if ECPShellInfo.is_pure s then true else p) (puream_ T) ss;
     max_am_ :=
       foldl (λ m s, if bool_decide (ECPShellInfo.am s < m)%Z then m else ECPShellInfo.am s)
             (max_am_ T) ss;
     max_nprimitive_ :=
       foldl (λ m s, if bool_decide (m < ECPShellInfo.nprimitive s)
                     then ECPShellInfo.nprimitive s else m)
             (max_nprimitive_ T) ss;
     shell_count := shell_count T + length ss;
     ao_count := ao_count T + sum_list_with ECPShellInfo.ncartesian ss;
     bf_count := bf_count T + sum_list_with ECPShellInfo.nfunction ss |}.

(** The descriptors of the atoms [ns] in the order of the visit, with and
    without the index of their atom. *)
Definition descriptors_of (basistype : string) (mol : Molecule.t)
    (shell_map : ShellMap) (ns : list nat) : list (nat * ECPShellInfo.t) :=
  ns ≫= λ n, (λ s, (n, s)) <$> shells_of_atom basistype mol shell_map n.

(** The descriptors that the third loop visits, each with the index of
    its atom. *)
Definition descriptors (basistype : string) (mol : Molecule.t) (shell_map : ShellMap)
    : list (nat * ECPShellInfo.t) :=
  descriptors_of basistype mol shell_map (seq 0 (Molecule.natom mol)).

Definition shells_of (basistype : string) (mol : Molecule.t)
    (shell_map : ShellMap) (ns : list nat) : list ECPShellInfo.t :=
  ns ≫= shells_of_atom basistype mol shell_map.

(** The number of shells of each of the atoms [ns]. *)
Definition nshells_of (basistype : string) (mol : Molecule.t)
    (shell_map : ShellMap) (ns : list nat) : list nat :=
  (λ n, length (shells_of_atom basistype mol shell_map n)) <$> ns.

(** The first index of the pool for atom [n]: [ustart]. *)
Definition ustart_of (basistype : string) (mol : Molecule.t) (pool : Pool) (n : nat) : nat :=
  let atom := Molecule.atom_entry mol n in
  Map2.at_ 0 (primitive_start pool) (Molecule.basisset atom basistype)
           (Molecule.label_ atom).

(** The storage shells built for the atoms [ns], from [bf_count = bf] on. *)
Fixpoint built_atoms (basistype : string) (mol : Molecule.t) (shell_map : ShellMap)
    (pool : Pool) (bf : nat) (ns : list nat) : list GaussianECPShell.t :=
  match ns with
  | [] => []
  | n :: ns' =>
      let ss := shells_of_atom basistype mol shell_map n in
      built_shells pool n (ustart_of basistype mol pool n) 0 bf ss
      ++ built_atoms basistype mol shell_map pool
           (bf + sum_list_with ECPShellInfo.nfunction ss) ns'
  end.

(** The coordinates of the atoms [ns], three per atom. *)
Definition coordinates (mol : Molecule.t) (ns : list nat) : list double :=
  ns ≫= λ n, [v3_x (Molecule.xyz mol n); v3_y (Molecule.xyz mol n);
              v3_z (Molecule.xyz mol n)].

(** The tables after the body of the atom loop for atom [n], when the
    primitive counts agree. *)
Definition atom_appended (basistype : string) (mol : Molecule.t)
    (shell_map : ShellMap) (pool : Pool) (n : nat) (T : Tables) : Tables :=
  let shells := shells_of_atom basistype mol shell_map n in
  store_xyz (Molecule.xyz mol n)
    (shells_appended pool n (ustart_of basistype mol pool n)
       (open_atom (length shells) T) 0 shells).

(** The tables after the atom loop has run over the atoms [ns] from the
    tables [T], when the primitive counts agree. *)
Definition run_appended (basistype : string) (mol : Molecule.t)
    (shell_map : ShellMap) (pool : Pool) (T : Tables) (ns : list nat) : Tables :=
  let ss := shells_of basistype mol shell_map ns in
  {| shells_ :=
       shells_ T
       ++ (GaussianECPShell.base <$> built_atoms basistype mol shell_map pool (bf_count T) ns);
     constructed_ :=
       constructed_ T ++ built_atoms basistype mol shell_map pool (bf_count T) ns;
     shell_first_ao_ :=
       shell_first_ao_ T ++ first_offsets ECPShellInfo.ncartesian (ao_count T) ss;
     shell_first_basis_function_ :=
       shell_first_basis_function_ T
       ++ first_offsets ECPShellInfo.nfunction (bf_count T) ss;
     ao_to_shell_ := ao_to_shell_ T ++ owners ECPShellInfo.ncartesian (shell_count T) ss;
     function_to_shell_ :=
       function_to_shell_ T ++ owners ECPShellInfo.nfunction (shell_count T) ss;
     function_center_ :=
       function_center_ T
       ++ centers ECPShellInfo.nfunction (descriptors_of basistype mol shell_map ns);
     shell_center_ := shell_center_ T ++ (descriptors_of basistype mol shell_map ns).*1;
     center_to_nshell_ := center_to_nshell_ T ++ nshells_of basistype mol shell_map ns;
     center_to_shell_ :=
       center_to_shell_ T
       ++ prefix_sums (shell_count T) (nshells_of basistype mol shell_map ns);
     xyz_ := xyz_ T ++ coordinates mol ns;
     puream_ := foldl (λ p s, if ECPShellInfo.is_pure s then true else p) (puream_ T) ss;
     max_am_ :=
       foldl (λ m s, if bool_decide (ECPShellInfo.am s < m)%Z then m else ECPShellInfo.am s)
             (max_am_ T) ss;
     max_nprimitive_ :=
       foldl (λ m s, if bool_decide (m < ECPShellInfo.nprimitive s)
                     then ECPShellInfo.nprimitive s else m)
             (max_nprimitive_ T) ss;
     shell_count := shell_count T + length ss;
     ao_count := ao_count T + sum_list_with ECPShellInfo.ncartesian ss;
     bf_count := bf_count T + sum_list_with ECPShellInfo.nfunction ss |}.

(** The pool holds the columns of [ss] from index [o] on, in all four
    arrays that the storage shells point into. *)
Definition holds_at (pool : Pool) (o : nat) (ss : list ECPShellInfo.t) : Prop :=
  o + total_primitives ss ≤ n_uprimitive_ pool
  ∧ (∃ A C, uoriginal_coefs pool = A ++ flat_column ECPShellInfo.original_coef ss ++ C
            ∧ length A = o)
  ∧ (∃ A C, uexps pool = A ++ flat_column ECPShellInfo.exp ss ++ C ∧ length A = o)
  ∧ (∃ A C, uns pool = A ++ flat_column ECPShellInfo.n ss ++ C ∧ length A = o)
  ∧ (∃ A C, usubls pool = A ++ flat_column ECPShellInfo.subl ss ++ C ∧ length A = o).

(** The last record of the structured input that carries [label]. *)
Definition last_record (label : string) (atoms : list PyAtom) : option PyAtom :=
  last (filter (λ a, py_label a = label) atoms).

End ECPLayout.

(** ** More sample inputs *)

Module MoreSamples.
Import Mat ROHF ROHFSamples ECPBasisSet ECPSamples.

(** One irrep, two basis functions, one doubly-occupied orbital and no
    singly-occupied one. *)
Definition closed_shell : State :=
  {| nirrep_ := 1; nsopi_ := [2]; nmopi_ := [2]; doccpi_ := [1]; soccpi_ := [0];
     H_ := H2; Ga_ := zero2; Gb_ := zero2; Fa_ := H2; Fb_ := H2;
     moFa_ := H2; moFb_ := H2; Feff_ := H2;
     Ca_ := C_first; Da_ := zero2; Db_ := zero2; Dt_ := zero2; Dt_old_ := zero2;
     E_ := 0%float; Eold_ := 0%float; Drms_ := 0%float;
     nuclearrep_ := 0%float;
     energy_threshold_ := 0x1p-20%float;
     density_threshold_ := 0x1p-20%float |}.

(** The shell map that construct_ecp_from_pydict builds for copper
    hydride, the molecule it leaves, and the two shell records of the
    copper atom with their descriptors. *)
Definition cu_shell_map : ShellMap :=
  basis_atom_shell
    (read_atoms (B := plain_base)
       (Molecule.set_basis_all_atoms CuH "LANL2DZ" "BASIS") cu_ecp).

Definition CuH_after : Molecule.t := CuH_result.1.

Definition cu_d_record : PyShell :=
  {| py_am := 2; py_primitives := [(0.5, 1, 1%Z); (0.25, 2, 2%Z)]%float |}.

Definition cu_s_record : PyShell :=
  {| py_am := 0; py_primitives := [(1, 3, 0%Z)]%float |}.

Definition cu_record : PyAtom :=
  {| py_label := "CU"; py_hash := "abc"; py_ncore := 10;
     py_shells := [cu_d_record; cu_s_record] |}.

Definition cu_s_shell : ECPShellInfo.t := shell_of_py (B := plain_base) cu_s_record.

(** The basis set that the constructor itself returns for that molecule
    and map, before construct_ecp_from_pydict renames it. *)
Definition cu_made : t :=
  match make "BASIS" CuH_after cu_shell_map with
  | Returned bs => bs
  | Thrown _ => make_empty
  end.

(** Copper, a carbon atom and a hydrogen, with one record for "CU"
    and one for "C": the map that the call builds for them, the molecule
    it leaves and the basis set of the constructor. *)
Definition CuCH : Molecule.t :=
  {| Molecule.atoms := [atom "CU" 29; atom "C" 6; atom "H" 1]; Molecule.calls := [] |}.

Definition c_record : PyAtom :=
  {| py_label := "C"; py_hash := "ghi"; py_ncore := 2;
     py_shells := [ {| py_am := 1;
                       py_primitives := [(3, 5, 1%Z); (4, 6, 1%Z)]%float |} ] |}.

Definition cuc_ecp : PyBasis :=
  {| py_key := "BASIS"; py_name := "LANL2DZ"; py_blend := "LANL2DZ";
     py_message := "";
     py_ecp_shell_map := [cu_record; c_record] |}.

Definition cuc_shell_map : ShellMap :=
  basis_atom_shell
    (read_atoms (B := plain_base)
       (Molecule.set_basis_all_atoms CuCH "LANL2DZ" "BASIS") cuc_ecp).

Definition cuc_made : t :=
  match make "BASIS" (construct_ecp_from_pydict (B := plain_base) CuCH cuc_ecp 0).1
             cuc_shell_map with
  | Returned bs => bs
  | Thrown _ => make_empty
  end.

(** An input with two records for the label "CU": the second one has a
    single shell and replaces 18 core electrons. *)
Definition cu_late_record : PyAtom :=
  {| py_label := "CU"; py_hash := "def"; py_ncore := 18;
     py_shells := [cu_s_record] |}.

Definition cu_twice : PyBasis :=
  {| py_key := "BASIS"; py_name := "LANL2DZ"; py_blend := "LANL2DZ";
     py_message := "";
     py_ecp_shell_map := [cu_record; cu_late_record] |}.

Definition CuH_twice_result : Molecule.t * Outcome t :=
  construct_ecp_from_pydict (B := plain_base) CuH cu_twice 0.

Definition cu_twice_basis : t :=
  match CuH_twice_result.2 with
  | Returned bs => bs
  | Thrown _ => make_empty
  end.

End MoreSamples.

(** * Facts about the loop and matrix primitives *)

Module IntFacts.



End IntFacts.

Module MatFacts.
Import Mat.




(** A [val += f m] loop is the left-to-right sum of the mapped terms. *)
Lemma for_loop_accumulate (f : nat → double) (lo hi : nat) (acc : double) :
  for_loop lo hi (λ m val, PrimFloat.add val (f m)) acc
  = dsum_from acc (map f (seq lo (hi - lo))).
Proof.
  unfold for_loop, dsum_from.
  generalize (seq lo (hi - lo)) as l. intros l. revert acc.
  induction l as [|x l IH]; intros acc; simpl; [done|]. apply IH.
Qed.

Lemma lookup_set_eq (M : Matrix) (h i j : nat) (v : double) :
  in_range M (h, i, j) → cell_at (set M h i j v) (h, i, j) = Some v.
Proof.
  unfold in_range, cell_at, set. intros [x Hx].
  rewrite list_lookup_alter_eq.
  destruct (M !! h) as [B|]; simpl in *; [|done].
  rewrite list_lookup_alter_eq.
  destruct (B !! i) as [row|]; simpl in *; [|done].
  apply list_lookup_insert_eq. by eapply lookup_lt_Some.
Qed.

Lemma lookup_set_ne (M : Matrix) (h i j : nat) (v : double) (c : Cell) :
  c ≠ (h, i, j) → cell_at (set M h i j v) c = cell_at M c.
Proof.
  destruct c as [[h' i'] j']. unfold cell_at, set. intros Hne.
  destruct (decide (h = h')) as [<-|Hh]; [|by rewrite list_lookup_alter_ne].
  rewrite list_lookup_alter_eq.
  destruct (M !! h) as [B|]; simpl; [|done].
  destruct (decide (i = i')) as [<-|Hi]; [|by rewrite list_lookup_alter_ne].
  rewrite list_lookup_alter_eq.
  destruct (B !! i) as [row|]; simpl; [|done].
  apply list_lookup_insert_ne. congruence.
Qed.


Lemma get_cell_at (M : Matrix) (h i j : nat) (v : double) :
  cell_at M (h, i, j) = Some v → get M h i j = v.
Proof. unfold get. by intros ->. Qed.

Lemma has_shape_in_range (M : Matrix) (dims : list nat) (h i j : nat) :
  has_shape M dims → i < dims !!! h → j < dims !!! h → in_range M (h, i, j).
Proof.
  intros Hs Hi Hj. unfold in_range, cell_at.
  destruct (dims !! h) as [d|] eqn:Hd.
  - rewrite (list_lookup_total_correct _ _ _ Hd) in Hi, Hj.
    destruct (Forall2_lookup_r _ _ _ _ _ Hs Hd) as (B & HB & Hlen & Hrows).
    rewrite HB. simpl.
    destruct (lookup_lt_is_Some_2 B i) as [row Hrow]; [lia|].
    rewrite Hrow. simpl.
    apply lookup_lt_is_Some_2.
    rewrite Forall_lookup in Hrows. rewrite (Hrows _ _ Hrow). lia.
  - rewrite list_lookup_total_alt, Hd in Hi. simpl in Hi. lia.
Qed.

(** *** Composition rules for [stores] *)

Lemma stores_in_range {S : Type} (proj : S → Matrix) (g : S → S) hit target s c :
  stores proj g hit target → in_range (proj s) c → in_range (proj (g s)) c.
Proof.
  intros Hg Hc. unfold in_range. rewrite (Hg s c Hc).
  destruct (hit c); [eauto | done].
Qed.

Lemma stores_set {S : Type} (proj : S → Matrix) (g : S → S)
    (h i j : nat) (v : double) (target : Cell → double) :
  (∀ s, proj (g s) = set (proj s) h i j v) →
  target (h, i, j) = v →
  stores proj g (λ c, bool_decide (c = (h, i, j))) target.
Proof.
  intros Hg Hv s c Hc. rewrite Hg.
  case_bool_decide as Heq.
  - subst c. rewrite Hv. by apply lookup_set_eq.
  - by apply lookup_set_ne.
Qed.


Lemma stores_seq {S : Type} (proj : S → Matrix) (g1 g2 : S → S)
    (hit1 hit2 : Cell → bool) (target : Cell → double) :
  stores proj g1 hit1 target → stores proj g2 hit2 target →
  stores proj (λ s, g2 (g1 s)) (λ c, hit1 c || hit2 c) target.
Proof.
  intros H1 H2 s c Hc.
  rewrite (H2 (g1 s) c) by (by eapply stores_in_range).
  rewrite (H1 s c Hc).
  by destruct (hit1 c), (hit2 c).
Qed.


Lemma stores_foldl {S X : Type} (proj : S → Matrix) (f : S → X → S)
    (hit : X → Cell → bool) (target : Cell → double) (l : list X) :
  (∀ x, x ∈ l → stores proj (λ s, f s x) (hit x) target) →
  stores proj (λ s, foldl f s l) (λ c, existsb (λ x, hit x c) l) target.
Proof.
  induction l as [|x l IH]; intros Hl.
  - by intros s c _.
  - simpl.
    apply (stores_seq proj (λ s, f s x) (λ s, foldl f s l)).
    + apply Hl. left.
    + apply IH. intros y Hy. apply Hl. by right.
Qed.

Lemma stores_for_loop {S : Type} (proj : S → Matrix) (body : nat → S → S)
    (hit : nat → Cell → bool) (target : Cell → double) (lo hi : nat) :
  (∀ x, lo ≤ x < hi → stores proj (body x) (hit x) target) →
  stores proj (for_loop lo hi body)
         (λ c, existsb (λ x, hit x c) (seq lo (hi - lo))) target.
Proof.
  intros Hb. unfold for_loop.
  apply (stores_foldl proj (λ acc i, body i acc)).
  intros x Hx%elem_of_seq. apply Hb. lia.
Qed.

(** Some index of the loop range selects the cell. *)
Lemma existsb_seq (p : nat → bool) (lo hi : nat) :
  existsb p (seq lo (hi - lo)) = true ↔ ∃ x, lo ≤ x < hi ∧ p x = true.
Proof.
  rewrite existsb_exists. split.
  - intros (x & Hx%in_seq & Hp). exists x. split; [lia | done].
  - intros (x & Hx & Hp). exists x. split; [apply in_seq; lia | done].
Qed.


End MatFacts.

(** * ROHF: density formation *)

Module ROHFDensity.
Import Mat MatFacts ROHF.

Lemma form_D_cell_fst (C : Matrix) (docc socc h i j : nat) (D : Matrix * Matrix) :
  (form_D_cell C docc socc h i j D).1
  = set D.1 h i j (dsum_from 0%float (map (orbital_term C h i j) (seq 0 docc))).
Proof.
  destruct D as [Db Da]. unfold form_D_cell. simpl.
  rewrite for_loop_accumulate. by rewrite Nat.sub_0_r.
Qed.

Lemma form_D_cell_snd (C : Matrix) (docc socc h i j : nat) (D : Matrix * Matrix) :
  (form_D_cell C docc socc h i j D).2
  = set D.2 h i j
      (dsum_from (dsum_from 0%float (map (orbital_term C h i j) (seq 0 docc)))
                 (map (orbital_term C h i j) (seq docc socc))).
Proof.
  destruct D as [Db Da]. unfold form_D_cell. simpl.
  rewrite !for_loop_accumulate. rewrite Nat.sub_0_r.
  by replace (docc + socc - docc) with socc by lia.
Qed.

Lemma visited_true (st : State) (h i j : nat) :
  h < nirrep_ st → i < nsopi_ st !!! h → j < nsopi_ st !!! h →
  visited st (h, i, j) = true.
Proof.
  intros Hh Hi Hj. unfold visited.
  apply existsb_seq. exists h. split; [lia|].
  apply existsb_seq. exists i. split; [lia|].
  apply existsb_seq. exists j. split; [lia|].
  by apply bool_decide_eq_true.
Qed.

Lemma form_D_loops_stores_beta (st : State) :
  stores fst
    (form_D_loops (nirrep_ st) (nsopi_ st) (doccpi_ st) (soccpi_ st) (Ca_ st))
    (visited st) (beta_value st).
Proof.
  unfold form_D_loops, visited.
  apply stores_for_loop. intros h _.
  apply stores_for_loop. intros i _.
  apply stores_for_loop. intros j _.
  apply stores_set with (v := beta_value st (h, i, j)); [|done].
  intros D. apply form_D_cell_fst.
Qed.

Lemma form_D_loops_stores_alpha (st : State) :
  stores snd
    (form_D_loops (nirrep_ st) (nsopi_ st) (doccpi_ st) (soccpi_ st) (Ca_ st))
    (visited st) (alpha_value st).
Proof.
  unfold form_D_loops, visited.
  apply stores_for_loop. intros h _.
  apply stores_for_loop. intros i _.
  apply stores_for_loop. intros j _.
  apply stores_set with (v := alpha_value st (h, i, j)); [|done].
  intros D. apply form_D_cell_snd.
Qed.

Lemma form_D_Db (st : State) :
  Db_ (form_D st)
  = (form_D_loops (nirrep_ st) (nsopi_ st) (doccpi_ st) (soccpi_ st) (Ca_ st)
                  (Db_ st, Da_ st)).1.
Proof. unfold form_D. by destruct (form_D_loops _ _ _ _ _ _). Qed.

Lemma form_D_Da (st : State) :
  Da_ (form_D st)
  = (form_D_loops (nirrep_ st) (nsopi_ st) (doccpi_ st) (soccpi_ st) (Ca_ st)
                  (Db_ st, Da_ st)).2.
Proof. unfold form_D. by destruct (form_D_loops _ _ _ _ _ _). Qed.

(** What form_D leaves in [Dt_]: the second [copy] replaces the first. *)
Lemma form_D_Dt (st : State) : Dt_ (form_D st) = Db_ (form_D st).
Proof. unfold form_D. by destruct (form_D_loops _ _ _ _ _ _). Qed.

(** C4. For every irrep block [h] and all indices [i], [j] of the block,
    form_D sets [Db[i,j]] to the sum over the doubly-occupied orbitals
    [m] in [0, docc_h) of [C[i,m]*C[j,m]], and [Da[i,j]] to [Db[i,j]] plus
    the sum over the singly-occupied orbitals [m] in
    [docc_h, docc_h+socc_h) of [C[i,m]*C[j,m]], [C] being the one shared
    coefficient matrix.  The sums are accumulated in the order of [m]. *)
Theorem form_D_alpha_beta_densities (st : State) (h i j : nat) :
  has_shape (Da_ st) (nsopi_ st) →
  has_shape (Db_ st) (nsopi_ st) →
  h < nirrep_ st → i < nsopi_ st !!! h → j < nsopi_ st !!! h →
  let C := Ca_ st in
  let docc := doccpi_ st !!! h in
  let socc := soccpi_ st !!! h in
  get (Db_ (form_D st)) h i j
  = dsum_from 0%float
      (map (λ m, PrimFloat.mul (get C h i m) (get C h j m)) (seq 0 docc))
  ∧ get (Da_ (form_D st)) h i j
    = dsum_from (get (Db_ (form_D st)) h i j)
        (map (λ m, PrimFloat.mul (get C h i m) (get C h j m)) (seq docc socc)).
Proof.
  intros HDa HDb Hh Hi Hj C docc socc. subst C docc socc.
  change (get (Db_ (form_D st)) h i j = dsum_from 0%float (docc_terms st h i j)
          ∧ get (Da_ (form_D st)) h i j
            = dsum_from (get (Db_ (form_D st)) h i j) (socc_terms st h i j)).
  assert (Hb : get (Db_ (form_D st)) h i j = beta_value st (h, i, j)).
  { apply get_cell_at. rewrite form_D_Db.
    rewrite (form_D_loops_stores_beta st (Db_ st, Da_ st) (h, i, j)).
    - by rewrite visited_true.
    - by apply (has_shape_in_range _ (nsopi_ st)). }
  split; [exact Hb|].
  rewrite Hb. apply get_cell_at. rewrite form_D_Da.
  rewrite (form_D_loops_stores_alpha st (Db_ st, Da_ st) (h, i, j)).
  - by rewrite visited_true.
  - by apply (has_shape_in_range _ (nsopi_ st)).
Qed.

End ROHFDensity.

(** * ROHF: the effective Fock matrix *)

Module ROHFFock.
Import Mat MatFacts ROHF.

Lemma cell_at_scale (M : Matrix) (a : double) (c : Cell) :
  cell_at (scale M a) c = PrimFloat.mul a <$> cell_at M c.
Proof.
  destruct c as [[h i] j]. unfold cell_at, scale.
  rewrite list_lookup_fmap. destruct (M !! h) as [B|]; simpl; [|done].
  rewrite list_lookup_fmap. destruct (B !! i) as [row|]; simpl; [|done].
  by rewrite list_lookup_fmap.
Qed.

Lemma cell_at_zip_cells (f : double → double → double) (A B : Matrix)
    (c : Cell) (x y : double) :
  cell_at A c = Some x → cell_at B c = Some y →
  cell_at (zip_cells f A B) c = Some (f x y).
Proof.
  destruct c as [[h i] j]. unfold cell_at, zip_cells. intros HA HB.
  rewrite lookup_zip_with.
  destruct (A !! h) as [BA|]; simpl in *; [|done].
  destruct (B !! h) as [BB|]; simpl in *; [|done].
  rewrite lookup_zip_with.
  destruct (BA !! i) as [ra|]; simpl in *; [|done].
  destruct (BB !! i) as [rb|]; simpl in *; [|done].
  rewrite lookup_zip_with. by rewrite HA, HB.
Qed.

Lemma in_range_get (M : Matrix) (h i j : nat) :
  in_range M (h, i, j) → cell_at M (h, i, j) = Some (get M h i j).
Proof. intros [x Hx]. unfold get. by rewrite Hx. Qed.

Lemma set_pair_stores (src : Matrix) (h i j : nat) (target : Cell → double) :
  target (h, i, j) = get src h i j →
  target (h, j, i) = get src h i j →
  stores id (set_pair src h i j) (pair_hit h i j) target.
Proof.
  intros H1 H2.
  apply (stores_seq id (λ F, set F h i j (get src h i j))
                       (λ F, set F h j i (get src h i j))).
  - by apply stores_set with (v := get src h i j).
  - by apply stores_set with (v := get src h i j).
Qed.

Lemma assemble_Feff_stores (st : State) (moFa moFb : Matrix) :
  stores id
    (assemble_Feff (nirrep_ st) (doccpi_ st) (soccpi_ st) (nmopi_ st) moFa moFb)
    (Feff_written (nirrep_ st) (doccpi_ st) (soccpi_ st) (nmopi_ st))
    (Feff_stored st moFa moFb).
Proof.
  unfold assemble_Feff, Feff_written.
  apply stores_for_loop. intros h _.
  apply stores_for_loop. intros i Hi.
  apply (stores_seq id
           (for_loop 0 (doccpi_ st !!! h) (set_pair moFb h i))
           (for_loop (doccpi_ st !!! h + soccpi_ st !!! h) (nmopi_ st !!! h)
                     (set_pair moFa h i))).
  - apply stores_for_loop. intros j Hj.
    apply set_pair_stores; unfold Feff_stored, is_open, is_closed, is_virtual;
      repeat case_bool_decide; simpl; try done; lia.
  - apply stores_for_loop. intros j Hj.
    apply set_pair_stores; unfold Feff_stored, is_open, is_closed, is_virtual;
      repeat case_bool_decide; simpl; try done; lia.
Qed.

Lemma pair_hit_true (h i j : nat) (c : Cell) :
  pair_hit h i j c = true ↔ c = (h, i, j) ∨ c = (h, j, i).
Proof.
  unfold pair_hit. rewrite orb_true_iff, !bool_decide_eq_true. done.
Qed.

(** The loop bounds of form_F select exactly the cells that couple an
    open orbital with a closed or a virtual one. *)
Lemma Feff_written_by_class (st : State) (h a b : nat) :
  h < nirrep_ st →
  Feff_written (nirrep_ st) (doccpi_ st) (soccpi_ st) (nmopi_ st) (h, a, b)
  = couples_open st h a b.
Proof.
  intros Hh. apply eq_true_iff_eq. unfold Feff_written. split.
  - intros (h' & _ & Hi)%existsb_seq.
    apply existsb_seq in Hi as (i & Hi & Hj).
    unfold couples_open, is_open, is_closed, is_virtual.
    apply orb_true_iff in Hj as [Hj|Hj];
      apply existsb_seq in Hj as (j & Hj & [Hc|Hc]%pair_hit_true);
      inversion Hc; subst;
      repeat case_bool_decide; simpl; try done; lia.
  - unfold couples_open, is_open, is_closed, is_virtual. intros Hc.
    apply existsb_seq. exists h. split; [lia|].
    repeat case_bool_decide; simpl in Hc; try done.
    all: first
      [ apply existsb_seq; exists a; split; [lia|];
        apply orb_true_iff;
        first [ left; apply existsb_seq; exists b; split; [lia|];
                apply pair_hit_true; by left
              | right; apply existsb_seq; exists b; split; [lia|];
                apply pair_hit_true; by left ]
      | apply existsb_seq; exists b; split; [lia|];
        apply orb_true_iff;
        first [ left; apply existsb_seq; exists a; split; [lia|];
                apply pair_hit_true; by right
              | right; apply existsb_seq; exists a; split; [lia|];
                apply pair_hit_true; by right ] ].
Qed.

Section WithProvider.
Context {MP : Provider}.

(** The closed-shell Fock entry [0.5 * (moFa + moFb)] that form_F
    starts from. *)
Lemma form_F_members (st : State) :
  moFa_ (form_F st) = transform (add (H_ st) (Ga_ st)) (Ca_ st)
  ∧ moFb_ (form_F st) = transform (add (H_ st) (Gb_ st)) (Ca_ st)
  ∧ Feff_ (form_F st)
    = assemble_Feff (nirrep_ st) (doccpi_ st) (soccpi_ st) (nmopi_ st)
        (moFa_ (form_F st)) (moFb_ (form_F st))
        (scale (add (moFa_ (form_F st)) (moFb_ (form_F st))) 0.5%float).
Proof. done. Qed.

Lemma form_F_cell (st : State) (h a b : nat) :
  has_shape (moFa_ (form_F st)) (nsopi_ st) →
  has_shape (moFb_ (form_F st)) (nsopi_ st) →
  h < nirrep_ st → a < nsopi_ st !!! h → b < nsopi_ st !!! h →
  get (Feff_ (form_F st)) h a b
  = if couples_open st h a b
    then Feff_stored st (moFa_ (form_F st)) (moFb_ (form_F st)) (h, a, b)
    else PrimFloat.mul 0.5%float
           (PrimFloat.add (get (moFa_ (form_F st)) h a b)
                          (get (moFb_ (form_F st)) h a b)).
Proof.
  intros Ha Hb Hh Hi Hj.
  destruct (form_F_members st) as (_ & _ & ->).
  set (moFa := moFa_ (form_F st)) in *. set (moFb := moFb_ (form_F st)) in *.
  assert (HRa : in_range moFa (h, a, b)) by by apply (has_shape_in_range _ (nsopi_ st)).
  assert (HRb : in_range moFb (h, a, b)) by by apply (has_shape_in_range _ (nsopi_ st)).
  assert (H0 : cell_at (scale (add moFa moFb) 0.5%float) (h, a, b)
               = Some (PrimFloat.mul 0.5%float
                         (PrimFloat.add (get moFa h a b) (get moFb h a b)))).
  { rewrite cell_at_scale. unfold add.
    by rewrite (cell_at_zip_cells _ _ _ _ _ _ (in_range_get _ _ _ _ HRa)
                                  (in_range_get _ _ _ _ HRb)). }
  apply get_cell_at.
  pose proof (assemble_Feff_stores st moFa moFb
                (scale (add moFa moFb) 0.5%float) (h, a, b)) as Hs.
  unfold id in Hs. rewrite Hs; [|unfold in_range; by rewrite H0].
  rewrite Feff_written_by_class by done.
  by destruct (couples_open st h a b).
Qed.

(** C2. For every irrep [h], the effective Fock matrix that form_F
    produces equals [0.5*(moFa+moFb)] at every entry, except that the
    entries (i,j) and (j,i) with [i] open and [j] closed equal the beta
    MO Fock entry [moFb[i,j]], and the entries (i,j) and (j,i) with [i]
    open and [j] virtual equal the alpha MO Fock entry [moFa[i,j]]. *)
Theorem form_F_effective_fock (st : State) (h a b : nat) :
  has_shape (moFa_ (form_F st)) (nsopi_ st) →
  has_shape (moFb_ (form_F st)) (nsopi_ st) →
  h < nirrep_ st → a < nsopi_ st !!! h → b < nsopi_ st !!! h →
  let st' := form_F st in
  (is_open st h a = true → is_closed st h b = true →
     get (Feff_ st') h a b = get (moFb_ st') h a b
     ∧ get (Feff_ st') h b a = get (moFb_ st') h a b)
  ∧ (is_open st h a = true → is_virtual st h b = true →
     get (Feff_ st') h a b = get (moFa_ st') h a b
     ∧ get (Feff_ st') h b a = get (moFa_ st') h a b)
  ∧ (couples_open st h a b = false →
     get (Feff_ st') h a b
     = PrimFloat.mul 0.5%float
         (PrimFloat.add (get (moFa_ st') h a b) (get (moFb_ st') h a b))).
Proof.
  intros HSa HSb Hh Ha Hb st'. subst st'.
  pose proof (form_F_cell st h a b HSa HSb Hh Ha Hb) as Hab.
  pose proof (form_F_cell st h b a HSa HSb Hh Hb Ha) as Hba.
  unfold couples_open, Feff_stored in *.
  split; [|split].
  - intros Ho Hc. rewrite Hab, Hba, Ho, Hc. simpl.
    split; [done|].
    unfold is_open, is_closed in *. repeat case_bool_decide; simpl; try done; lia.
  - intros Ho Hv. rewrite Hab, Hba, Ho, Hv. simpl.
    assert (is_closed st h b = false) as ->.
    { unfold is_closed, is_virtual in *. repeat case_bool_decide; try done; lia. }
    assert (is_open st h b = false) as ->.
    { unfold is_open, is_virtual in *. repeat case_bool_decide; try done; lia. }
    done.
  - intros Hn. by rewrite Hab, Hn.
Qed.

(** C5. The total energy computed by compute_E equals the nuclear
    repulsion energy plus [0.5*(Da·H + Db·H + Da·Fa + Db·Fb)], the dot
    product being the one of the matrix provider (the element-wise
    product summed over all elements of all irreps). *)
Theorem compute_E_closed_form (st : State) :
  compute_E st
  = PrimFloat.add (nuclearrep_ st)
      (PrimFloat.mul 0.5%float
         (PrimFloat.add
            (PrimFloat.add
               (PrimFloat.add (vector_dot (Da_ st) (H_ st))
                              (vector_dot (Db_ st) (H_ st)))
               (vector_dot (Da_ st) (Fa_ st)))
            (vector_dot (Db_ st) (Fb_ st)))).
Proof. reflexivity. Qed.

(** The result of the convergence test in terms of the members it
    reads. *)
Lemma test_convergency_true (st : State) :
  (test_convergency st).1 = true
  ↔ PrimFloat.ltb (PrimFloat.abs (PrimFloat.sub (E_ st) (Eold_ st)))
                  (energy_threshold_ st) = true
    ∧ PrimFloat.ltb (rms (subtract (Dt_ st) (Dt_old_ st)))
                    (density_threshold_ st) = true.
Proof.
  unfold test_convergency, copy. simpl.
  destruct (PrimFloat.ltb (PrimFloat.abs _) _), (PrimFloat.ltb (rms _) _);
    simpl; intuition congruence.
Qed.

End WithProvider.

End ROHFFock.

(** * ROHF: the methods on the sample states *)

Module ROHFSampleFacts.
Import Mat MatFacts ROHF ROHFSamples.

Ltac shape := vm_compute; repeat (constructor; try done).

Example form_F_three_class :
  Feff_ (form_F (MP := reference_provider) three_class)
  = [[[5; 8; 4]; [8; 5; 9]; [4; 9; 10]]]%float.
Proof. vm_compute. reflexivity. Qed.

Lemma form_F_effective_fock_witness :
  let st' := form_F (MP := reference_provider) three_class in
  (is_open three_class 0 1 = true → is_closed three_class 0 0 = true →
     get (Feff_ st') 0 1 0 = get (moFb_ st') 0 1 0
     ∧ get (Feff_ st') 0 0 1 = get (moFb_ st') 0 1 0)
  ∧ (is_open three_class 0 1 = true → is_virtual three_class 0 0 = true →
     get (Feff_ st') 0 1 0 = get (moFa_ st') 0 1 0
     ∧ get (Feff_ st') 0 0 1 = get (moFa_ st') 0 1 0)
  ∧ (couples_open three_class 0 1 0 = false →
     get (Feff_ st') 0 1 0
     = PrimFloat.mul 0.5%float
         (PrimFloat.add (get (moFa_ st') 0 1 0) (get (moFb_ st') 0 1 0))).
Proof.
  apply (ROHFFock.form_F_effective_fock (MP := reference_provider) three_class 0 1 0).
  - shape.
  - shape.
  - vm_compute; lia.
  - vm_compute; lia.
  - vm_compute; lia.
Defined.

(** With the closed orbital (2, 5, 0) and the open orbital (3, 7, 0),
    cell (0, 1) of the beta density is 2 * 5 and that of the alpha
    density is 2 * 5 + 3 * 7. *)
Lemma form_D_alpha_beta_densities_witness :
  let C := Ca_ mixed_orbitals in
  let docc := doccpi_ mixed_orbitals !!! 0 in
  let socc := soccpi_ mixed_orbitals !!! 0 in
  get (Db_ (form_D mixed_orbitals)) 0 0 1
  = dsum_from 0%float
      (map (λ m, PrimFloat.mul (get C 0 0 m) (get C 0 1 m)) (seq 0 docc))
  ∧ get (Da_ (form_D mixed_orbitals)) 0 0 1
    = dsum_from (get (Db_ (form_D mixed_orbitals)) 0 0 1)
        (map (λ m, PrimFloat.mul (get C 0 0 m) (get C 0 1 m)) (seq docc socc)).
Proof.
  apply (ROHFDensity.form_D_alpha_beta_densities mixed_orbitals 0 0 1).
  - shape.
  - shape.
  - vm_compute; lia.
  - vm_compute; lia.
  - vm_compute; lia.
Defined.

Example form_D_mixed_orbitals :
  Db_ (form_D mixed_orbitals) = [[[4; 10; 0]; [10; 25; 0]; [0; 0; 0]]]%float
  ∧ Da_ (form_D mixed_orbitals) = [[[13; 31; 0]; [31; 74; 0]; [0; 0; 0]]]%float.
Proof. vm_compute. done. Qed.

Example form_D_three_class :
  Db_ (form_D three_class) = [[[1; 0; 0]; [0; 0; 0]; [0; 0; 0]]]%float
  ∧ Da_ (form_D three_class) = [[[1; 0; 0]; [0; 1; 0]; [0; 0; 0]]]%float.
Proof. vm_compute. done. Qed.

(** The energy of a hand-made 2x2 case: Da = diag(1,0), Db = 0,
    H = Fa = Fb = -1 on the diagonal, no nuclear repulsion. *)
Example compute_E_doublet :
  compute_E (MP := reference_provider) (form_D doublet) = (-1)%float.
Proof. vm_compute. reflexivity. Qed.

(** C1 (fails on the code). After form_D on the one-electron doublet the
    alpha density has the entry 1 at (0,0) and the beta density 0, so
    their sum is 1, while the total density [Dt_] holds 0: form_D leaves
    the beta density in [Dt_], not the sum. *)
Theorem form_D_total_density_is_not_the_sum :
  let st' := form_D doublet in
  get (Da_ st') 0 0 0 = 1%float
  ∧ get (Db_ st') 0 0 0 = 0%float
  ∧ PrimFloat.add (get (Da_ st') 0 0 0) (get (Db_ st') 0 0 0) = 1%float
  ∧ get (Dt_ st') 0 0 0 = 0%float
  ∧ Dt_ st' = Db_ st'.
Proof. vm_compute. done. Qed.

(** C3 (fails on the code). Between two passes the open-shell orbital of
    the doublet swaps from the first to the second basis function.  The
    energy is unchanged and the alpha+beta density changes by an RMS of
    about 0.707, far above the density threshold 2^-20, yet the test
    reports convergence: the density it compares is [Dt_], in which
    form_D has left the beta density alone. *)
Theorem test_convergency_misses_alpha_change :
  let st := doublet_after_first_pass in
  let '(converged, st') := finish_iteration (MP := reference_provider) st C_swapped in
  converged = true
  ∧ PrimFloat.ltb (PrimFloat.abs (PrimFloat.sub (E_ st') (Eold_ st')))
                  (energy_threshold_ st') = true
  ∧ PrimFloat.ltb
      (rms_norm (subtract (add (Da_ st') (Db_ st')) (add (Da_ st) (Db_ st))))
      (density_threshold_ st') = false
  ∧ Drms_ st' = 0%float.
Proof. vm_compute. done. Qed.

End ROHFSampleFacts.

(** * ECP shells: comparison and evaluation *)

Module ECPShellFacts.
Import ECPSamples.

Section WithBase.
Context {B : ECPShellInfo.Base}.

(** C8 (fails on the code). [operator==] compares [original_coef_] of
    the left operand with [erd_coef_] of the right operand.  So a
    descriptor that the constructor builds, and whose fields all equal
    themselves, compares equal to itself exactly when the coefficients
    given to the constructor equal, element by element, the ERD
    coefficients that the base-class constructor derives from them: a
    descriptor whose ERD coefficients differ from its original ones is
    not equal to itself. *)
Theorem operator_eq_compares_unlike_fields (am : Z) (c e : list double)
    (n sub_l : list Z) (nc : nat) (center : Vector3) (start : nat) :
  let d := ECPShellInfo.make am c e n sub_l nc center start in
  ECPShellInfo.fieldwise_equal d d = true →
  ECPShellInfo.operator_eq d d
  = vector_eq PrimFloat.eqb c (ECPShellInfo.base_erd_coef am c e).
Proof.
  intros d. unfold ECPShellInfo.fieldwise_equal, ECPShellInfo.operator_eq.
  subst d. cbn [ECPShellInfo.make ECPShellInfo.l_ ECPShellInfo.puream_
                ECPShellInfo.exp_ ECPShellInfo.coef_ ECPShellInfo.erd_coef_
                ECPShellInfo.original_coef_ ECPShellInfo.n_ ECPShellInfo.sub_l_
                ECPShellInfo.nc_ ECPShellInfo.center_ ECPShellInfo.start_
                ECPShellInfo.ncartesian_ ECPShellInfo.nfunction_].
  intros H.
  repeat (apply andb_prop in H as [H ?]).
  repeat match goal with
         | H : _ = true |- _ => rewrite H
         end.
  by rewrite !andb_true_r.
Qed.

End WithBase.

(** The descriptor of one primitive under a base-class constructor that
    rescales the coefficients: it does not equal itself, although each
    of its fields does; and it equals the descriptor built from the
    rescaled coefficient, although the coefficients of the two differ. *)
Lemma operator_eq_compares_unlike_fields_witness :
  ECPShellInfo.operator_eq built_descriptor built_descriptor
  = vector_eq PrimFloat.eqb [1%float]
      (ECPShellInfo.base_erd_coef (Base := rescaling_base) 1 [1%float] [0.5%float]).
Proof.
  apply (operator_eq_compares_unlike_fields (B := rescaling_base)
           1 [1%float] [0.5%float] [2%Z] [1%Z] 0 origin 0).
  vm_compute. reflexivity.
Defined.

Example operator_eq_on_built_descriptors :
  ECPShellInfo.fieldwise_equal built_descriptor built_descriptor = true
  ∧ ECPShellInfo.operator_eq built_descriptor built_descriptor = false
  ∧ ECPShellInfo.fieldwise_equal rescaled_descriptor built_descriptor = false
  ∧ ECPShellInfo.operator_eq rescaled_descriptor built_descriptor = true.
Proof. vm_compute. done. Qed.

Example operator_eq_on_descriptors :
  ECPShellInfo.fieldwise_equal descriptor descriptor = true
  ∧ ECPShellInfo.operator_eq descriptor descriptor = false
  ∧ ECPShellInfo.fieldwise_equal descriptor other_descriptor = false
  ∧ ECPShellInfo.operator_eq descriptor other_descriptor = true.
Proof. vm_compute. done. Qed.

Section WithLibm.
Context {LM : Libm.Functions}.

Lemma primitive_Some (s : GaussianECPShell.t) (i : nat) (p : Z * Z * double * double) :
  GaussianECPShell.primitive s i = Some p →
  ptr_read (GaussianECPShell.sub_l_ s) i = Some p.1.1.1
  ∧ ptr_read (GaussianECPShell.n_ s) i = Some p.1.1.2
  ∧ ptr_read (GaussianECPShell.original_coef_ s) i = Some p.1.2
  ∧ ptr_read (GaussianECPShell.exp_ s) i = Some p.2.
Proof.
  unfold GaussianECPShell.primitive. intros H.
  destruct (ptr_read (GaussianECPShell.sub_l_ s) i); simpl in H; [|done].
  destruct (ptr_read (GaussianECPShell.n_ s) i); simpl in H; [|done].
  destruct (ptr_read (GaussianECPShell.original_coef_ s) i); simpl in H; [|done].
  destruct (ptr_read (GaussianECPShell.exp_ s) i); simpl in H; [|done].
  by inversion H.
Qed.

(** The loop of evaluate over any run of indices whose primitives can
    all be read: it adds, for each primitive labelled [l] in turn, the
    term that reads the exponent array. *)
Lemma evaluate_loop (s : GaussianECPShell.t) (r : double) (l : Z)
    (indices : list nat) (ps : list (Z * Z * double * double)) (acc : option double) :
  mapM (GaussianECPShell.primitive s) indices = Some ps →
  foldl (λ value i, GaussianECPShell.evaluate_step s r (PrimFloat.mul r r) l i value)
        acc indices
  = foldl (λ value p, value ≫= λ v,
                      GaussianECPShell.stored_term s r p ≫= λ t,
                      Some (PrimFloat.add v t))
          acc (GaussianECPShell.labelled l ps).
Proof.
  revert ps acc. induction indices as [|i indices IH]; intros ps acc Hps.
  - by inversion Hps.
  - apply mapM_Some in Hps. inversion Hps as [|? p ? ps' Hp Hrest]; subst.
    apply mapM_Some in Hrest.
    destruct (primitive_Some s i p Hp) as (Hsl & Hn & Hc & He).
    destruct p as [[[sl n] c] e]. simpl in Hsl, Hn, Hc, He.
    cbn [foldl]. unfold GaussianECPShell.labelled.
    destruct (Z.eqb_spec sl l) as [->|Hne].
    + rewrite filter_cons_True by done. cbn [foldl].
      rewrite <-(IH ps' _ Hrest). f_equal.
      unfold GaussianECPShell.evaluate_step, GaussianECPShell.stored_term.
      destruct acc as [v|]; [|done]. simpl.
      rewrite Hsl. simpl. rewrite Z.eqb_refl, Hn, Hc, He. simpl.
      destruct (to_int _) as [prim|]; [|done]. simpl.
      by destruct (GaussianShell.exp _ _).
    + rewrite filter_cons_False by done.
      rewrite <-(IH ps' _ Hrest). f_equal.
      unfold GaussianECPShell.evaluate_step.
      destruct acc as [v|]; [|done]. simpl. rewrite Hsl. simpl.
      by destruct (Z.eqb_spec sl l).
Qed.

(** What evaluate returns when its primitives can be read. *)
Lemma evaluate_stored_terms (s : GaussianECPShell.t) (r : double) (l : Z)
    (ps : list (Z * Z * double * double)) :
  GaussianECPShell.primitives s = Some ps →
  GaussianECPShell.evaluate s r l
  = foldl (λ value p, value ≫= λ v,
                      GaussianECPShell.stored_term s r p ≫= λ t,
                      Some (PrimFloat.add v t))
          (Some 0%float) (GaussianECPShell.labelled l ps).
Proof.
  intros Hps. unfold GaussianECPShell.evaluate, for_loop.
  rewrite Nat.sub_0_r. by apply evaluate_loop.
Qed.

(** When every sub-label that the loop reads differs from [l], the
    loop adds nothing. *)
Lemma evaluate_other_label (s : GaussianECPShell.t) (r : double) (l : Z) :
  (∀ i, i < GaussianECPShell.nprimitive_ s →
        ∃ sl, ptr_read (GaussianECPShell.sub_l_ s) i = Some sl ∧ sl ≠ l) →
  GaussianECPShell.evaluate s r l = Some 0%float.
Proof.
  intros Hall. unfold GaussianECPShell.evaluate, for_loop.
  rewrite Nat.sub_0_r.
  assert (Hin : ∀ i, i ∈ seq 0 (GaussianECPShell.nprimitive_ s) →
            ∃ sl, ptr_read (GaussianECPShell.sub_l_ s) i = Some sl ∧ sl ≠ l).
  { intros i Hi%elem_of_seq. apply Hall. lia. }
  revert Hin. generalize (seq 0 (GaussianECPShell.nprimitive_ s)) as indices.
  induction indices as [|i indices IH]; intros Hin; [done|].
  simpl. destruct (Hin i) as (sl & Hsl & Hne); [left|].
  rewrite Hsl. simpl.
  destruct (Z.eqb_spec sl l); [done|].
  apply IH. intros j Hj. apply Hin. by right.
Qed.

End WithLibm.

(** C9 (fails on the code). The shell [mixed_shell] holds three
    primitives with the sub-labels 0, 1, 0, the coefficients 2, 3, 4
    and the exponent 0.  At [r = 1] and [l = 0] the specified sum
    [r^n * coef * exp(-exponent * r^2)] over the primitives labelled 0
    is 2 + 4 = 6.  The code returns 0: inside the class the name [exp]
    is the accessor of the exponent array, so each term is multiplied
    by [exp_[(int)(-0 * 1)] = exp_[0] = 0] and not by the exponential
    of 0. *)
Theorem evaluate_reads_the_exponent_array :
  GaussianECPShell.primitives mixed_shell
  = Some [(0%Z, 0%Z, 2%float, 0%float); (1%Z, 2%Z, 3%float, 0%float);
          (0%Z, 1%Z, 4%float, 0%float)]
  ∧ GaussianECPShell.specified_value (LM := Libm.sample) 1%float 0
      [(0%Z, 0%Z, 2%float, 0%float); (1%Z, 2%Z, 3%float, 0%float);
       (0%Z, 1%Z, 4%float, 0%float)]
    = 6%float
  ∧ GaussianECPShell.evaluate (LM := Libm.sample) mixed_shell 1%float 0
    = Some 0%float.
Proof. vm_compute. done. Qed.

(** With the exponents 0.5, 0.25 and 0.75 every converted index is 0
    at [r = 1], and every term is multiplied by the first exponent. *)
Example evaluate_half_shell :
  GaussianECPShell.evaluate (LM := Libm.sample) half_shell 1%float 0 = Some 3%float
  ∧ GaussianECPShell.evaluate (LM := Libm.sample) half_shell 1%float 1 = Some 1.5%float
  ∧ GaussianECPShell.evaluate (LM := Libm.sample) half_shell 1%float 2 = Some 0%float
  ∧ PrimFloat.ltb 3%float
      (GaussianECPShell.specified_value (LM := Libm.sample) 1%float 0
         [(0%Z, 0%Z, 2%float, 0.5%float); (1%Z, 2%Z, 3%float, 0.25%float);
          (0%Z, 1%Z, 4%float, 0.75%float)]) = true.
Proof. vm_compute. done. Qed.

End ECPShellFacts.

(** * ECP basis assembly: the primitive-count check *)

Module ECPAssemblyFacts.
Import ECPBasisSet ECPSamples.

(** [atom_nprim] after the shells of an atom. *)
Lemma assemble_shells_count (pool : Pool) (n ustart : nat)
    (shells : list ECPShellInfo.t) (T : Tables) (k : nat) :
  (foldl (assemble_shell pool n ustart) (T, k) shells).2
  = k + sum_list (ECPShellInfo.nprimitive <$> shells).
Proof.
  revert T k. induction shells as [|s shells IH]; intros T k; simpl; [lia|].
  rewrite IH. unfold fmap. lia.
Qed.

(** The body of the atom loop throws exactly on a count mismatch. *)
Lemma assemble_atom_outcome (basistype : string) (mol : Molecule.t)
    (shell_map : ShellMap) (pool : Pool) (n : nat) (T : Tables) :
  (Z.of_nat (consumed basistype mol shell_map n)
     ≠ range_size basistype mol (primitive_start pool) (primitive_end pool) n →
   assemble_atom basistype mol shell_map pool n T = Thrown nprimitive_problem)
  ∧ (Z.of_nat (consumed basistype mol shell_map n)
     = range_size basistype mol (primitive_start pool) (primitive_end pool) n →
     ∃ T', assemble_atom basistype mol shell_map pool n T = Returned T').
Proof.
  unfold assemble_atom, consumed, range_size, shells_of_atom.
  set (shells := Map2.at_ [] shell_map _ _).
  set (ustart := Map2.at_ 0 (primitive_start pool) _ _).
  set (uend := Map2.at_ 0 (primitive_end pool) _ _).
  pose proof (assemble_shells_count pool n ustart shells
                (open_atom (length shells) T) 0) as Hk.
  destruct (foldl _ _ shells) as [T1 atom_nprim]. simpl in Hk. subst atom_nprim.
  split; intros H; case_bool_decide; eauto; done.
Qed.

(** The atom loop over any run of atoms. *)
Lemma assemble_run (basistype : string) (mol : Molecule.t)
    (shell_map : ShellMap) (pool : Pool) (atoms : list nat) (acc : Outcome Tables) :
  let step := λ (acc : Outcome Tables) (n : nat),
    match acc with
    | Returned T => assemble_atom basistype mol shell_map pool n T
    | Thrown what => Thrown what
    end in
  let mismatch := λ n,
    Z.of_nat (consumed basistype mol shell_map n)
    ≠ range_size basistype mol (primitive_start pool) (primitive_end pool) n in
  (∀ what, acc = Thrown what → foldl step acc atoms = Thrown what)
  ∧ (∀ T, acc = Returned T → (∃ n, n ∈ atoms ∧ mismatch n) →
       foldl step acc atoms = Thrown nprimitive_problem)
  ∧ (∀ T, acc = Returned T → (∀ n, n ∈ atoms → ¬ mismatch n) →
       ∃ T', foldl step acc atoms = Returned T').
Proof.
  intros step mismatch. revert acc.
  induction atoms as [|a atoms IH]; intros acc.
  { split; [|split].
    - by intros what ->.
    - intros T _ (n & Hn & _). by apply elem_of_nil in Hn.
    - intros T -> _. by exists T. }
  destruct (IH (step acc a)) as (IHt & IHm & IHr).
  split; [|split].
  - intros what ->. simpl. apply (proj1 (IH (Thrown what))). done.
  - intros T -> (n & Hn & Hmis). simpl.
    destruct (assemble_atom_outcome basistype mol shell_map pool a T) as [Hthrow Hret].
    destruct (decide (mismatch a)) as [Ha|Ha].
    + rewrite (Hthrow Ha). by apply (proj1 (IH (Thrown nprimitive_problem))).
    + destruct Hret as [T' HT']; [unfold mismatch in Ha; lia|].
      apply (IHm T'); [exact HT'|].
      exists n. split; [|done].
      apply elem_of_cons in Hn as [->|Hn]; done.
  - intros T -> Hall. simpl.
    destruct (assemble_atom_outcome basistype mol shell_map pool a T) as [_ Hret].
    destruct Hret as [T' HT'].
    { specialize (Hall a (list_elem_of_here _ _)). unfold mismatch in Hall. lia. }
    apply (IHr T'); [exact HT'|].
    intros n Hn. apply Hall. by right.
Qed.

(** C6. During the assembly loop of the constructor, if for some atom
    the number of primitives consumed while building its shells differs
    from the size [end − start] of the precomputed range of its
    (basis, label) key, the construction ends with the exception
    "Problem with nprimitive in basis set construction!" and yields no
    tables; if the counts agree for every atom, the loop returns its
    tables and raises nothing.  The ranges are those of any [pool]; an
    exception of the loop is the outcome of the constructor, which then
    returns no basis set. *)
Theorem assembly_checks_primitive_counts (basistype : string)
    (mol : Molecule.t) (shell_map : ShellMap) (pool : Pool) :
  let mismatch := λ n,
    Z.of_nat (consumed basistype mol shell_map n)
    ≠ range_size basistype mol (primitive_start pool) (primitive_end pool) n in
  ((∃ n, n < Molecule.natom mol ∧ mismatch n) →
     assemble_atoms basistype mol shell_map pool = Thrown nprimitive_problem)
  ∧ ((∀ n, n < Molecule.natom mol → ¬ mismatch n) →
     ∃ T, assemble_atoms basistype mol shell_map pool = Returned T)
  ∧ (∀ what,
       assemble_atoms basistype mol shell_map (unique_primitives shell_map)
       = Thrown what →
       make basistype mol shell_map = Thrown what).
Proof.
  intros mismatch.
  split_and!; [| |intros what Hthrown; unfold make; by rewrite Hthrown].
  all: unfold assemble_atoms, for_loop; rewrite Nat.sub_0_r.
  all: destruct (assemble_run basistype mol shell_map pool
                   (seq 0 (Molecule.natom mol)) (Returned empty_tables))
         as (_ & Hm & Hr).
  - intros (n & Hn & Hmis). apply (Hm empty_tables); [done|].
    exists n. split; [apply elem_of_seq; lia | done].
  - intros Hall. apply (Hr empty_tables); [done|].
    intros n Hn%elem_of_seq. apply Hall. lia.
Qed.

(** The copper ECP against ranges that are one primitive short: the
    loop throws; against the ranges of the constructor it returns. *)
Example assembly_throws_on_short_range :
  assemble_atoms "BASIS"
    (Molecule.set_basis_all_atoms CuH "LANL2DZ" "BASIS")
    (basis_atom_shell (read_atoms (B := plain_base) CuH cu_ecp))
    short_pool
  = Thrown nprimitive_problem.
Proof. vm_compute. reflexivity. Qed.

End ECPAssemblyFacts.

(** * ECP basis assembly: the layout of the unique primitives *)

Module Map2Facts.

Lemma find_assign {V : Type} (b l : string) (v : V)
    (m : gmap string (gmap string V)) (b' l' : string) :
  Map2.find (Map2.assign b l v m) b' l'
  = if decide (b = b' ∧ l = l') then Some v else Map2.find m b' l'.
Proof.
  unfold Map2.find, Map2.assign.
  destruct (decide (b = b')) as [<-|Hb].
  - rewrite lookup_insert_eq. simpl.
    destruct (decide (l = l')) as [<-|Hl].
    + rewrite lookup_insert_eq. by rewrite decide_True.
    + rewrite lookup_insert_ne by done. rewrite decide_False by (by intros [? ?]).
      destruct (m !! b); simpl; [done|]. apply lookup_empty.
  - rewrite lookup_insert_ne by done. by rewrite decide_False by (by intros [? ?]).
Qed.

Lemma in_key_order_Permutation {A : Type} (m : gmap string A) :
  Map2.in_key_order m ≡ₚ map_to_list m.
Proof. apply merge_sort_Permutation. Qed.

Lemma elem_of_in_key_order {A : Type} (m : gmap string A) (k : string) (v : A) :
  (k, v) ∈ Map2.in_key_order m ↔ m !! k = Some v.
Proof. rewrite in_key_order_Permutation. apply elem_of_map_to_list. Qed.

Lemma NoDup_in_key_order {A : Type} (m : gmap string A) :
  NoDup (Map2.in_key_order m).
Proof. rewrite in_key_order_Permutation. apply NoDup_map_to_list. Qed.

Lemma elem_of_entries {V : Type} (m : gmap string (gmap string V))
    (b l : string) (v : V) :
  (b, l, v) ∈ Map2.entries m ↔ Map2.find m b l = Some v.
Proof.
  unfold Map2.entries, Map2.find. rewrite list_elem_of_bind. split.
  - intros ([b0 inner] & Hin & Hm).
    apply list_elem_of_fmap in Hin as ([l0 v0] & Heq & Hl0).
    inversion Heq; subst.
    apply elem_of_in_key_order in Hm. apply elem_of_in_key_order in Hl0.
    by rewrite Hm.
  - intros H. destruct (m !! b) as [inner|] eqn:Hm; simpl in H; [|done].
    exists (b, inner). split.
    + apply list_elem_of_fmap. exists (l, v). split; [done|].
      by apply elem_of_in_key_order.
    + by apply elem_of_in_key_order.
Qed.

Lemma NoDup_entries {V : Type} (m : gmap string (gmap string V)) :
  NoDup (Map2.entries m).
Proof.
  unfold Map2.entries. apply NoDup_bind.
  - intros [b1 in1] [b2 in2] [[b l] v] H1 H2 Hy1 Hy2.
    apply list_elem_of_fmap in Hy1 as ([l1 v1] & Heq1 & _).
    apply list_elem_of_fmap in Hy2 as ([l2 v2] & Heq2 & _).
    inversion Heq1; inversion Heq2; subst.
    apply elem_of_in_key_order in H1. apply elem_of_in_key_order in H2.
    congruence.
  - intros [b inner] _. apply NoDup_fmap_2_strong; [|apply NoDup_in_key_order].
    intros [l1 v1] [l2 v2] _ _ Heq. by inversion Heq.
  - apply NoDup_in_key_order.
Qed.

Lemma NoDup_entries_keys {V : Type} (m : gmap string (gmap string V)) :
  NoDup (Map2.entries m).*1.
Proof.
  apply NoDup_fmap_fst; [|apply NoDup_entries].
  intros [b l] v1 v2 H1%elem_of_entries H2%elem_of_entries. congruence.
Qed.

End Map2Facts.

Module ECPPoolFacts.
Import ECPBasisSet Map2Facts.

Lemma length_flat_subls (shells : list ECPShellInfo.t) :
  length (flat_subls shells) = sum_list (ECPShellInfo.nprimitive <$> shells).
Proof.
  unfold flat_subls. induction shells as [|s shells IH]; [done|].
  rewrite bind_cons, length_app, IH, length_fmap, length_seq. done.
Qed.

(** The loop over the primitives of one shell. *)
Lemma push_primitives (shell : ECPShellInfo.t) (prims : list nat) (p : Pool) :
  let p' := foldl (λ acc prim, push_primitive shell prim acc) p prims in
  usubls p' = usubls p ++ (ECPShellInfo.subl shell <$> prims)
  ∧ n_uprimitive_ p' = n_uprimitive_ p + length prims
  ∧ primitive_start p' = primitive_start p
  ∧ primitive_end p' = primitive_end p.
Proof.
  revert p. induction prims as [|prim prims IH]; intros p; simpl.
  - by rewrite app_nil_r, Nat.add_0_r.
  - destruct (IH (push_primitive shell prim p)) as (-> & -> & -> & ->). simpl.
    rewrite <-app_assoc. split_and!; first [done | lia].
Qed.

Lemma push_shells (shells : list ECPShellInfo.t) (p : Pool) :
  let p' := foldl push_shell p shells in
  usubls p' = usubls p ++ flat_subls shells
  ∧ n_uprimitive_ p' = n_uprimitive_ p + length (flat_subls shells)
  ∧ primitive_start p' = primitive_start p
  ∧ primitive_end p' = primitive_end p.
Proof.
  revert p. induction shells as [|s shells IH]; intros p; simpl.
  - unfold flat_subls. simpl. by rewrite app_nil_r, Nat.add_0_r.
  - destruct (IH (push_shell p s)) as (-> & -> & -> & ->).
    unfold push_shell, for_loop. rewrite Nat.sub_0_r.
    destruct (push_primitives s (seq 0 (ECPShellInfo.nprimitive s)) p)
      as (-> & -> & -> & ->).
    rewrite length_app, length_fmap, <-app_assoc.
    split_and!; first [done | lia].
Qed.

Lemma push_entry_layout (p : Pool) (b l : string) (shells : list ECPShellInfo.t) :
  let p' := push_entry p (b, l, shells) in
  usubls p' = usubls p ++ flat_subls shells
  ∧ n_uprimitive_ p' = n_uprimitive_ p + length (flat_subls shells)
  ∧ primitive_start p' = Map2.assign b l (n_uprimitive_ p) (primitive_start p)
  ∧ primitive_end p'
    = Map2.assign b l (n_uprimitive_ p + length (flat_subls shells)) (primitive_end p).
Proof.
  unfold push_entry.
  destruct (push_shells shells (mark_start b l p)) as (Hu & Hn & Hs & He).
  simpl in *. rewrite Hu, Hn, Hs, He. done.
Qed.

(** The first loop nest over any run of entries with distinct keys:
    the sub-labels of each entry lie in the pool between the start and
    the end recorded for its key. *)
Lemma push_entries_layout (es : list (string * string * list ECPShellInfo.t))
    (p : Pool) :
  NoDup es.*1 →
  length (usubls p) = n_uprimitive_ p →
  let p' := foldl push_entry p es in
  length (usubls p') = n_uprimitive_ p'
  ∧ (∃ D, usubls p' = usubls p ++ D)
  ∧ (∀ b l shells, (b, l, shells) ∈ es →
       ∃ A C, usubls p' = A ++ flat_subls shells ++ C
              ∧ Map2.find (primitive_start p') b l = Some (length A)
              ∧ Map2.find (primitive_end p') b l
                = Some (length A + length (flat_subls shells)))
  ∧ (∀ b l, (b, l) ∉ es.*1 →
       Map2.find (primitive_start p') b l = Map2.find (primitive_start p) b l
       ∧ Map2.find (primitive_end p') b l = Map2.find (primitive_end p) b l).
Proof.
  revert p. induction es as [|[[b0 l0] shells0] es IH]; intros p Hnd Hlen.
  { simpl. split_and!; try done.
    - exists []. by rewrite app_nil_r.
    - intros b l shells Hin. by apply elem_of_nil in Hin. }
  rewrite fmap_cons in Hnd. apply NoDup_cons in Hnd as [Hfresh Hnd]. simpl in Hfresh.
  destruct (push_entry_layout p b0 l0 shells0) as (Hu & Hn & Hs & He).
  destruct (IH (push_entry p (b0, l0, shells0)) Hnd) as (IHlen & [D HD] & IHin & IHout).
  { rewrite Hu, Hn, length_app. lia. }
  change (foldl push_entry p ((b0, l0, shells0) :: es))
    with (foldl push_entry (push_entry p (b0, l0, shells0)) es).
  set (p1 := push_entry p (b0, l0, shells0)) in *.
  set (p' := foldl push_entry p1 es) in *.
  split_and!.
  - exact IHlen.
  - exists (flat_subls shells0 ++ D). rewrite HD, Hu. by rewrite <-app_assoc.
  - intros b l shells Hin. apply elem_of_cons in Hin as [Heq|Hin].
    + inversion Heq; subst. exists (usubls p), D.
      destruct (IHout b0 l0 Hfresh) as [-> ->].
      rewrite HD, Hu, Hs, He, !find_assign, <-app_assoc, Hlen.
      by rewrite !decide_True.
    + by apply IHin.
  - intros b l Hout. rewrite fmap_cons in Hout.
    apply not_elem_of_cons in Hout as [Hne Hout]. simpl in Hne.
    destruct (IHout b l Hout) as [-> ->].
    rewrite Hs, He, !find_assign.
    rewrite !decide_False by (intros [-> ->]; done). done.
Qed.

(** The layout that the constructor computes from its shell map. *)
Lemma unique_primitives_layout (shell_map : ShellMap) :
  let p := unique_primitives shell_map in
  (∀ b l shells, Map2.find shell_map b l = Some shells →
     ∃ A C, usubls p = A ++ flat_subls shells ++ C
            ∧ Map2.find (primitive_start p) b l = Some (length A)
            ∧ Map2.find (primitive_end p) b l
              = Some (length A + length (flat_subls shells)))
  ∧ (∀ b l, Map2.find shell_map b l = None →
       Map2.find (primitive_start p) b l = None
       ∧ Map2.find (primitive_end p) b l = None).
Proof.
  unfold unique_primitives.
  destruct (push_entries_layout (Map2.entries shell_map) empty_pool
              (NoDup_entries_keys shell_map) eq_refl) as (_ & _ & Hin & Hout).
  split.
  - intros b l shells Hf. apply Hin. by apply elem_of_entries.
  - intros b l Hf. apply Hout.
    intros ([[b' l'] shells] & Heq & Hin')%list_elem_of_fmap.
    simpl in Heq. inversion Heq; subst.
    apply elem_of_entries in Hin'. congruence.
Qed.

(** With the ranges of its own first loop, the count of every atom
    agrees. *)
Lemma constructor_counts_agree (basistype : string) (mol : Molecule.t)
    (shell_map : ShellMap) (n : nat) :
  Z.of_nat (consumed basistype mol shell_map n)
  = range_size basistype mol
      (primitive_start (unique_primitives shell_map))
      (primitive_end (unique_primitives shell_map)) n.
Proof.
  unfold consumed, range_size, shells_of_atom, Map2.at_.
  set (b := Molecule.basisset _ _). set (l := Molecule.label_ _).
  destruct (unique_primitives_layout shell_map) as [Hin Hout].
  destruct (Map2.find shell_map b l) as [shells|] eqn:Hf.
  - destruct (Hin b l shells Hf) as (A & C & _ & -> & ->). simpl.
    rewrite length_flat_subls. lia.
  - destruct (Hout b l Hf) as [-> ->]. done.
Qed.

(** The constructor never throws. *)
Lemma make_returns (basistype : string) (mol : Molecule.t) (shell_map : ShellMap) :
  ∃ bs, make basistype mol shell_map = Returned bs
        ∧ assemble_atoms basistype mol shell_map (unique_primitives shell_map)
          = Returned (tables bs).
Proof.
  unfold make.
  destruct (ECPAssemblyFacts.assemble_run basistype mol shell_map
              (unique_primitives shell_map)
              (seq 0 (Molecule.natom mol)) (Returned empty_tables))
    as (_ & _ & Hr).
  destruct (Hr empty_tables eq_refl) as [T HT].
  { intros n _ Hmis. apply Hmis. apply constructor_counts_agree. }
  unfold assemble_atoms, for_loop. rewrite Nat.sub_0_r, HT. eauto.
Qed.

End ECPPoolFacts.

(** * ECP basis construction from structured data: one label per shell *)

Module ECPLabelFacts.
Import ECPBasisSet Map2Facts ECPPoolFacts ECPSamples.

Lemma one_label_subls (s : ECPShellInfo.t) :
  one_label s →
  ECPShellInfo.subl s <$> seq 0 (ECPShellInfo.nprimitive s)
  = replicate (ECPShellInfo.nprimitive s) (ECPShellInfo.l_ s).
Proof.
  intros Hone. apply list_eq. intros i. rewrite list_lookup_fmap.
  destruct (decide (i < ECPShellInfo.nprimitive s)) as [Hi|Hi].
  - rewrite lookup_seq_lt, lookup_replicate_2 by done. simpl. f_equal.
    unfold ECPShellInfo.subl. rewrite Hone.
    apply list_lookup_total_correct. by apply lookup_replicate_2.
  - rewrite lookup_seq_ge by lia. symmetry. apply lookup_replicate_None. lia.
Qed.

(** The shells of one atom: every storage shell built reads the label
    of its descriptor, provided the pool holds the sub-labels of the
    descriptors from [ustart + k] on. *)
Lemma assemble_shells_labels (pool : Pool) (n ustart : nat)
    (shells : list ECPShellInfo.t) (T : Tables) (k : nat) :
  Forall one_label shells →
  Forall reads_one_label (constructed_ T) →
  (∀ i, i < length (flat_subls shells) →
        usubls pool !! (ustart + k + i) = flat_subls shells !! i) →
  Forall reads_one_label
         (constructed_ (foldl (assemble_shell pool n ustart) (T, k) shells).1).
Proof.
  revert T k. induction shells as [|s shells IH]; intros T k Hone HT Hpool; [done|].
  apply Forall_cons in Hone as [Hs Hone].
  assert (Hflat : flat_subls (s :: shells)
                  = replicate (ECPShellInfo.nprimitive s) (ECPShellInfo.l_ s)
                    ++ flat_subls shells).
  { unfold flat_subls. by rewrite bind_cons, one_label_subls. }
  rewrite Hflat in Hpool. rewrite length_app, length_replicate in Hpool.
  change (foldl (assemble_shell pool n ustart) (T, k) (s :: shells))
    with (foldl (assemble_shell pool n ustart)
                (assemble_shell pool n ustart (T, k) s) shells).
  unfold assemble_shell at 2.
  apply IH; [done| |].
  - simpl. apply Forall_app. split; [done|].
    apply Forall_singleton. intros i Hi.
    unfold ptr_read, GaussianECPShell.nprimitive_, GaussianECPShell.l_ in *.
    simpl in *.
    rewrite Hpool by lia.
    rewrite lookup_app_l by (rewrite length_replicate; lia).
    by apply lookup_replicate_2.
  - intros i Hi.
    replace (ustart + (k + ECPShellInfo.nprimitive s) + i)
      with (ustart + k + (ECPShellInfo.nprimitive s + i)) by lia.
    rewrite Hpool by lia.
    rewrite lookup_app_r by (rewrite length_replicate; lia).
    rewrite length_replicate. f_equal. lia.
Qed.

Lemma assemble_atom_labels (basistype : string) (mol : Molecule.t)
    (shell_map : ShellMap) (n : nat) (T T' : Tables) :
  (∀ b l shells, Map2.find shell_map b l = Some shells → Forall one_label shells) →
  Forall reads_one_label (constructed_ T) →
  assemble_atom basistype mol shell_map (unique_primitives shell_map) n T
  = Returned T' →
  Forall reads_one_label (constructed_ T').
Proof.
  intros Hmap HT. unfold assemble_atom, Map2.at_.
  set (b := Molecule.basisset _ _). set (l := Molecule.label_ _).
  destruct (unique_primitives_layout shell_map) as [Hin _].
  assert (Hshells : Forall reads_one_label
            (constructed_ (foldl (assemble_shell (unique_primitives shell_map) n
                               (default 0 (Map2.find
                                  (primitive_start (unique_primitives shell_map)) b l)))
                            (open_atom (length (default [] (Map2.find shell_map b l))) T, 0)
                            (default [] (Map2.find shell_map b l))).1)).
  { destruct (Map2.find shell_map b l) as [shells|] eqn:Hf; simpl; [|done].
    destruct (Hin b l shells Hf) as (A & C & HA & -> & _). simpl.
    apply assemble_shells_labels; [by eapply Hmap | done |].
    intros i Hi. rewrite HA, Nat.add_0_r.
    rewrite lookup_app_r by lia.
    replace (length A + i - length A) with i by lia.
    by rewrite lookup_app_l. }
  destruct (foldl _ _ _) as [T1 atom_nprim]. simpl in Hshells.
  case_bool_decide; [done|]. intros [= <-]. done.
Qed.

Lemma assemble_run_labels (basistype : string) (mol : Molecule.t)
    (shell_map : ShellMap) (atoms : list nat) (acc : Outcome Tables) (T' : Tables) :
  (∀ b l shells, Map2.find shell_map b l = Some shells → Forall one_label shells) →
  (∀ T, acc = Returned T → Forall reads_one_label (constructed_ T)) →
  foldl (λ (acc : Outcome Tables) (n : nat),
           match acc with
           | Returned T =>
               assemble_atom basistype mol shell_map (unique_primitives shell_map) n T
           | Thrown what => Thrown what
           end) acc atoms = Returned T' →
  Forall reads_one_label (constructed_ T').
Proof.
  intros Hmap. revert acc.
  induction atoms as [|a atoms IH]; intros acc Hacc; simpl.
  - intros ->. by apply Hacc.
  - apply IH. intros T HT. destruct acc as [T0|what]; [|done].
    eapply assemble_atom_labels; [done | by apply Hacc | done].
Qed.

(** The array [shells_] holds the base parts of the objects
    constructed, in the order of their construction. *)
Lemma assemble_shells_slices (pool : Pool) (n ustart : nat)
    (shells : list ECPShellInfo.t) (T : Tables) (k : nat) :
  shells_ T = GaussianECPShell.base <$> constructed_ T →
  shells_ (foldl (assemble_shell pool n ustart) (T, k) shells).1
  = GaussianECPShell.base
    <$> constructed_ (foldl (assemble_shell pool n ustart) (T, k) shells).1.
Proof.
  revert T k. induction shells as [|s shells IH]; intros T k HT; [done|].
  cbn [foldl]. unfold assemble_shell at 2 4. apply IH. simpl.
  by rewrite fmap_app, HT.
Qed.

Lemma assemble_atom_slices (basistype : string) (mol : Molecule.t)
    (shell_map : ShellMap) (pool : Pool) (n : nat) (T T' : Tables) :
  shells_ T = GaussianECPShell.base <$> constructed_ T →
  assemble_atom basistype mol shell_map pool n T = Returned T' →
  shells_ T' = GaussianECPShell.base <$> constructed_ T'.
Proof.
  intros HT. unfold assemble_atom.
  set (ss := Map2.at_ [] shell_map _ _). set (ustart := Map2.at_ 0 _ _ _).
  pose proof (assemble_shells_slices pool n ustart ss (open_atom (length ss) T) 0 HT)
    as Hs.
  destruct (foldl _ _ _) as [T1 atom_nprim]. simpl in Hs.
  case_bool_decide; [done|]. intros [= <-]. done.
Qed.

Lemma assemble_run_slices (basistype : string) (mol : Molecule.t)
    (shell_map : ShellMap) (pool : Pool) (atoms : list nat) (acc : Outcome Tables)
    (T' : Tables) :
  (∀ T, acc = Returned T → shells_ T = GaussianECPShell.base <$> constructed_ T) →
  foldl (λ (acc : Outcome Tables) (n : nat),
           match acc with
           | Returned T => assemble_atom basistype mol shell_map pool n T
           | Thrown what => Thrown what
           end) acc atoms = Returned T' →
  shells_ T' = GaussianECPShell.base <$> constructed_ T'.
Proof.
  revert acc. induction atoms as [|a atoms IH]; intros acc Hacc; simpl.
  - intros ->. by apply Hacc.
  - apply IH. intros T HT. destruct acc as [T0|what]; [|done].
    eapply assemble_atom_slices; [by apply Hacc | done].
Qed.

Section WithBase.
Context {B : ECPShellInfo.Base}.

(** The four vectors that the loop over the primitives of one shell
    entry builds. *)
Lemma shell_of_py_vectors (am : Z) (prims : list (double * double * Z))
    (c0 e0 : list double) (n0 s0 : list Z) :
  foldl (λ '(coefficients, exponents, ns, sub_ls) '(e, c, r),
           (coefficients ++ [c], exponents ++ [e], ns ++ [r], sub_ls ++ [am]))
        (c0, e0, n0, s0) prims
  = (c0 ++ ((λ p, p.1.2) <$> prims), e0 ++ ((λ p, p.1.1) <$> prims),
     n0 ++ ((λ p, p.2) <$> prims), s0 ++ replicate (length prims) am).
Proof.
  revert c0 e0 n0 s0. induction prims as [|[[e c] r] prims IH]; intros; simpl.
  - by rewrite !app_nil_r.
  - rewrite IH. simpl. by rewrite <-!app_assoc.
Qed.

Lemma shell_of_py_one_label (sh : PyShell) :
  one_label (shell_of_py sh)
  ∧ ECPShellInfo.l_ (shell_of_py sh) = py_am sh
  ∧ ECPShellInfo.nprimitive (shell_of_py sh) = length (py_primitives sh)
  ∧ ECPShellInfo.well_formed (shell_of_py sh).
Proof.
  unfold shell_of_py. rewrite shell_of_py_vectors. simpl.
  unfold one_label, ECPShellInfo.well_formed, ECPShellInfo.nprimitive. simpl.
  rewrite !length_fmap, length_replicate. done.
Qed.

Lemma read_atoms_one_label (name key : string) (atoms : list PyAtom) (R : Reading) :
  (∀ b l shells, Map2.find (basis_atom_shell R) b l = Some shells →
                 Forall one_label shells) →
  ∀ b l shells,
    Map2.find (basis_atom_shell (foldl (read_atom name key) R atoms)) b l
    = Some shells →
    Forall one_label shells.
Proof.
  revert R. induction atoms as [|a atoms IH]; intros R HR; [done|].
  simpl. apply IH. intros b l shells. simpl. rewrite find_assign.
  case_decide; [|by apply HR].
  intros [= <-]. apply Forall_fmap, Forall_forall. intros sh _.
  apply shell_of_py_one_label.
Qed.

(** C10. Every shell record that construct_ecp_from_pydict builds
    gives each primitive a sub-label equal to the angular momentum of
    the enclosing shell; consequently, for every GaussianECPShell that
    this path constructs, evaluate(r, l) returns 0 for every [l] other
    than the angular momentum of the shell.  The array [shells_] of the
    basis set keeps the base parts of these objects. *)
Theorem pydict_shells_carry_one_label (mol mol' : Molecule.t) (pybs : PyBasis)
    (forced_puream : Z) (bs : t) :
  construct_ecp_from_pydict mol pybs forced_puream = (mol', Returned bs) →
  (∀ b l shells s,
     Map2.find
       (basis_atom_shell
          (read_atoms (Molecule.set_basis_all_atoms mol (py_name pybs) (py_key pybs))
                      pybs)) b l = Some shells →
     s ∈ shells →
     ECPShellInfo.sub_l_ s
     = replicate (ECPShellInfo.nprimitive s) (ECPShellInfo.l_ s))
  ∧ (∀ sh, sh ∈ constructed_ (tables bs) →
       ∀ (LM : Libm.Functions) (r : double) (l : Z),
         l ≠ GaussianECPShell.am sh →
         GaussianECPShell.evaluate sh r l = Some 0%float)
  ∧ shells_ (tables bs) = GaussianECPShell.base <$> constructed_ (tables bs).
Proof.
  intros Hc.
  set (R := read_atoms (Molecule.set_basis_all_atoms mol (py_name pybs) (py_key pybs))
                       pybs) in *.
  assert (Hmap : ∀ b l shells, Map2.find (basis_atom_shell R) b l = Some shells →
                               Forall one_label shells).
  { apply read_atoms_one_label. intros b l shells Hf. done. }
  unfold construct_ecp_from_pydict in Hc. fold R in Hc.
  case_bool_decide; [done|].
  set (molc := for_loop _ _ _ _) in Hc.
  destruct (make_returns (py_key pybs) molc (basis_atom_shell R))
    as (bs0 & Hmake & Hasm).
  rewrite Hmake in Hc. inversion Hc; subst. simpl.
  unfold assemble_atoms, for_loop in Hasm.
  split_and!.
  - intros b l shells s Hf Hs.
    pose proof (Hmap b l shells Hf) as Hall.
    rewrite Forall_forall in Hall. by apply Hall.
  - assert (Hinit : ∀ T, Returned empty_tables = Returned T →
                         Forall reads_one_label (constructed_ T)).
    { intros T [= <-]. constructor. }
    pose proof (assemble_run_labels _ _ _ _ _ _ Hmap Hinit Hasm) as Hall.
    rewrite Forall_forall in Hall.
    intros sh Hsh LM r l Hl.
    apply ECPShellFacts.evaluate_other_label.
    intros i Hi. exists (GaussianECPShell.l_ sh). split; [|done].
    by apply Hall.
  - assert (Hinit : ∀ T, Returned empty_tables = Returned T →
                         shells_ T = GaussianECPShell.base <$> constructed_ T).
    { by intros T [= <-]. }
    exact (assemble_run_slices _ _ _ _ _ _ _ Hinit Hasm).
Qed.

End WithBase.

Lemma pydict_shells_carry_one_label_witness :
  (∀ b l shells s,
     Map2.find
       (basis_atom_shell
          (read_atoms (B := plain_base)
             (Molecule.set_basis_all_atoms CuH (py_name cu_ecp) (py_key cu_ecp))
             cu_ecp)) b l = Some shells →
     s ∈ shells →
     ECPShellInfo.sub_l_ s
     = replicate (ECPShellInfo.nprimitive s) (ECPShellInfo.l_ s))
  ∧ (∀ sh, sh ∈ constructed_ (tables cu_basis) →
       ∀ (LM : Libm.Functions) (r : double) (l : Z),
         l ≠ GaussianECPShell.am sh →
         GaussianECPShell.evaluate sh r l = Some 0%float)
  ∧ shells_ (tables cu_basis) = GaussianECPShell.base <$> constructed_ (tables cu_basis).
Proof.
  apply (pydict_shells_carry_one_label (B := plain_base)
           CuH CuH_result.1 cu_ecp 0 cu_basis).
  vm_compute. reflexivity.
Defined.

(** The two shells constructed for copper: the first has angular
    momentum 2 and two primitives at index 0 of the pool, the second
    angular momentum 0 and one primitive at index 2. *)
Example cu_basis_shells :
  (λ sh, (GaussianECPShell.l_ sh, GaussianECPShell.nprimitive_ sh,
          ptr_first (GaussianECPShell.sub_l_ sh),
          ptr_view (GaussianECPShell.sub_l_ sh) (GaussianECPShell.nprimitive_ sh)))
  <$> constructed_ (tables cu_basis)
  = [(2%Z, 2, 0, [2%Z; 2%Z]); (0%Z, 1, 2, [0%Z])].
Proof. vm_compute. reflexivity. Qed.

(** On the s shell of copper (exponent 1, coefficient 3, radial power 0)
    evaluate(1, 0) reads the exponent array at index -1 from the first
    exponent of the shell, which is the last exponent of the d shell,
    0.25; evaluate(1, 2) adds nothing. *)
Example cu_basis_evaluate :
  (λ sh, (GaussianECPShell.evaluate (LM := Libm.sample) sh 1%float 0,
          GaussianECPShell.evaluate (LM := Libm.sample) sh 1%float 2))
  <$> drop 1 (constructed_ (tables cu_basis))
  = [(Some 0.75%float, Some 0%float)].
Proof. vm_compute. reflexivity. Qed.

End ECPLabelFacts.

(** * ECP basis construction from structured data: the nuclear charges *)

Module ECPChargeFacts.
Import ECPBasisSet ECPSamples.

(** A call that maps the atoms and keeps their charges. *)
Lemma Z_fmap (f : Molecule.CoordEntry → Molecule.CoordEntry)
    (m : Molecule.t) (calls' : list Molecule.Call) (n : nat) :
  (∀ a, Molecule.Z_ (f a) = Molecule.Z_ a) →
  Molecule.Z {| Molecule.atoms := f <$> Molecule.atoms m; Molecule.calls := calls' |} n
  = Molecule.Z m n.
Proof.
  intros Hf. unfold Molecule.Z, Molecule.atom_entry. simpl.
  rewrite !list_lookup_total_alt, list_lookup_fmap.
  destruct (Molecule.atoms m !! n); simpl; [apply Hf | done].
Qed.

(** The charge loop over any run of distinct atoms of the molecule. *)
Lemma adjust_charges_run (ncores : gmap string (gmap string Z))
    (atoms : list nat) (mol : Molecule.t) :
  NoDup atoms →
  (∀ n, n ∈ atoms → n < Molecule.natom mol) →
  let mol' := foldl (λ acc n, adjust_charge ncores n acc) mol atoms in
  Molecule.calls mol'
  = Molecule.calls mol
    ++ ((λ n, Molecule.set_nuclear_charge_called n
                (int_sub (Molecule.Z mol n) (core_electrons ncores mol n))) <$> atoms)
  ∧ Molecule.natom mol' = Molecule.natom mol
  ∧ Molecule.same_names mol mol'
  ∧ (∀ n, Molecule.Z mol' n
          = if decide (n ∈ atoms)
            then int_sub (Molecule.Z mol n) (core_electrons ncores mol n)
            else Molecule.Z mol n).
Proof.
  revert mol. induction atoms as [|a atoms IH]; intros mol Hnd Hin.
  { simpl. rewrite app_nil_r. split_and!; done. }
  apply NoDup_cons in Hnd as [Ha Hnd].
  assert (Hlt : a < length (Molecule.atoms mol)).
  { apply (Hin a). left. }
  set (z := int_sub (Molecule.Z mol a) (core_electrons ncores mol a)).
  set (mol1 := adjust_charge ncores a mol).
  assert (Hentry : ∀ n, Molecule.atom_entry mol1 n
                        = if decide (n = a)
                          then Molecule.with_Z z (Molecule.atom_entry mol a)
                          else Molecule.atom_entry mol n).
  { intros n. unfold mol1, adjust_charge, Molecule.set_nuclear_charge,
                     Molecule.atom_entry. simpl.
    destruct (decide (n = a)) as [->|Hne].
    - by rewrite list_lookup_total_alter_eq.
    - by rewrite list_lookup_total_alter_ne. }
  assert (Hnames : Molecule.same_names mol mol1).
  { intros n. rewrite Hentry. by destruct (decide (n = a)) as [->|]. }
  assert (Hcore : ∀ n, core_electrons ncores mol1 n = core_electrons ncores mol n).
  { intros n. unfold core_electrons, Molecule.basis_on_atom, Molecule.label,
                     Molecule.basisset.
    destruct (Hnames n) as [-> ->]. done. }
  assert (HZ : ∀ n, n ≠ a → Molecule.Z mol1 n = Molecule.Z mol n).
  { intros n Hne. unfold Molecule.Z. rewrite Hentry. by rewrite decide_False. }
  assert (HZa : Molecule.Z mol1 a = z).
  { unfold Molecule.Z. rewrite Hentry. by rewrite decide_True. }
  assert (Hnat : Molecule.natom mol1 = Molecule.natom mol).
  { unfold mol1, adjust_charge, Molecule.set_nuclear_charge, Molecule.natom. simpl.
    apply length_alter. }
  destruct (IH mol1 Hnd) as (Hcalls & Hn' & Hsame & HZ').
  { intros n Hn. rewrite Hnat. apply Hin. by right. }
  change (foldl (λ acc n, adjust_charge ncores n acc) mol (a :: atoms))
    with (foldl (λ acc n, adjust_charge ncores n acc) mol1 atoms).
  split_and!.
  - rewrite Hcalls. unfold mol1 at 1, adjust_charge, Molecule.set_nuclear_charge.
    simpl. rewrite <-app_assoc. simpl. do 2 f_equal.
    apply list_fmap_ext. intros i n Hi. f_equal.
    rewrite Hcore, HZ; [done|].
    intros ->. apply Ha. by eapply list_elem_of_lookup_2.
  - by rewrite Hn'.
  - intros n. destruct (Hsame n) as [-> ->]. apply Hnames.
  - intros n. rewrite HZ'.
    destruct (decide (n = a)) as [->|Hne].
    + rewrite decide_False by done. rewrite decide_True by left. done.
    + rewrite Hcore, (HZ n Hne).
      destruct (decide (n ∈ atoms)) as [Hn|Hn].
      * rewrite decide_True by (by right). done.
      * rewrite decide_False; [done|]. by intros [?|?]%elem_of_cons.
Qed.

Section WithBase.
Context {B : ECPShellInfo.Base}.

(** What the loop over [basisinfo] does to the molecule. *)
Lemma read_atoms_molecule (name key : string) (atoms : list PyAtom) (R : Reading) :
  let R' := foldl (read_atom name key) R atoms in
  Molecule.calls (r_mol R')
  = Molecule.calls (r_mol R)
    ++ ((λ a, Molecule.set_shell_by_label_called (py_label a) (py_hash a) key) <$> atoms)
  ∧ Molecule.natom (r_mol R') = Molecule.natom (r_mol R)
  ∧ (∀ n, Molecule.Z (r_mol R') n = Molecule.Z (r_mol R) n).
Proof.
  revert R. induction atoms as [|a atoms IH]; intros R; simpl.
  - by rewrite app_nil_r.
  - destruct (IH (read_atom name key R a)) as (-> & -> & HZ). simpl.
    rewrite <-app_assoc. split_and!; [done| |].
    + unfold Molecule.natom. simpl. apply length_fmap.
    + intros n. rewrite HZ. unfold read_atom, Molecule.set_shell_by_label. simpl.
      apply Z_fmap. intros a0. by case_bool_decide.
Qed.

Lemma molecule_at_update_facts (mol : Molecule.t) (pybs : PyBasis) :
  Molecule.calls (molecule_at_update mol pybs)
  = Molecule.calls mol
    ++ [Molecule.set_basis_all_atoms_called (py_name pybs) (py_key pybs)]
    ++ ((λ a, Molecule.set_shell_by_label_called (py_label a) (py_hash a) (py_key pybs))
        <$> py_ecp_shell_map pybs)
    ++ [Molecule.update_geometry_called]
  ∧ Molecule.natom (molecule_at_update mol pybs) = Molecule.natom mol
  ∧ (∀ n, Molecule.Z (molecule_at_update mol pybs) n = Molecule.Z mol n).
Proof.
  unfold molecule_at_update, read_atoms.
  destruct (read_atoms_molecule (py_name pybs) (py_key pybs) (py_ecp_shell_map pybs)
              {| r_mol := Molecule.set_basis_all_atoms mol (py_name pybs) (py_key pybs);
                 basis_atom_ncore := ∅; basis_atom_shell := ∅ |})
    as (Hcalls & Hnat & HZ).
  simpl in *. split_and!.
  - rewrite Hcalls. by rewrite <-!app_assoc.
  - unfold Molecule.natom in *. simpl. rewrite Hnat. apply length_fmap.
  - intros n. unfold Molecule.update_geometry.
    change (Molecule.Z {| Molecule.atoms := ?a; Molecule.calls := _ |} n)
      with (Molecule.Z {| Molecule.atoms := a; Molecule.calls := [] |} n).
    unfold Molecule.Z in *. unfold Molecule.atom_entry in *. simpl in *.
    rewrite HZ. unfold Molecule.set_basis_all_atoms. simpl.
    rewrite !list_lookup_total_alt, list_lookup_fmap.
    by destruct (Molecule.atoms mol !! n).
Qed.

(** The molecule that construct_ecp_from_pydict leaves when the shell
    map is not empty. *)
Lemma pydict_molecule (mol : Molecule.t) (pybs : PyBasis) (forced_puream : Z) :
  py_ecp_shell_map pybs ≠ [] →
  (construct_ecp_from_pydict mol pybs forced_puream).1
  = for_loop 0 (Molecule.natom (molecule_at_update mol pybs))
      (adjust_charge
         (basis_atom_ncore
            (read_atoms (Molecule.set_basis_all_atoms mol (py_name pybs) (py_key pybs))
                        pybs)))
      (molecule_at_update mol pybs).
Proof.
  intros Hne. unfold construct_ecp_from_pydict.
  rewrite bool_decide_eq_false_2 by (by destruct (py_ecp_shell_map pybs)).
  unfold molecule_at_update. by destruct (make _ _ _).
Qed.





End WithBase.



Example pydict_calls_on_CuH :
  Molecule.calls (construct_ecp_from_pydict (B := plain_base) CuH cu_ecp 0).1
  = [Molecule.set_basis_all_atoms_called "LANL2DZ" "BASIS";
     Molecule.set_shell_by_label_called "CU" "abc" "BASIS";
     Molecule.update_geometry_called;
     Molecule.set_nuclear_charge_called 0 19;
     Molecule.set_nuclear_charge_called 1 1].
Proof. vm_compute. reflexivity. Qed.

End ECPChargeFacts.

(** * ROHF: further properties of form_F and form_D *)

Module ROHFMore.
Import Mat MatFacts ROHF.

Lemma for_loop_preserves {S : Type} (P : S → Prop) (lo hi : nat)
    (body : nat → S → S) (s : S) :
  (∀ i s, lo ≤ i < hi → P s → P (body i s)) → P s → P (for_loop lo hi body s).
Proof.
  intros Hbody. unfold for_loop.
  assert (Hin : ∀ i, i ∈ seq lo (hi - lo) → lo ≤ i < hi).
  { intros i Hi%elem_of_seq. lia. }
  revert s Hin. generalize (seq lo (hi - lo)) as l.
  induction l as [|x l IH]; intros s Hin Hs; [done|].
  simpl. apply IH.
  - intros i Hi. apply Hin. by right.
  - apply Hbody; [apply Hin; left | done].
Qed.

Lemma has_shape_set (M : Matrix) (dims : list nat) (h i j : nat) (v : double) :
  has_shape M dims → has_shape (set M h i j v) dims.
Proof.
  intros Hs. unfold set, has_shape.
  apply Forall2_alter_l; [done|].
  intros B d _ _ [Hlen Hrows]. split.
  - by rewrite length_alter.
  - apply Forall_alter; [done|]. intros row _ Hrow. by rewrite length_insert.
Qed.

Lemma block_shape_zip (f : double → double → double) (BA BB : Block) (d : nat) :
  length BA = d → Forall (λ row : list double, length row = d) BA →
  length BB = d → Forall (λ row : list double, length row = d) BB →
  length (zip_with (zip_with f) BA BB) = d
  ∧ Forall (λ row : list double, length row = d) (zip_with (zip_with f) BA BB).
Proof.
  intros HlenA HrowsA HlenB HrowsB. split.
  - rewrite length_zip_with_l_eq; [done|]. congruence.
  - apply Forall_lookup. intros i row. rewrite lookup_zip_with.
    destruct (BA !! i) as [ra|] eqn:Hra; simpl; [|done].
    destruct (BB !! i) as [rb|] eqn:Hrb; simpl; [|done].
    intros [= <-].
    rewrite Forall_lookup in HrowsA, HrowsB.
    rewrite length_zip_with_l_eq; [by eapply HrowsA|].
    rewrite (HrowsA _ _ Hra), (HrowsB _ _ Hrb). done.
Qed.

Lemma has_shape_zip_cells (f : double → double → double) (A B : Matrix)
    (dims : list nat) :
  has_shape A dims → has_shape B dims → has_shape (zip_cells f A B) dims.
Proof.
  unfold has_shape, zip_cells. intros HA. revert B.
  induction HA as [|BA d A dims [HlenA HrowsA] HA IH]; intros B HB.
  - by destruct B.
  - inversion HB as [|BB ? B' ? [HlenB HrowsB] HB']; subst. simpl.
    constructor; [|by apply IH].
    by apply block_shape_zip.
Qed.

Lemma has_shape_scale (M : Matrix) (a : double) (dims : list nat) :
  has_shape M dims → has_shape (scale M a) dims.
Proof.
  unfold has_shape, scale. intros HM.
  apply Forall2_fmap_l. eapply Forall2_impl; [exact HM|].
  intros B d [Hlen Hrows]. simpl. split.
  - by rewrite length_fmap.
  - apply Forall_fmap. eapply Forall_impl; [exact Hrows|].
    intros row Hrow. simpl. by rewrite length_fmap.
Qed.

Lemma has_shape_set_pair (src M : Matrix) (dims : list nat) (h i j : nat) :
  has_shape M dims → has_shape (set_pair src h i j M) dims.
Proof. intros HM. unfold set_pair. by do 2 apply has_shape_set. Qed.

Lemma has_shape_assemble_Feff (nirrep : nat) (doccpi soccpi nmopi : list nat)
    (moFa moFb Feff : Matrix) (dims : list nat) :
  has_shape Feff dims →
  has_shape (assemble_Feff nirrep doccpi soccpi nmopi moFa moFb Feff) dims.
Proof.
  intros HF. unfold assemble_Feff.
  apply for_loop_preserves; [|done]. intros h F _ HhF.
  apply for_loop_preserves; [|done]. intros i F1 _ HF1.
  apply for_loop_preserves.
  - intros j F2 _ HF2. by apply has_shape_set_pair.
  - apply for_loop_preserves; [|done].
    intros j F2 _ HF2. by apply has_shape_set_pair.
Qed.

Section WithProvider.
Context {MP : Provider}.

(** X1. form_F keeps the block dimensions: the AO Fock matrices have the
    dimensions of [H_], [Ga_] and [Gb_], and the effective Fock matrix
    those of the two MO Fock matrices. *)
Theorem form_F_keeps_dimensions (st : State) (dims : list nat) :
  has_shape (H_ st) dims → has_shape (Ga_ st) dims → has_shape (Gb_ st) dims →
  has_shape (moFa_ (form_F st)) dims → has_shape (moFb_ (form_F st)) dims →
  has_shape (Fa_ (form_F st)) dims
  ∧ has_shape (Fb_ (form_F st)) dims
  ∧ has_shape (Feff_ (form_F st)) dims.
Proof.
  intros HH HGa HGb HmoFa HmoFb. split_and!.
  - by apply has_shape_zip_cells.
  - by apply has_shape_zip_cells.
  - destruct (ROHFFock.form_F_members st) as (_ & _ & ->).
    apply has_shape_assemble_Feff, has_shape_scale.
    by apply has_shape_zip_cells.
Qed.

(** X2. The effective Fock matrix is symmetric wherever the two MO Fock
    matrices are: the coupling blocks are written in transposed pairs and
    the rest is the mean of the two. *)
Theorem form_F_effective_fock_symmetric (st : State) (h a b : nat) :
  has_shape (moFa_ (form_F st)) (nsopi_ st) →
  has_shape (moFb_ (form_F st)) (nsopi_ st) →
  h < nirrep_ st → a < nsopi_ st !!! h → b < nsopi_ st !!! h →
  get (moFa_ (form_F st)) h a b = get (moFa_ (form_F st)) h b a →
  get (moFb_ (form_F st)) h a b = get (moFb_ (form_F st)) h b a →
  get (Feff_ (form_F st)) h a b = get (Feff_ (form_F st)) h b a.
Proof.
  intros HSa HSb Hh Ha Hb Hsa Hsb.
  rewrite (ROHFFock.form_F_cell st h a b HSa HSb Hh Ha Hb).
  rewrite (ROHFFock.form_F_cell st h b a HSa HSb Hh Hb Ha).
  rewrite Hsa, Hsb.
  unfold couples_open, Feff_stored, is_open, is_closed, is_virtual.
  repeat case_bool_decide; simpl; try done; lia.
Qed.

(** X3. The coupling cells are symmetric whatever the MO Fock matrices
    hold. *)
Theorem form_F_coupling_blocks_symmetric (st : State) (h a b : nat) :
  has_shape (moFa_ (form_F st)) (nsopi_ st) →
  has_shape (moFb_ (form_F st)) (nsopi_ st) →
  h < nirrep_ st → a < nsopi_ st !!! h → b < nsopi_ st !!! h →
  couples_open st h a b = true →
  get (Feff_ (form_F st)) h a b = get (Feff_ (form_F st)) h b a.
Proof.
  intros HSa HSb Hh Ha Hb Hc.
  rewrite (ROHFFock.form_F_cell st h a b HSa HSb Hh Ha Hb).
  rewrite (ROHFFock.form_F_cell st h b a HSa HSb Hh Hb Ha).
  revert Hc. unfold couples_open, Feff_stored, is_open, is_closed, is_virtual.
  repeat case_bool_decide; simpl; try done; lia.
Qed.

(** X4. A diagonal entry of the effective Fock matrix is never overwritten:
    it is the mean of the alpha and beta MO Fock entries. *)
Theorem form_F_diagonal (st : State) (h a : nat) :
  has_shape (moFa_ (form_F st)) (nsopi_ st) →
  has_shape (moFb_ (form_F st)) (nsopi_ st) →
  h < nirrep_ st → a < nsopi_ st !!! h →
  get (Feff_ (form_F st)) h a a
  = PrimFloat.mul 0.5%float
      (PrimFloat.add (get (moFa_ (form_F st)) h a a) (get (moFb_ (form_F st)) h a a)).
Proof.
  intros HSa HSb Hh Ha.
  rewrite (ROHFFock.form_F_cell st h a a HSa HSb Hh Ha Ha).
  unfold couples_open, is_open, is_closed, is_virtual.
  repeat case_bool_decide; simpl; try done; lia.
Qed.

(** X5. In an irrep without singly-occupied orbitals the effective Fock
    matrix is the closed-shell one in the whole block. *)
Theorem form_F_closed_shell (st : State) (h a b : nat) :
  has_shape (moFa_ (form_F st)) (nsopi_ st) →
  has_shape (moFb_ (form_F st)) (nsopi_ st) →
  h < nirrep_ st → a < nsopi_ st !!! h → b < nsopi_ st !!! h →
  soccpi_ st !!! h = 0 →
  get (Feff_ (form_F st)) h a b
  = PrimFloat.mul 0.5%float
      (PrimFloat.add (get (moFa_ (form_F st)) h a b) (get (moFb_ (form_F st)) h a b)).
Proof.
  intros HSa HSb Hh Ha Hb Hsocc.
  rewrite (ROHFFock.form_F_cell st h a b HSa HSb Hh Ha Hb).
  unfold couples_open, is_open, is_closed, is_virtual. rewrite Hsocc.
  repeat case_bool_decide; simpl; try done; lia.
Qed.

End WithProvider.

Lemma has_shape_form_D_loops (nirrep : nat) (nsopi doccpi soccpi : list nat)
    (C : Matrix) (D : Matrix * Matrix) (dims : list nat) :
  has_shape D.1 dims → has_shape D.2 dims →
  has_shape (form_D_loops nirrep nsopi doccpi soccpi C D).1 dims
  ∧ has_shape (form_D_loops nirrep nsopi doccpi soccpi C D).2 dims.
Proof.
  intros H1 H2. unfold form_D_loops.
  apply (for_loop_preserves (λ D, has_shape D.1 dims ∧ has_shape D.2 dims)); [|done].
  intros h D1 _ HD1.
  apply (for_loop_preserves (λ D, has_shape D.1 dims ∧ has_shape D.2 dims)); [|done].
  intros i D2 _ HD2.
  apply (for_loop_preserves (λ D, has_shape D.1 dims ∧ has_shape D.2 dims)); [|done].
  intros j [Db Da] _ [HDb HDa]. unfold form_D_cell. simpl in *.
  split; by apply has_shape_set.
Qed.

(** X6. form_D keeps the block dimensions of the two densities, and the
    total density takes them over. *)
Theorem form_D_keeps_dimensions (st : State) (dims : list nat) :
  has_shape (Da_ st) dims → has_shape (Db_ st) dims →
  has_shape (Da_ (form_D st)) dims
  ∧ has_shape (Db_ (form_D st)) dims
  ∧ has_shape (Dt_ (form_D st)) dims.
Proof.
  intros HDa HDb.
  destruct (has_shape_form_D_loops (nirrep_ st) (nsopi_ st) (doccpi_ st) (soccpi_ st)
              (Ca_ st) (Db_ st, Da_ st) dims HDb HDa) as [H1 H2].
  rewrite ROHFDensity.form_D_Dt, ROHFDensity.form_D_Da, ROHFDensity.form_D_Db. done.
Qed.

(** X7. In an irrep without singly-occupied orbitals form_D leaves the same
    alpha and beta density. *)
Theorem form_D_closed_shell (st : State) (h i j : nat) :
  has_shape (Da_ st) (nsopi_ st) →
  has_shape (Db_ st) (nsopi_ st) →
  h < nirrep_ st → i < nsopi_ st !!! h → j < nsopi_ st !!! h →
  soccpi_ st !!! h = 0 →
  get (Da_ (form_D st)) h i j = get (Db_ (form_D st)) h i j.
Proof.
  intros HDa HDb Hh Hi Hj Hsocc.
  assert (Hb : cell_at (Db_ (form_D st)) (h, i, j) = Some (beta_value st (h, i, j))).
  { rewrite ROHFDensity.form_D_Db.
    rewrite (ROHFDensity.form_D_loops_stores_beta st (Db_ st, Da_ st) (h, i, j)).
    - by rewrite ROHFDensity.visited_true.
    - by apply (has_shape_in_range _ (nsopi_ st)). }
  assert (Ha : cell_at (Da_ (form_D st)) (h, i, j) = Some (alpha_value st (h, i, j))).
  { rewrite ROHFDensity.form_D_Da.
    rewrite (ROHFDensity.form_D_loops_stores_alpha st (Db_ st, Da_ st) (h, i, j)).
    - by rewrite ROHFDensity.visited_true.
    - by apply (has_shape_in_range _ (nsopi_ st)). }
  rewrite (get_cell_at _ _ _ _ _ Ha), (get_cell_at _ _ _ _ _ Hb).
  unfold alpha_value, socc_terms. by rewrite Hsocc.
Qed.

(** Two matrices of the same block dimensions with the same cells are
    the same matrix. *)
Lemma matrix_ext (A B : Matrix) (dims : list nat) :
  has_shape A dims → has_shape B dims →
  (∀ h i j, h < length dims → i < dims !!! h → j < dims !!! h →
            cell_at A (h, i, j) = cell_at B (h, i, j)) →
  A = B.
Proof.
  intros HA HB Hc.
  apply (list_eq_same_length _ _ (length dims)).
  { exact (Forall2_length _ _ _ HB). }
  { exact (Forall2_length _ _ _ HA). }
  intros h BA BB Hh HAh HBh.
  destruct (lookup_lt_is_Some_2 dims h Hh) as [d Hd].
  destruct (Forall2_lookup_lr _ _ _ _ _ _ HA HAh Hd) as [HlenA HrowsA].
  destruct (Forall2_lookup_lr _ _ _ _ _ _ HB HBh Hd) as [HlenB HrowsB].
  rewrite Forall_lookup in HrowsA, HrowsB.
  apply (list_eq_same_length _ _ d); [done..|].
  intros i ra rb Hi Hra Hrb.
  apply (list_eq_same_length _ _ d); [by eapply HrowsB | by eapply HrowsA |].
  intros j x y Hj Hx Hy.
  specialize (Hc h i j Hh).
  rewrite (list_lookup_total_correct _ _ _ Hd) in Hc.
  specialize (Hc Hi Hj). unfold cell_at in Hc.
  rewrite HAh, HBh in Hc. simpl in Hc. rewrite Hra, Hrb in Hc. simpl in Hc.
  congruence.
Qed.

(** form_D reads the orbitals and the occupations and leaves them as
    they are. *)
Lemma form_D_frame (st : State) :
  nirrep_ (form_D st) = nirrep_ st
  ∧ nsopi_ (form_D st) = nsopi_ st
  ∧ doccpi_ (form_D st) = doccpi_ st
  ∧ soccpi_ (form_D st) = soccpi_ st
  ∧ Ca_ (form_D st) = Ca_ st.
Proof. unfold form_D. by destruct (form_D_loops _ _ _ _ _ _). Qed.

Lemma form_D_record (st : State) :
  form_D st
  = with_density st (Da_ (form_D st)) (Db_ (form_D st)) (Db_ (form_D st)).
Proof. unfold form_D. by destruct (form_D_loops _ _ _ _ _ _). Qed.

(** The cells of the two densities after form_D. *)
Lemma form_D_cells (st : State) (h i j : nat) :
  has_shape (Da_ st) (nsopi_ st) →
  has_shape (Db_ st) (nsopi_ st) →
  h < nirrep_ st → i < nsopi_ st !!! h → j < nsopi_ st !!! h →
  cell_at (Db_ (form_D st)) (h, i, j) = Some (beta_value st (h, i, j))
  ∧ cell_at (Da_ (form_D st)) (h, i, j) = Some (alpha_value st (h, i, j)).
Proof.
  intros HDa HDb Hh Hi Hj. split.
  - rewrite ROHFDensity.form_D_Db.
    rewrite (ROHFDensity.form_D_loops_stores_beta st (Db_ st, Da_ st) (h, i, j)).
    + by rewrite ROHFDensity.visited_true.
    + by apply (has_shape_in_range _ (nsopi_ st)).
  - rewrite ROHFDensity.form_D_Da.
    rewrite (ROHFDensity.form_D_loops_stores_alpha st (Db_ st, Da_ st) (h, i, j)).
    + by rewrite ROHFDensity.visited_true.
    + by apply (has_shape_in_range _ (nsopi_ st)).
Qed.

(** X8. form_D overwrites every entry of the two densities from the
    orbitals and the occupations alone, so forming the density a second
    time changes nothing.  The blocks are those of the [nirrep_]
    irreps. *)
Theorem form_D_idempotent (st : State) :
  has_shape (Da_ st) (nsopi_ st) →
  has_shape (Db_ st) (nsopi_ st) →
  length (nsopi_ st) = nirrep_ st →
  form_D (form_D st) = form_D st.
Proof.
  intros HDa HDb Hlen.
  destruct (form_D_frame st) as (Fn & Fs & Fd & Fo & FC).
  destruct (has_shape_form_D_loops (nirrep_ st) (nsopi_ st) (doccpi_ st) (soccpi_ st)
              (Ca_ st) (Db_ st, Da_ st) (nsopi_ st) HDb HDa) as [HDb' HDa'].
  rewrite <-ROHFDensity.form_D_Db in HDb'. rewrite <-ROHFDensity.form_D_Da in HDa'.
  assert (Hvals : ∀ c, beta_value (form_D st) c = beta_value st c
                       ∧ alpha_value (form_D st) c = alpha_value st c).
  { intros [[h i] j]. unfold alpha_value, beta_value, docc_terms, socc_terms.
    by rewrite Fd, Fo, FC. }
  assert (Hb : Db_ (form_D (form_D st)) = Db_ (form_D st)).
  { apply (matrix_ext _ _ (nsopi_ st)).
    - destruct (has_shape_form_D_loops (nirrep_ (form_D st)) (nsopi_ (form_D st))
                  (doccpi_ (form_D st)) (soccpi_ (form_D st)) (Ca_ (form_D st))
                  (Db_ (form_D st), Da_ (form_D st)) (nsopi_ st) HDb' HDa') as [H1 _].
      by rewrite ROHFDensity.form_D_Db.
    - done.
    - intros h i j Hh Hi Hj.
      destruct (form_D_cells (form_D st) h i j) as [-> _];
        rewrite ?Fs, ?Fn; try done; try lia.
      destruct (form_D_cells st h i j) as [-> _]; try done; try lia.
      by destruct (Hvals (h, i, j)) as [-> _]. }
  assert (Ha : Da_ (form_D (form_D st)) = Da_ (form_D st)).
  { apply (matrix_ext _ _ (nsopi_ st)).
    - destruct (has_shape_form_D_loops (nirrep_ (form_D st)) (nsopi_ (form_D st))
                  (doccpi_ (form_D st)) (soccpi_ (form_D st)) (Ca_ (form_D st))
                  (Db_ (form_D st), Da_ (form_D st)) (nsopi_ st) HDb' HDa') as [_ H2].
      by rewrite ROHFDensity.form_D_Da.
    - done.
    - intros h i j Hh Hi Hj.
      destruct (form_D_cells (form_D st) h i j) as [_ ->];
        rewrite ?Fs, ?Fn; try done; try lia.
      destruct (form_D_cells st h i j) as [_ ->]; try done; try lia.
      by destruct (Hvals (h, i, j)) as [_ ->]. }
  rewrite (form_D_record (form_D st)), Ha, Hb.
  pose proof (ROHFDensity.form_D_Dt st) as HDt.
  destruct (form_D st). simpl in *. by rewrite HDt.
Qed.

End ROHFMore.

(** * ECP shell descriptors: what the comparison implies *)

Module ECPShellInfoFacts.

Lemma vector_eq_length {A : Type} (eq : A → A → bool) (a b : list A) :
  vector_eq eq a b = true → length a = length b.
Proof.
  revert b. induction a as [|x a IH]; intros [|y b] H; try done.
  simpl in *. apply andb_prop in H as [_ H]. by rewrite (IH b H).
Qed.

Lemma vector_eq_Z (a b : list Z) : vector_eq Z.eqb a b = true → a = b.
Proof.
  revert b. induction a as [|x a IH]; intros [|y b] H; try done.
  simpl in *. apply andb_prop in H as [Hx H].
  apply Z.eqb_eq in Hx. by rewrite Hx, (IH b H).
Qed.

(** X9. Two descriptors that [operator==] accepts have the same angular
    momentum, the same kind of functions, the same radial powers and
    sub-labels, the same centre index, start and function counts, and
    the same number of primitives; the original coefficients of the
    left one are as many as the ERD coefficients of the right one. *)
Theorem operator_eq_equal_fields (a b : ECPShellInfo.t) :
  ECPShellInfo.operator_eq a b = true →
  ECPShellInfo.am a = ECPShellInfo.am b
  ∧ ECPShellInfo.puream_ a = ECPShellInfo.puream_ b
  ∧ ECPShellInfo.n_ a = ECPShellInfo.n_ b
  ∧ ECPShellInfo.sub_l_ a = ECPShellInfo.sub_l_ b
  ∧ ECPShellInfo.nc_ a = ECPShellInfo.nc_ b
  ∧ ECPShellInfo.start_ a = ECPShellInfo.start_ b
  ∧ ECPShellInfo.ncartesian a = ECPShellInfo.ncartesian b
  ∧ ECPShellInfo.nfunction a = ECPShellInfo.nfunction b
  ∧ ECPShellInfo.nprimitive a = ECPShellInfo.nprimitive b
  ∧ length (ECPShellInfo.original_coef_ a) = length (ECPShellInfo.erd_coef_ b).
Proof.
  unfold ECPShellInfo.operator_eq. intros H.
  repeat (apply andb_prop in H as [H ?]).
  repeat match goal with
         | H : Nat.eqb _ _ = true |- _ => apply Nat.eqb_eq in H
         | H : Z.eqb _ _ = true |- _ => apply Z.eqb_eq in H
         | H : bool_decide _ = true |- _ => apply bool_decide_eq_true in H
         | H : vector_eq Z.eqb _ _ = true |- _ => apply vector_eq_Z in H
         | H : vector_eq PrimFloat.eqb _ _ = true |- _ => apply vector_eq_length in H
         end.
  unfold ECPShellInfo.am, ECPShellInfo.ncartesian, ECPShellInfo.nfunction,
    ECPShellInfo.nprimitive.
  done.
Qed.

End ECPShellInfoFacts.

(** * ECP basis assembly: the unique-primitive pool in full *)

Module ECPPoolMore.
Import ECPBasisSet ECPLayout Map2Facts ECPPoolFacts.

Lemma length_column {A : Type} (rd : ECPShellInfo.t → nat → A) (s : ECPShellInfo.t) :
  length (column rd s) = ECPShellInfo.nprimitive s.
Proof. unfold column. by rewrite length_fmap, length_seq. Qed.

Lemma length_flat_column {A : Type} (rd : ECPShellInfo.t → nat → A)
    (shells : list ECPShellInfo.t) :
  length (flat_column rd shells) = total_primitives shells.
Proof.
  unfold flat_column, total_primitives.
  induction shells as [|s shells IH]; [done|].
  rewrite bind_cons, length_app, IH, length_column. done.
Qed.

Lemma length_flat_entries {A : Type} (rd : ECPShellInfo.t → nat → A)
    (es : list (string * string * list ECPShellInfo.t)) :
  length (es ≫= λ e, flat_column rd e.2) = entries_primitives es.
Proof.
  unfold entries_primitives. induction es as [|e es IH]; [done|].
  rewrite bind_cons, length_app, IH, length_flat_column. done.
Qed.

Lemma flat_subls_column (shells : list ECPShellInfo.t) :
  flat_subls shells = flat_column ECPShellInfo.subl shells.
Proof. done. Qed.

Section Column.
Context {A : Type} (col : Pool → list A) (rd : ECPShellInfo.t → nat → A).
Hypothesis col_push :
  ∀ sh prim p, col (push_primitive sh prim p) = col p ++ [rd sh prim].
Hypothesis col_start : ∀ b l p, col (mark_start b l p) = col p.
Hypothesis col_end : ∀ b l p, col (mark_end b l p) = col p.

Lemma col_push_primitives (sh : ECPShellInfo.t) (prims : list nat) (p : Pool) :
  col (foldl (λ acc prim, push_primitive sh prim acc) p prims)
  = col p ++ (rd sh <$> prims).
Proof.
  revert p. induction prims as [|prim prims IH]; intros p; simpl.
  - by rewrite app_nil_r.
  - rewrite IH, col_push. by rewrite <-app_assoc.
Qed.

Lemma col_push_shells (shells : list ECPShellInfo.t) (p : Pool) :
  col (foldl push_shell p shells) = col p ++ flat_column rd shells.
Proof.
  revert p. induction shells as [|s shells IH]; intros p; cbn [foldl].
  - unfold flat_column. simpl. by rewrite app_nil_r.
  - rewrite IH. unfold push_shell, for_loop. rewrite Nat.sub_0_r.
    rewrite col_push_primitives. unfold flat_column. rewrite bind_cons.
    by rewrite <-app_assoc.
Qed.

Lemma col_push_entries (es : list (string * string * list ECPShellInfo.t)) (p : Pool) :
  col (foldl push_entry p es) = col p ++ (es ≫= λ e, flat_column rd e.2).
Proof.
  revert p. induction es as [|[[b l] shells] es IH]; intros p; cbn [foldl].
  - simpl. by rewrite app_nil_r.
  - rewrite IH. unfold push_entry. rewrite col_end, col_push_shells, col_start.
    rewrite bind_cons. by rewrite <-app_assoc.
Qed.

(** The array of a constructed pool has one element per primitive. *)
Lemma col_length (shell_map : ShellMap) :
  col empty_pool = [] →
  length (col (unique_primitives shell_map))
  = entries_primitives (Map2.entries shell_map).
Proof.
  intros H0. unfold unique_primitives.
  rewrite col_push_entries, H0. simpl. apply length_flat_entries.
Qed.

End Column.

(** The counter of the first loop. *)
Lemma n_uprimitive_entries (es : list (string * string * list ECPShellInfo.t)) (p : Pool) :
  n_uprimitive_ (foldl push_entry p es) = n_uprimitive_ p + entries_primitives es.
Proof.
  revert p. induction es as [|[[b l] shells] es IH]; intros p; cbn [foldl].
  - unfold entries_primitives. simpl. lia.
  - rewrite IH. destruct (push_entry_layout p b l shells) as (_ & -> & _).
    rewrite flat_subls_column, length_flat_column.
    unfold entries_primitives. simpl. lia.
Qed.

Lemma entries_primitives_app (es1 es2 : list (string * string * list ECPShellInfo.t)) :
  entries_primitives (es1 ++ es2) = entries_primitives es1 + entries_primitives es2.
Proof. unfold entries_primitives. apply sum_list_with_app. Qed.

Lemma entries_primitives_cons (e : string * string * list ECPShellInfo.t)
    (es : list (string * string * list ECPShellInfo.t)) :
  entries_primitives (e :: es) = total_primitives e.2 + entries_primitives es.
Proof. done. Qed.

Lemma push_entry_lengths (p : Pool) (e : string * string * list ECPShellInfo.t) :
  length (usubls p) = n_uprimitive_ p →
  length (usubls (push_entry p e)) = n_uprimitive_ (push_entry p e)
  ∧ n_uprimitive_ (push_entry p e) = n_uprimitive_ p + total_primitives e.2.
Proof.
  destruct e as [[b l] shells]. intros Hlen.
  destruct (push_entry_layout p b l shells) as (-> & -> & _).
  rewrite length_app, flat_subls_column, length_flat_column. simpl. lia.
Qed.

(** The range recorded for an entry starts after the primitives of the
    entries visited before it. *)
Lemma ranges_by_position (es es1 es2 : list (string * string * list ECPShellInfo.t))
    (b l : string) (shells : list ECPShellInfo.t) (p : Pool) :
  NoDup es.*1 →
  length (usubls p) = n_uprimitive_ p →
  es = es1 ++ (b, l, shells) :: es2 →
  Map2.find (primitive_start (foldl push_entry p es)) b l
  = Some (n_uprimitive_ p + entries_primitives es1)
  ∧ Map2.find (primitive_end (foldl push_entry p es)) b l
    = Some (n_uprimitive_ p + entries_primitives es1 + total_primitives shells).
Proof.
  revert es p. induction es1 as [|e0 es1 IH]; intros es p Hnd Hlen ->.
  - rewrite app_nil_l in *. rewrite fmap_cons in Hnd.
    apply NoDup_cons in Hnd as [Hfresh Hnd]. cbn [foldl fst] in *.
    destruct (push_entry_lengths p (b, l, shells) Hlen) as [Hlen1 _].
    destruct (push_entries_layout es2 (push_entry p (b, l, shells)) Hnd Hlen1)
      as (_ & _ & _ & Hout).
    destruct (Hout b l Hfresh) as [-> ->].
    destruct (push_entry_layout p b l shells) as (_ & _ & -> & ->).
    rewrite !find_assign, !decide_True by done.
    rewrite flat_subls_column, length_flat_column.
    unfold entries_primitives. simpl. by rewrite Nat.add_0_r.
  - rewrite <-app_comm_cons, fmap_cons in Hnd. apply NoDup_cons in Hnd as [_ Hnd].
    destruct (push_entry_lengths p e0 Hlen) as [Hlen1 Hn1].
    rewrite <-app_comm_cons. cbn [foldl].
    destruct (IH _ (push_entry p e0) Hnd Hlen1 eq_refl) as [-> ->].
    rewrite Hn1, entries_primitives_cons. split; f_equal; lia.
Qed.

(** X10. The ranges of the constructor: for a key of the shell map the range
    is as long as the primitives of its shells and ends inside the pool;
    the ranges of two different keys do not overlap; a key that is not in
    the map has no range. *)
Theorem unique_primitives_ranges (shell_map : ShellMap) :
  let p := unique_primitives shell_map in
  (∀ b l shells, Map2.find shell_map b l = Some shells →
     ∃ first, Map2.find (primitive_start p) b l = Some first
              ∧ Map2.find (primitive_end p) b l
                = Some (first + total_primitives shells)
              ∧ first + total_primitives shells ≤ n_uprimitive_ p)
  ∧ (∀ b1 l1 b2 l2 first1 last1 first2 last2,
       (b1, l1) ≠ (b2, l2) →
       Map2.find (primitive_start p) b1 l1 = Some first1 →
       Map2.find (primitive_end p) b1 l1 = Some last1 →
       Map2.find (primitive_start p) b2 l2 = Some first2 →
       Map2.find (primitive_end p) b2 l2 = Some last2 →
       last1 ≤ first2 ∨ last2 ≤ first1)
  ∧ (∀ b l, Map2.find shell_map b l = None →
       Map2.find (primitive_start p) b l = None
       ∧ Map2.find (primitive_end p) b l = None).
Proof.
  intros p. subst p. unfold unique_primitives.
  pose proof (NoDup_entries_keys shell_map) as Hnd.
  assert (Hin : ∀ b l shells,
            Map2.find shell_map b l = Some shells → (b, l, shells) ∈ Map2.entries shell_map).
  { intros b l shells. apply elem_of_entries. }
  destruct (unique_primitives_layout shell_map) as [_ Hnone].
  unfold unique_primitives in Hnone.
  remember (Map2.entries shell_map) as es eqn:Hes_def. clear Hes_def.
  assert (Hpos : ∀ es1 b l shells es2, es = es1 ++ (b, l, shells) :: es2 →
            Map2.find (primitive_start (foldl push_entry empty_pool es)) b l
            = Some (entries_primitives es1)
            ∧ Map2.find (primitive_end (foldl push_entry empty_pool es)) b l
              = Some (entries_primitives es1 + total_primitives shells)).
  { intros es1 b l shells es2 Hes.
    by destruct (ranges_by_position es es1 es2 b l shells empty_pool Hnd eq_refl Hes). }
  assert (Hn : n_uprimitive_ (foldl push_entry empty_pool es) = entries_primitives es).
  { by rewrite n_uprimitive_entries. }
  split_and!.
  - intros b l shells Hf%Hin.
    apply list_elem_of_split in Hf as (es1 & es2 & Hes).
    destruct (Hpos es1 b l shells es2 Hes) as [Hs He].
    exists (entries_primitives es1). split_and!; [done..|].
    rewrite Hn, Hes, entries_primitives_app, entries_primitives_cons.
    simpl. lia.
  - intros b1 l1 b2 l2 first1 last1 first2 last2 Hne Hs1 He1 Hs2 He2.
    destruct (Map2.find shell_map b1 l1) as [sh1|] eqn:Hf1;
      [|destruct (Hnone b1 l1 Hf1); congruence].
    destruct (Map2.find shell_map b2 l2) as [sh2|] eqn:Hf2;
      [|destruct (Hnone b2 l2 Hf2); congruence].
    apply Hin in Hf1. apply Hin in Hf2.
    apply list_elem_of_split in Hf1 as (es1 & es2 & Hes).
    destruct (Hpos es1 b1 l1 sh1 es2 Hes) as [Hs1' He1'].
    rewrite Hes in Hf2. apply elem_of_app in Hf2 as [Hf2|Hf2].
    + apply list_elem_of_split in Hf2 as (m1 & m2 & ->).
      destruct (Hpos m1 b2 l2 sh2 (m2 ++ (b1, l1, sh1) :: es2)) as [Hs2' He2'].
      { rewrite Hes. by rewrite <-app_assoc. }
      right. rewrite entries_primitives_app, entries_primitives_cons in Hs1'.
      simpl in Hs1'. simplify_eq. lia.
    + apply elem_of_cons in Hf2 as [Heq|Hf2]; [by simplify_eq|].
      apply list_elem_of_split in Hf2 as (m1 & m2 & ->).
      destruct (Hpos (es1 ++ (b1, l1, sh1) :: m1) b2 l2 sh2 m2) as [Hs2' He2'].
      { rewrite Hes. by rewrite <-app_assoc. }
      left. rewrite entries_primitives_app, entries_primitives_cons in Hs2'.
      simpl in Hs2'. simplify_eq. lia.
  - intros b l Hf. by apply Hnone.
Qed.


Lemma flat_entries_const {A : Type} (c : A)
    (es : list (string * string * list ECPShellInfo.t)) :
  (es ≫= λ e, flat_column (λ _ _, c) e.2) = replicate (entries_primitives es) c.
Proof.
  assert (Hmap : ∀ l : list nat, ((λ _, c) <$> l) = replicate (length l) c).
  { induction l as [|x l IH]; [done|]. by rewrite fmap_cons, IH. }
  assert (Hflat : ∀ ss, flat_column (λ _ _, c) ss = replicate (total_primitives ss) c).
  { induction ss as [|s ss IH]; [done|].
    unfold flat_column, total_primitives in *. rewrite bind_cons, IH. simpl.
    rewrite replicate_add. f_equal. unfold column. cbv beta.
    by rewrite Hmap, length_seq. }
  induction es as [|e es IH]; [done|].
  rewrite bind_cons, IH, Hflat, entries_primitives_cons. by rewrite replicate_add.
Qed.

(** X11. The six arrays of the pool have one element per primitive of the
    map, [n_uprimitive_] in all, and the array of ERD coefficients holds
    zeros. *)
Theorem unique_primitives_sizes (shell_map : ShellMap) :
  let p := unique_primitives shell_map in
  n_uprimitive_ p = entries_primitives (Map2.entries shell_map)
  ∧ length (uexps p) = n_uprimitive_ p
  ∧ length (ucoefs p) = n_uprimitive_ p
  ∧ length (uoriginal_coefs p) = n_uprimitive_ p
  ∧ length (uerd_coefs p) = n_uprimitive_ p
  ∧ length (uns p) = n_uprimitive_ p
  ∧ length (usubls p) = n_uprimitive_ p
  ∧ uerd_coefs p = replicate (n_uprimitive_ p) 0%float.
Proof.
  intros p. subst p.
  assert (Hn : n_uprimitive_ (unique_primitives shell_map)
               = entries_primitives (Map2.entries shell_map)).
  { unfold unique_primitives. by rewrite n_uprimitive_entries. }
  rewrite Hn. split_and!; [done| | | | | | |].
  - by apply (col_length uexps ECPShellInfo.exp).
  - by apply (col_length ucoefs ECPShellInfo.coef).
  - by apply (col_length uoriginal_coefs ECPShellInfo.original_coef).
  - by apply (col_length uerd_coefs (λ _ _, 0%float)).
  - by apply (col_length uns ECPShellInfo.n).
  - by apply (col_length usubls ECPShellInfo.subl).
  - unfold unique_primitives.
    rewrite (col_push_entries uerd_coefs (λ _ _, 0%float)) by done.
    apply flat_entries_const.
Qed.

(** The slice of a key in the four arrays that the storage shells point
    into. *)
Lemma entry_holds_at (shell_map : ShellMap) (b l : string)
    (shells : list ECPShellInfo.t) :
  Map2.find shell_map b l = Some shells →
  holds_at (unique_primitives shell_map)
           (Map2.at_ 0 (primitive_start (unique_primitives shell_map)) b l) shells.
Proof.
  intros Hf.
  pose proof Hf as Hin. apply elem_of_entries in Hin.
  apply list_elem_of_split in Hin as (es1 & es2 & Hes).
  assert (Hs : Map2.find (primitive_start (unique_primitives shell_map)) b l
               = Some (entries_primitives es1)).
  { unfold unique_primitives.
    by destruct (ranges_by_position _ es1 es2 b l shells empty_pool
                   (NoDup_entries_keys shell_map) eq_refl Hes) as [-> _]. }
  assert (Hle : entries_primitives es1 + total_primitives shells
                ≤ n_uprimitive_ (unique_primitives shell_map)).
  { unfold unique_primitives.
    rewrite n_uprimitive_entries, Hes, entries_primitives_app, entries_primitives_cons.
    simpl. lia. }
  unfold Map2.at_. rewrite Hs. simpl.
  assert (Hcol : ∀ (A : Type) (col : Pool → list A) (rd : ECPShellInfo.t → nat → A),
            (∀ sh prim p, col (push_primitive sh prim p) = col p ++ [rd sh prim]) →
            (∀ b l p, col (mark_start b l p) = col p) →
            (∀ b l p, col (mark_end b l p) = col p) →
            col empty_pool = [] →
            ∃ A0 C, col (unique_primitives shell_map) = A0 ++ flat_column rd shells ++ C
                    ∧ length A0 = entries_primitives es1).
  { intros A col rd H1 H2 H3 H0. unfold unique_primitives.
    rewrite (col_push_entries col rd H1 H2 H3), H0, Hes. simpl.
    rewrite bind_app, bind_cons. simpl.
    eexists _, _. split; [reflexivity|].
    by rewrite length_flat_entries. }
  unfold holds_at. split_and!; [done|..]; by apply Hcol.
Qed.

End ECPPoolMore.

(** * ECP basis assembly: the index tables *)

Module ECPTablesFacts.
Import ECPBasisSet ECPLayout Map2Facts ECPPoolFacts ECPPoolMore.

Lemma prefix_sums_app (from : nat) (l1 l2 : list nat) :
  prefix_sums from (l1 ++ l2)
  = prefix_sums from l1 ++ prefix_sums (from + sum_list l1) l2.
Proof.
  revert from. induction l1 as [|x l1 IH]; intros from; simpl.
  - by rewrite Nat.add_0_r.
  - rewrite IH. do 3 f_equal. lia.
Qed.

Lemma sum_list_fmap_with {A : Type} (f : A → nat) (l : list A) :
  sum_list (f <$> l) = sum_list_with f l.
Proof. induction l as [|x l IH]; csimpl; [done|]. by rewrite IH. Qed.

Lemma first_offsets_app (size : ECPShellInfo.t → nat) (from : nat)
    (l1 l2 : list ECPShellInfo.t) :
  first_offsets size from (l1 ++ l2)
  = first_offsets size from l1 ++ first_offsets size (from + sum_list_with size l1) l2.
Proof.
  unfold first_offsets. by rewrite fmap_app, prefix_sums_app, sum_list_fmap_with.
Qed.

Lemma owners_app (size : ECPShellInfo.t → nat) (k : nat) (l1 l2 : list ECPShellInfo.t) :
  owners size k (l1 ++ l2) = owners size k l1 ++ owners size (k + length l1) l2.
Proof.
  revert k. induction l1 as [|x l1 IH]; intros k; simpl.
  - by rewrite Nat.add_0_r.
  - rewrite IH, <-app_assoc. do 3 f_equal. lia.
Qed.

Lemma built_shells_app (pool : Pool) (n ustart k bf : nat) (l1 l2 : list ECPShellInfo.t) :
  built_shells pool n ustart k bf (l1 ++ l2)
  = built_shells pool n ustart k bf l1
    ++ built_shells pool n ustart (k + total_primitives l1)
         (bf + sum_list_with ECPShellInfo.nfunction l1) l2.
Proof.
  revert k bf. induction l1 as [|x l1 IH]; intros k bf; simpl.
  - unfold total_primitives. simpl. by rewrite !Nat.add_0_r.
  - rewrite IH. unfold total_primitives. simpl. do 3 f_equal; lia.
Qed.

(** The loop over the shells of one atom, in closed form. *)
Lemma assemble_shells_closed (pool : Pool) (n ustart : nat)
    (ss : list ECPShellInfo.t) (T : Tables) (k : nat) :
  foldl (assemble_shell pool n ustart) (T, k) ss
  = (shells_appended pool n ustart T k ss, k + total_primitives ss).
Proof.
  revert T k. induction ss as [|s ss IH]; intros T k.
  - destruct T. unfold shells_appended, total_primitives, first_offsets, centers.
    simpl. rewrite !app_nil_r, !Nat.add_0_r. done.
  - cbn [foldl]. unfold assemble_shell at 2. rewrite IH.
    unfold shells_appended, total_primitives, first_offsets, centers. simpl.
    rewrite <-!app_assoc. simpl.
    f_equal; [|lia].
    f_equal; try done; try lia; repeat (f_equal; try lia).
Qed.

Lemma consumed_total (basistype : string) (mol : Molecule.t) (shell_map : ShellMap)
    (n : nat) :
  consumed basistype mol shell_map n
  = total_primitives (shells_of_atom basistype mol shell_map n).
Proof. unfold consumed, total_primitives. apply sum_list_fmap_with. Qed.

(** The body of the atom loop with the ranges of the constructor, in
    closed form. *)
Lemma assemble_atom_closed (basistype : string) (mol : Molecule.t)
    (shell_map : ShellMap) (n : nat) (T : Tables) :
  assemble_atom basistype mol shell_map (unique_primitives shell_map) n T
  = Returned (atom_appended basistype mol shell_map (unique_primitives shell_map) n T).
Proof.
  pose proof (constructor_counts_agree basistype mol shell_map n) as Hagree.
  rewrite consumed_total in Hagree.
  unfold assemble_atom, atom_appended, ustart_of.
  fold (shells_of_atom basistype mol shell_map n).
  rewrite assemble_shells_closed. simpl.
  unfold range_size in Hagree. rewrite bool_decide_eq_false_2; [done|].
  intros Hne. apply Hne. exact Hagree.
Qed.

Lemma fst_tagged {A : Type} (n : nat) (l : list A) :
  ((λ s, (n, s)) <$> l).*1 = replicate (length l) n.
Proof. induction l as [|x l IH]; csimpl; [done|]. by rewrite IH. Qed.

Lemma snd_tagged {A : Type} (n : nat) (l : list A) :
  ((λ s, (n, s)) <$> l).*2 = l.
Proof. induction l as [|x l IH]; csimpl; [done|]. by rewrite IH. Qed.

(** The atom loop with the ranges of the constructor, in closed form. *)
Lemma assemble_run_closed (basistype : string) (mol : Molecule.t)
    (shell_map : ShellMap) (ns : list nat) (T : Tables) :
  foldl (λ (acc : Outcome Tables) (n : nat),
           match acc with
           | Returned T =>
               assemble_atom basistype mol shell_map (unique_primitives shell_map) n T
           | Thrown what => Thrown what
           end) (Returned T) ns
  = Returned (run_appended basistype mol shell_map (unique_primitives shell_map) T ns).
Proof.
  revert T. induction ns as [|n ns IH]; intros T.
  - destruct T. unfold run_appended, first_offsets, centers, coordinates. simpl.
    rewrite !app_nil_r, !Nat.add_0_r. done.
  - cbn [foldl]. rewrite assemble_atom_closed, IH. f_equal.
    unfold run_appended, atom_appended, shells_appended, shells_of, descriptors_of,
           nshells_of, coordinates.
    rewrite !bind_cons, !fmap_cons, !fmap_app. simpl.
    rewrite !first_offsets_app, !owners_app, !foldl_app, !sum_list_with_app, !length_app.
    unfold centers. rewrite !bind_app. rewrite <-!app_assoc. simpl.
    rewrite ?fmap_app, <-?app_assoc, fst_tagged.
    f_equal; try done; try lia; repeat (f_equal; try lia).
Qed.

(** *** Lengths of the closed forms *)

Lemma length_prefix_sums (from : nat) (sizes : list nat) :
  length (prefix_sums from sizes) = length sizes.
Proof.
  revert from. induction sizes as [|x sizes IH]; intros from; simpl; [done|].
  by rewrite IH.
Qed.

Lemma length_first_offsets (size : ECPShellInfo.t → nat) (from : nat)
    (ss : list ECPShellInfo.t) :
  length (first_offsets size from ss) = length ss.
Proof. unfold first_offsets. by rewrite length_prefix_sums, length_fmap. Qed.

Lemma length_owners (size : ECPShellInfo.t → nat) (k : nat) (ss : list ECPShellInfo.t) :
  length (owners size k ss) = sum_list_with size ss.
Proof.
  revert k. induction ss as [|s ss IH]; intros k; simpl; [done|].
  by rewrite length_app, length_replicate, IH.
Qed.

Lemma descriptors_of_cons (basistype : string) (mol : Molecule.t)
    (shell_map : ShellMap) (n : nat) (ns : list nat) :
  descriptors_of basistype mol shell_map (n :: ns)
  = ((λ s, (n, s)) <$> shells_of_atom basistype mol shell_map n)
    ++ descriptors_of basistype mol shell_map ns.
Proof. done. Qed.

Lemma descriptors_of_app (basistype : string) (mol : Molecule.t)
    (shell_map : ShellMap) (ns1 ns2 : list nat) :
  descriptors_of basistype mol shell_map (ns1 ++ ns2)
  = descriptors_of basistype mol shell_map ns1
    ++ descriptors_of basistype mol shell_map ns2.
Proof. unfold descriptors_of. apply bind_app. Qed.

Lemma descriptors_of_shells (basistype : string) (mol : Molecule.t)
    (shell_map : ShellMap) (ns : list nat) :
  (descriptors_of basistype mol shell_map ns).*2 = shells_of basistype mol shell_map ns.
Proof.
  unfold shells_of. induction ns as [|n ns IH]; [done|].
  rewrite descriptors_of_cons, fmap_app, IH, snd_tagged. by rewrite bind_cons.
Qed.

Lemma length_shells_of (basistype : string) (mol : Molecule.t)
    (shell_map : ShellMap) (ns : list nat) :
  length (shells_of basistype mol shell_map ns)
  = sum_list (nshells_of basistype mol shell_map ns).
Proof.
  unfold shells_of, nshells_of. induction ns as [|n ns IH]; [done|].
  rewrite bind_cons, length_app, fmap_cons, IH. done.
Qed.

Lemma length_centers (size : ECPShellInfo.t → nat) (ds : list (nat * ECPShellInfo.t)) :
  length (centers size ds) = sum_list_with size ds.*2.
Proof.
  unfold centers. induction ds as [|d ds IH]; [done|].
  rewrite bind_cons, length_app, length_replicate, IH. done.
Qed.

Lemma length_coordinates (mol : Molecule.t) (ns : list nat) :
  length (coordinates mol ns) = 3 * length ns.
Proof.
  unfold coordinates. induction ns as [|n ns IH]; [done|].
  rewrite bind_cons, length_app, IH. simpl. lia.
Qed.

(** *** What the storage shells keep of their descriptors *)

Lemma built_shells_fields (pool : Pool) (n ustart k bf : nat)
    (ss : list ECPShellInfo.t) :
  GaussianShell.nprimitive_ <$> (GaussianECPShell.base <$> built_shells pool n ustart k bf ss)
  = ECPShellInfo.nprimitive <$> ss
  ∧ GaussianShell.l_ <$> (GaussianECPShell.base <$> built_shells pool n ustart k bf ss) = ECPShellInfo.l_ <$> ss
  ∧ GaussianShell.start_ <$> (GaussianECPShell.base <$> built_shells pool n ustart k bf ss)
    = first_offsets ECPShellInfo.nfunction bf ss
  ∧ GaussianShell.nc_ <$> (GaussianECPShell.base <$> built_shells pool n ustart k bf ss)
    = replicate (length ss) n.
Proof.
  revert k bf. induction ss as [|s ss IH]; intros k bf; [done|].
  destruct (IH (k + ECPShellInfo.nprimitive s) (bf + ECPShellInfo.nfunction s))
    as (H1 & H2 & H3 & H4).
  cbn [built_shells]. rewrite !fmap_cons, H1, H2, H3, H4. done.
Qed.

Lemma built_atoms_fields (basistype : string) (mol : Molecule.t)
    (shell_map : ShellMap) (pool : Pool) (bf : nat) (ns : list nat) :
  let built := GaussianECPShell.base <$> built_atoms basistype mol shell_map pool bf ns in
  let ss := shells_of basistype mol shell_map ns in
  GaussianShell.nprimitive_ <$> built = ECPShellInfo.nprimitive <$> ss
  ∧ GaussianShell.l_ <$> built = ECPShellInfo.l_ <$> ss
  ∧ GaussianShell.start_ <$> built = first_offsets ECPShellInfo.nfunction bf ss
  ∧ GaussianShell.nc_ <$> built = (descriptors_of basistype mol shell_map ns).*1.
Proof.
  revert bf. induction ns as [|n ns IH]; intros bf; [done|].
  destruct (IH (bf + sum_list_with ECPShellInfo.nfunction
                       (shells_of_atom basistype mol shell_map n)))
    as (H1 & H2 & H3 & H4).
  destruct (built_shells_fields pool n (ustart_of basistype mol pool n) 0 bf
              (shells_of_atom basistype mol shell_map n)) as (G1 & G2 & G3 & G4).
  cbn [built_atoms]. cbv zeta. unfold shells_of in *.
  rewrite bind_cons, descriptors_of_cons, !fmap_app, first_offsets_app, fst_tagged.
  rewrite H1, H2, H3, H4, G1, G2, G3, G4. done.
Qed.

(** *** The sizing loop *)

Lemma count_shells_closed (c : Counts) (ss : list ECPShellInfo.t) :
  foldl count_shell c ss
  = {| c_n_shells := c_n_shells c + length ss;
       c_nprimitive := c_nprimitive c + total_primitives ss;
       c_nao := c_nao c + sum_list_with ECPShellInfo.ncartesian ss;
       c_nbf := c_nbf c + sum_list_with ECPShellInfo.nfunction ss |}.
Proof.
  revert c. induction ss as [|s ss IH]; intros c.
  - destruct c. unfold total_primitives. simpl. by rewrite !Nat.add_0_r.
  - cbn [foldl]. rewrite IH. unfold count_shell, total_primitives. simpl.
    f_equal; lia.
Qed.

Lemma count_run_closed (basistype : string) (mol : Molecule.t)
    (shell_map : ShellMap) (ns : list nat) (c : Counts) :
  foldl (λ c n, foldl count_shell c (shells_of_atom basistype mol shell_map n)) c ns
  = {| c_n_shells := c_n_shells c + length (shells_of basistype mol shell_map ns);
       c_nprimitive :=
         c_nprimitive c + total_primitives (shells_of basistype mol shell_map ns);
       c_nao := c_nao c + sum_list_with ECPShellInfo.ncartesian
                            (shells_of basistype mol shell_map ns);
       c_nbf := c_nbf c + sum_list_with ECPShellInfo.nfunction
                            (shells_of basistype mol shell_map ns) |}.
Proof.
  revert c. induction ns as [|n ns IH]; intros c.
  - destruct c. unfold total_primitives, shells_of. simpl. by rewrite !Nat.add_0_r.
  - cbn [foldl]. rewrite IH, count_shells_closed. unfold shells_of, total_primitives.
    rewrite bind_cons, length_app, !sum_list_with_app. simpl. f_equal; lia.
Qed.

(** The constructor in closed form: the pool of the first loop, the
    counters of the second and the tables of the third. *)
Lemma make_closed (basistype : string) (mol : Molecule.t) (shell_map : ShellMap) :
  let ns := seq 0 (Molecule.natom mol) in
  let ss := shells_of basistype mol shell_map ns in
  ∃ bs, make basistype mol shell_map = Returned bs
        ∧ tables bs = run_appended basistype mol shell_map
                        (unique_primitives shell_map) empty_tables ns
        ∧ n_shells_ bs = length ss
        ∧ nprimitive_ bs = total_primitives ss
        ∧ nao_ bs = sum_list_with ECPShellInfo.ncartesian ss
        ∧ nbf_ bs = sum_list_with ECPShellInfo.nfunction ss
        ∧ n_uprimitive bs = n_uprimitive_ (unique_primitives shell_map)
        ∧ name_ bs = basistype.
Proof.
  intros ns ss. unfold make, assemble_atoms, count_all, for_loop.
  rewrite Nat.sub_0_r, assemble_run_closed, count_run_closed.
  eexists. split; [reflexivity|]. simpl. done.
Qed.

(** X12. The constructor never throws: the primitive ranges that its first
    loop records always agree with the primitives that its assembly loop
    consumes, so the check of the assembly loop cannot fail.  The
    counters of the sizing loop are the totals over the descriptors that
    the assembly loop visits. *)
Theorem constructor_never_throws (basistype : string) (mol : Molecule.t)
    (shell_map : ShellMap) :
  ∃ bs, make basistype mol shell_map = Returned bs
        ∧ name_ bs = basistype
        ∧ n_shells_ bs = length (descriptors basistype mol shell_map)
        ∧ nprimitive_ bs
          = sum_list_with (λ d, ECPShellInfo.nprimitive d.2)
                          (descriptors basistype mol shell_map)
        ∧ nao_ bs
          = sum_list_with (λ d, ECPShellInfo.ncartesian d.2)
                          (descriptors basistype mol shell_map)
        ∧ nbf_ bs
          = sum_list_with (λ d, ECPShellInfo.nfunction d.2)
                          (descriptors basistype mol shell_map).
Proof.
  destruct (make_closed basistype mol shell_map)
    as (bs & Hmake & _ & Hn & Hp & Hao & Hbf & _ & Hname).
  exists bs. unfold descriptors.
  rewrite Hn, Hp, Hao, Hbf, <-descriptors_of_shells. unfold total_primitives.
  rewrite length_fmap.
  assert (Hsum : ∀ (f : ECPShellInfo.t → nat) (ds : list (nat * ECPShellInfo.t)),
            sum_list_with f ds.*2 = sum_list_with (λ d, f d.2) ds).
  { intros f ds. induction ds as [|d ds IH]; [done|].
    rewrite fmap_cons. cbn [sum_list_with]. by rewrite IH. }
  by rewrite !Hsum.
Qed.

(** X13. The arrays that the constructor allocates from the counters of its
    sizing loop are filled exactly by its assembly loop, and the per-atom
    tables have one entry per atom. *)
Theorem constructor_fills_its_arrays (basistype : string) (mol : Molecule.t)
    (shell_map : ShellMap) (bs : t) :
  make basistype mol shell_map = Returned bs →
  let T := tables bs in
  length (shells_ T) = n_shells_ bs
  ∧ length (shell_first_ao_ T) = n_shells_ bs
  ∧ length (shell_first_basis_function_ T) = n_shells_ bs
  ∧ length (shell_center_ T) = n_shells_ bs
  ∧ length (ao_to_shell_ T) = nao_ bs
  ∧ length (function_to_shell_ T) = nbf_ bs
  ∧ length (function_center_ T) = nbf_ bs
  ∧ length (center_to_nshell_ T) = Molecule.natom mol
  ∧ length (center_to_shell_ T) = Molecule.natom mol
  ∧ length (xyz_ T) = 3 * Molecule.natom mol
  ∧ sum_list (center_to_nshell_ T) = n_shells_ bs
  ∧ sum_list_with GaussianShell.nprimitive_ (shells_ T) = nprimitive_ bs.
Proof.
  intros Hmake T. subst T.
  destruct (make_closed basistype mol shell_map)
    as (bs' & Hmake' & Ht & Hn & Hp & Hao & Hbf & _).
  rewrite Hmake in Hmake'. inversion Hmake'; subst bs'.
  rewrite Ht, Hn, Hp, Hao, Hbf. unfold run_appended. simpl.
  destruct (built_atoms_fields basistype mol shell_map (unique_primitives shell_map) 0
              (seq 0 (Molecule.natom mol))) as (F1 & _).
  cbv zeta in F1.
  split_and!.
  - apply (f_equal length) in F1. rewrite !length_fmap in F1.
    by rewrite length_fmap.
  - apply length_first_offsets.
  - apply length_first_offsets.
  - by rewrite length_fmap, <-descriptors_of_shells, length_fmap.
  - apply length_owners.
  - apply length_owners.
  - by rewrite length_centers, descriptors_of_shells.
  - unfold nshells_of. by rewrite length_fmap, length_seq.
  - unfold nshells_of. by rewrite length_prefix_sums, length_fmap, length_seq.
  - by rewrite length_coordinates, length_seq.
  - by rewrite length_shells_of.
  - rewrite <-sum_list_fmap_with, F1. apply sum_list_fmap_with.
Qed.

(** *** Looking an index up in the closed forms *)

Lemma prefix_sums_lookup (from : nat) (sizes : list nat) (i x : nat) :
  sizes !! i = Some x →
  prefix_sums from sizes !! i = Some (from + sum_list (take i sizes)).
Proof.
  revert from i. induction sizes as [|y sizes IH]; intros from i Hi; [done|].
  destruct i as [|i]; simpl.
  - f_equal. lia.
  - rewrite (IH _ _ Hi). f_equal. lia.
Qed.

Lemma first_offsets_lookup (size : ECPShellInfo.t → nat) (from : nat)
    (ss : list ECPShellInfo.t) (k : nat) (s : ECPShellInfo.t) :
  ss !! k = Some s →
  first_offsets size from ss !! k = Some (from + sum_list_with size (take k ss)).
Proof.
  intros Hk. unfold first_offsets.
  rewrite (prefix_sums_lookup _ _ k (size s)) by (by rewrite list_lookup_fmap, Hk).
  by rewrite <-fmap_take, sum_list_fmap_with.
Qed.

Lemma owners_lookup (size : ECPShellInfo.t → nat) (k0 : nat)
    (ss : list ECPShellInfo.t) (k : nat) (s : ECPShellInfo.t) (t : nat) :
  ss !! k = Some s → t < size s →
  owners size k0 ss !! (sum_list_with size (take k ss) + t) = Some (k0 + k).
Proof.
  revert k0 k. induction ss as [|s0 ss IH]; intros k0 k Hk Ht; [done|].
  destruct k as [|k]; simpl in *.
  - inversion Hk; subst. rewrite lookup_app_l by (rewrite length_replicate; lia).
    rewrite lookup_replicate_2 by done. f_equal. lia.
  - rewrite lookup_app_r by (rewrite length_replicate; lia).
    rewrite length_replicate.
    replace (size s0 + sum_list_with size (take k ss) + t - size s0)
      with (sum_list_with size (take k ss) + t) by lia.
    rewrite (IH (S k0) k Hk Ht). f_equal. lia.
Qed.

Lemma centers_lookup (size : ECPShellInfo.t → nat) (ds : list (nat * ECPShellInfo.t))
    (k : nat) (d : nat * ECPShellInfo.t) (t : nat) :
  ds !! k = Some d → t < size d.2 →
  centers size ds !! (sum_list_with size (take k ds.*2) + t) = Some d.1.
Proof.
  unfold centers. revert k. induction ds as [|d0 ds IH]; intros k Hk Ht; [done|].
  rewrite bind_cons. destruct k as [|k]; csimpl in *.
  - inversion Hk; subst. rewrite lookup_app_l by (rewrite length_replicate; lia).
    by rewrite lookup_replicate_2.
  - rewrite lookup_app_r by (rewrite length_replicate; lia).
    rewrite length_replicate.
    replace (size d0.2 + sum_list_with size (take k ds.*2) + t - size d0.2)
      with (sum_list_with size (take k ds.*2) + t) by lia.
    by apply IH.
Qed.

Lemma fst_as_centers (ds : list (nat * ECPShellInfo.t)) :
  ds.*1 = centers (λ _, 1) ds.
Proof.
  unfold centers. induction ds as [|d ds IH]; [done|].
  rewrite fmap_cons, bind_cons, IH. done.
Qed.

(** *** Order of the closed forms *)

Lemma nondecreasing_app (l1 l2 : list nat) :
  nondecreasing l1 → nondecreasing l2 →
  (∀ x y, x ∈ l1 → y ∈ l2 → x ≤ y) →
  nondecreasing (l1 ++ l2).
Proof.
  intros H1 H2 Hcross i j x y Hij Hi Hj.
  rewrite lookup_app in Hi, Hj.
  destruct (l1 !! i) as [xi|] eqn:Hi1; destruct (l1 !! j) as [xj|] eqn:Hj1;
    simplify_eq.
  - by eapply (H1 i j).
  - eapply Hcross; by eapply list_elem_of_lookup_2.
  - apply lookup_ge_None in Hi1. apply lookup_lt_Some in Hj1. lia.
  - apply lookup_ge_None in Hi1. apply lookup_ge_None in Hj1.
    eapply (H2 (i - length l1) (j - length l1)); [lia|done..].
Qed.

Lemma nondecreasing_replicate (n c : nat) : nondecreasing (replicate n c).
Proof.
  intros i j x y _ Hi Hj.
  apply lookup_replicate in Hi as [-> _]. by apply lookup_replicate in Hj as [-> _].
Qed.

Lemma owners_ordered (size : ECPShellInfo.t → nat) (k : nat) (ss : list ECPShellInfo.t) :
  Forall (λ x, k ≤ x < k + length ss) (owners size k ss)
  ∧ nondecreasing (owners size k ss).
Proof.
  revert k. induction ss as [|s ss IH]; intros k; simpl.
  - split; [constructor|]. by intros i j x y _ Hi.
  - destruct (IH (S k)) as [Hb Ho]. split.
    + apply Forall_app. split.
      * apply Forall_replicate. lia.
      * eapply Forall_impl; [exact Hb|]. intros x Hx. simpl in Hx. lia.
    + apply nondecreasing_app; [apply nondecreasing_replicate | done |].
      intros x y Hx%elem_of_replicate Hy. rewrite Forall_forall in Hb.
      specialize (Hb y Hy). simpl in Hb. lia.
Qed.

Lemma centers_app (size : ECPShellInfo.t → nat) (d1 d2 : list (nat * ECPShellInfo.t)) :
  centers size (d1 ++ d2) = centers size d1 ++ centers size d2.
Proof. unfold centers. apply bind_app. Qed.

Lemma centers_tagged (size : ECPShellInfo.t → nat) (n : nat) (ss : list ECPShellInfo.t) :
  centers size ((λ s, (n, s)) <$> ss) = replicate (sum_list_with size ss) n.
Proof.
  unfold centers. induction ss as [|s ss IH]; [done|].
  rewrite fmap_cons, bind_cons, IH. simpl. by rewrite replicate_add.
Qed.

Lemma centers_ordered (basistype : string) (mol : Molecule.t) (shell_map : ShellMap)
    (size : ECPShellInfo.t → nat) (a len : nat) :
  Forall (λ x, a ≤ x < a + len)
         (centers size (descriptors_of basistype mol shell_map (seq a len)))
  ∧ nondecreasing (centers size (descriptors_of basistype mol shell_map (seq a len))).
Proof.
  revert a. induction len as [|len IH]; intros a.
  - split; [constructor|]. by intros i j x y _ Hi.
  - destruct (IH (S a)) as [Hb Ho].
    cbn [seq]. rewrite descriptors_of_cons, centers_app, centers_tagged. split.
    + apply Forall_app. split.
      * apply Forall_replicate. lia.
      * eapply Forall_impl; [exact Hb|]. intros x Hx. simpl in Hx. lia.
    + apply nondecreasing_app; [apply nondecreasing_replicate | done |].
      intros x y Hx%elem_of_replicate Hy. rewrite Forall_forall in Hb.
      specialize (Hb y Hy). simpl in Hb. lia.
Qed.

(** *** The tables of a constructed basis set *)

Lemma make_tables (basistype : string) (mol : Molecule.t) (shell_map : ShellMap) (bs : t) :
  make basistype mol shell_map = Returned bs →
  tables bs = run_appended basistype mol shell_map (unique_primitives shell_map)
                empty_tables (seq 0 (Molecule.natom mol))
  ∧ n_shells_ bs = length (shells_of basistype mol shell_map (seq 0 (Molecule.natom mol)))
  ∧ n_uprimitive bs = n_uprimitive_ (unique_primitives shell_map).
Proof.
  intros Hmake.
  destruct (make_closed basistype mol shell_map)
    as (bs' & Hmake' & Ht & Hn & _ & _ & _ & Hu & _).
  rewrite Hmake in Hmake'. inversion Hmake'; subst bs'. done.
Qed.

(** X14. The index tables agree on every shell: for the [k]-th descriptor
    [s] that the assembly loop visits, on atom [n], the tables give [n] as
    the centre of shell [k]; the first basis function and the first
    atomic orbital of shell [k] are the numbers of functions and of
    orbitals of the shells before it; the storage shell starts at that
    function; and each of the [nfunction] functions (and [ncartesian]
    orbitals) from there on is mapped back to shell [k] and to atom [n]. *)
Theorem tables_locate_every_function (basistype : string) (mol : Molecule.t)
    (shell_map : ShellMap) (bs : t) (k n : nat) (s : ECPShellInfo.t) :
  make basistype mol shell_map = Returned bs →
  descriptors basistype mol shell_map !! k = Some (n, s) →
  let T := tables bs in
  let before := take k (descriptors basistype mol shell_map).*2 in
  let fbf := sum_list_with ECPShellInfo.nfunction before in
  let fao := sum_list_with ECPShellInfo.ncartesian before in
  shell_center_ T !! k = Some n
  ∧ shell_first_basis_function_ T !! k = Some fbf
  ∧ shell_first_ao_ T !! k = Some fao
  ∧ (GaussianShell.start_ <$> shells_ T) !! k = Some fbf
  ∧ (GaussianShell.nc_ <$> shells_ T) !! k = Some n
  ∧ (∀ t, t < ECPShellInfo.nfunction s →
       function_to_shell_ T !! (fbf + t) = Some k
       ∧ function_center_ T !! (fbf + t) = Some n)
  ∧ (∀ t, t < ECPShellInfo.ncartesian s → ao_to_shell_ T !! (fao + t) = Some k).
Proof.
  intros Hmake Hk T before fbf fao. subst T before fbf fao.
  destruct (make_tables _ _ _ _ Hmake) as (-> & _ & _).
  unfold descriptors in *.
  set (ns := seq 0 (Molecule.natom mol)) in *.
  assert (Hs : shells_of basistype mol shell_map ns !! k = Some s).
  { rewrite <-descriptors_of_shells, list_lookup_fmap, Hk. done. }
  rewrite descriptors_of_shells.
  destruct (built_atoms_fields basistype mol shell_map (unique_primitives shell_map) 0 ns)
    as (_ & _ & F3 & F4).
  cbv zeta in F3, F4.
  unfold run_appended. simpl. rewrite F3, F4.
  split_and!.
  - by rewrite list_lookup_fmap, Hk.
  - by rewrite (first_offsets_lookup _ _ _ _ _ Hs).
  - by rewrite (first_offsets_lookup _ _ _ _ _ Hs).
  - by rewrite (first_offsets_lookup _ _ _ _ _ Hs).
  - by rewrite list_lookup_fmap, Hk.
  - intros t Ht. split.
    + by rewrite (owners_lookup _ _ _ _ _ _ Hs Ht).
    + rewrite <-descriptors_of_shells.
      by rewrite (centers_lookup _ _ _ _ _ Hk Ht).
  - intros t Ht. by rewrite (owners_lookup _ _ _ _ _ _ Hs Ht).
Qed.

(** X15. The maps from functions and orbitals to shells and from functions
    and shells to atoms never decrease along their index, and they stay
    below the number of shells and of atoms. *)
Theorem tables_are_ordered (basistype : string) (mol : Molecule.t)
    (shell_map : ShellMap) (bs : t) :
  make basistype mol shell_map = Returned bs →
  let T := tables bs in
  nondecreasing (function_to_shell_ T)
  ∧ nondecreasing (ao_to_shell_ T)
  ∧ nondecreasing (function_center_ T)
  ∧ nondecreasing (shell_center_ T)
  ∧ Forall (λ x, x < n_shells_ bs) (function_to_shell_ T)
  ∧ Forall (λ x, x < n_shells_ bs) (ao_to_shell_ T)
  ∧ Forall (λ x, x < Molecule.natom mol) (function_center_ T)
  ∧ Forall (λ x, x < Molecule.natom mol) (shell_center_ T).
Proof.
  intros Hmake T. subst T.
  destruct (make_tables _ _ _ _ Hmake) as (-> & -> & _).
  unfold run_appended. simpl. rewrite fst_as_centers.
  set (ns := seq 0 (Molecule.natom mol)).
  destruct (owners_ordered ECPShellInfo.nfunction 0 (shells_of basistype mol shell_map ns))
    as [Hbf Hof].
  destruct (owners_ordered ECPShellInfo.ncartesian 0 (shells_of basistype mol shell_map ns))
    as [Hba Hoa].
  destruct (centers_ordered basistype mol shell_map ECPShellInfo.nfunction
              0 (Molecule.natom mol)) as [Hbc Hoc].
  destruct (centers_ordered basistype mol shell_map (λ _, 1)
              0 (Molecule.natom mol)) as [Hbs Hos].
  split_and!; try done.
  all: eapply Forall_impl; [eassumption|]; intros x Hx; simpl in Hx; lia.
Qed.

Lemma nshells_of_app (basistype : string) (mol : Molecule.t) (shell_map : ShellMap)
    (ns1 ns2 : list nat) :
  nshells_of basistype mol shell_map (ns1 ++ ns2)
  = nshells_of basistype mol shell_map ns1 ++ nshells_of basistype mol shell_map ns2.
Proof. unfold nshells_of. apply fmap_app. Qed.

(** X16. The shells of an atom are consecutive: for atom [n] the tables give
    the number of its descriptors as its shell count and the number of
    shells of the atoms before it as its first shell, and each shell
    from there on has [n] as its centre. *)
Theorem tables_give_each_atom_its_shells (basistype : string) (mol : Molecule.t)
    (shell_map : ShellMap) (bs : t) (n : nat) :
  make basistype mol shell_map = Returned bs →
  n < Molecule.natom mol →
  let T := tables bs in
  let nshells := length (shells_of_atom basistype mol shell_map n) in
  let first := sum_list (take n (center_to_nshell_ T)) in
  center_to_nshell_ T !! n = Some nshells
  ∧ center_to_shell_ T !! n = Some first
  ∧ first + nshells ≤ n_shells_ bs
  ∧ (∀ i, i < nshells → shell_center_ T !! (first + i) = Some n).
Proof.
  intros Hmake Hn T nshells first. subst T nshells first.
  destruct (make_tables _ _ _ _ Hmake) as (-> & -> & _).
  unfold run_appended. simpl.
  assert (Hseq : seq 0 (Molecule.natom mol)
                 = seq 0 n ++ n :: seq (S n) (Molecule.natom mol - S n)).
  { replace (Molecule.natom mol) with (n + S (Molecule.natom mol - S n)) at 1 by lia.
    by rewrite seq_app. }
  assert (Hlook : nshells_of basistype mol shell_map (seq 0 (Molecule.natom mol)) !! n
                  = Some (length (shells_of_atom basistype mol shell_map n))).
  { unfold nshells_of. rewrite list_lookup_fmap, lookup_seq_lt by done. done. }
  assert (Htake : take n (nshells_of basistype mol shell_map (seq 0 (Molecule.natom mol)))
                  = nshells_of basistype mol shell_map (seq 0 n)).
  { rewrite Hseq, nshells_of_app. apply take_app_length'.
    unfold nshells_of. by rewrite length_fmap, length_seq. }
  rewrite Htake, <-length_shells_of.
  split_and!.
  - done.
  - by rewrite (prefix_sums_lookup _ _ _ _ Hlook), Htake, <-length_shells_of.
  - rewrite Hseq. unfold shells_of. rewrite bind_app, bind_cons, !length_app. lia.
  - intros i Hi. rewrite Hseq, descriptors_of_app, descriptors_of_cons, !fmap_app.
    rewrite lookup_app_r
      by (rewrite length_fmap, <-(length_fmap snd), descriptors_of_shells; lia).
    rewrite length_fmap, <-(length_fmap snd), descriptors_of_shells.
    replace (length (shells_of basistype mol shell_map (seq 0 n)) + i
             - length (shells_of basistype mol shell_map (seq 0 n))) with i by lia.
    rewrite fst_tagged, lookup_app_l by (by rewrite length_replicate).
    by apply lookup_replicate_2.
Qed.

Lemma fold_max_nprimitive (m : nat) (ss : list ECPShellInfo.t) :
  let m' := foldl (λ m s, if bool_decide (m < ECPShellInfo.nprimitive s)
                          then ECPShellInfo.nprimitive s else m) m ss in
  m ≤ m'
  ∧ Forall (λ s, ECPShellInfo.nprimitive s ≤ m') ss
  ∧ (m' = m ∨ ∃ s, s ∈ ss ∧ m' = ECPShellInfo.nprimitive s).
Proof.
  revert m. induction ss as [|s ss IH]; intros m; simpl.
  - split_and!; [lia | constructor | by left].
  - destruct (IH (if bool_decide (m < ECPShellInfo.nprimitive s)
                  then ECPShellInfo.nprimitive s else m)) as (Hle & Hall & Hatt).
    split_and!.
    + case_bool_decide; lia.
    + constructor; [case_bool_decide; lia | done].
    + destruct Hatt as [->|(s' & Hs' & ->)].
      * case_bool_decide; [right; exists s; split; [left | done] | by left].
      * right. exists s'. split; [by right | done].
Qed.

Lemma fold_max_am (m : Z) (ss : list ECPShellInfo.t) :
  let m' := foldl (λ m s, if bool_decide (ECPShellInfo.am s < m)%Z
                          then m else ECPShellInfo.am s) m ss in
  (m ≤ m')%Z
  ∧ Forall (λ s, (ECPShellInfo.am s ≤ m')%Z) ss
  ∧ (m' = m ∨ ∃ s, s ∈ ss ∧ m' = ECPShellInfo.am s).
Proof.
  revert m. induction ss as [|s ss IH]; intros m; simpl.
  - split_and!; [lia | constructor | by left].
  - destruct (IH (if bool_decide (ECPShellInfo.am s < m)%Z
                  then m else ECPShellInfo.am s)) as (Hle & Hall & Hatt).
    split_and!.
    + case_bool_decide; lia.
    + constructor; [case_bool_decide; lia | done].
    + destruct Hatt as [->|(s' & Hs' & ->)].
      * case_bool_decide; [by left | right; exists s; split; [left | done]].
      * right. exists s'. split; [by right | done].
Qed.

(** X17. The two maxima bound every storage shell, and each is 0 or the
    value of one of the shells. *)
Theorem tables_maxima (basistype : string) (mol : Molecule.t)
    (shell_map : ShellMap) (bs : t) :
  make basistype mol shell_map = Returned bs →
  let T := tables bs in
  (∀ sh, sh ∈ shells_ T →
     GaussianShell.nprimitive_ sh ≤ max_nprimitive_ T
     ∧ (GaussianShell.l_ sh ≤ max_am_ T)%Z)
  ∧ (0 ≤ max_am_ T)%Z
  ∧ (max_nprimitive_ T = 0
     ∨ ∃ sh, sh ∈ shells_ T ∧ GaussianShell.nprimitive_ sh = max_nprimitive_ T)
  ∧ (max_am_ T = 0%Z
     ∨ ∃ sh, sh ∈ shells_ T ∧ GaussianShell.l_ sh = max_am_ T).
Proof.
  intros Hmake T. subst T.
  destruct (make_tables _ _ _ _ Hmake) as (-> & _ & _).
  unfold run_appended. simpl.
  set (ns := seq 0 (Molecule.natom mol)).
  set (ss := shells_of basistype mol shell_map ns).
  destruct (built_atoms_fields basistype mol shell_map (unique_primitives shell_map) 0 ns)
    as (F1 & F2 & _).
  cbv zeta in F1, F2. fold ss in F1, F2.
  destruct (fold_max_nprimitive 0 ss) as (_ & Hn & Hnatt).
  destruct (fold_max_am 0 ss) as (Ha0 & Ha & Haatt).
  cbv zeta in *. rewrite Forall_forall in Hn, Ha.
  assert (Hback : ∀ s, s ∈ ss → ∃ sh,
            sh ∈ GaussianECPShell.base
                 <$> built_atoms basistype mol shell_map (unique_primitives shell_map) 0 ns
            ∧ GaussianShell.nprimitive_ sh = ECPShellInfo.nprimitive s
            ∧ GaussianShell.l_ sh = ECPShellInfo.l_ s).
  { intros s (i & Hi)%list_elem_of_lookup.
    assert (Hi1 : (ECPShellInfo.nprimitive <$> ss) !! i = Some (ECPShellInfo.nprimitive s))
      by (by rewrite list_lookup_fmap, Hi).
    assert (Hi2 : (ECPShellInfo.l_ <$> ss) !! i = Some (ECPShellInfo.l_ s))
      by (by rewrite list_lookup_fmap, Hi).
    rewrite <-F1, list_lookup_fmap in Hi1. rewrite <-F2, list_lookup_fmap in Hi2.
    destruct ((GaussianECPShell.base <$> built_atoms _ _ _ _ _ _) !! i)
      as [sh|] eqn:Hsh; [|done].
    exists sh. simpl in *. split_and!; [by eapply list_elem_of_lookup_2|congruence..]. }
  assert (Hforth : ∀ sh,
            sh ∈ GaussianECPShell.base
                 <$> built_atoms basistype mol shell_map (unique_primitives shell_map) 0 ns →
            ∃ s, s ∈ ss
                 ∧ GaussianShell.nprimitive_ sh = ECPShellInfo.nprimitive s
                 ∧ GaussianShell.l_ sh = ECPShellInfo.l_ s).
  { intros sh (i & Hi)%list_elem_of_lookup.
    assert (Hi1 : (GaussianShell.nprimitive_
                   <$> (GaussianECPShell.base
                        <$> built_atoms basistype mol shell_map
                              (unique_primitives shell_map) 0 ns)) !! i
                  = Some (GaussianShell.nprimitive_ sh))
      by (by rewrite list_lookup_fmap, Hi).
    assert (Hi2 : (GaussianShell.l_
                   <$> (GaussianECPShell.base
                        <$> built_atoms basistype mol shell_map
                              (unique_primitives shell_map) 0 ns)) !! i
                  = Some (GaussianShell.l_ sh))
      by (by rewrite list_lookup_fmap, Hi).
    rewrite F1, list_lookup_fmap in Hi1. rewrite F2, list_lookup_fmap in Hi2.
    destruct (ss !! i) as [s|] eqn:Hs; [|done].
    exists s. simpl in *. split_and!; [by eapply list_elem_of_lookup_2|congruence..]. }
  split_and!.
  - intros sh (s & Hs & -> & ->)%Hforth. split; [by apply Hn | by apply Ha].
  - done.
  - destruct Hnatt as [->|(s & Hs & ->)]; [by left|].
    right. destruct (Hback s Hs) as (sh & Hsh & H1 & _). by exists sh.
  - destruct Haatt as [->|(s & Hs & ->)]; [by left|].
    right. destruct (Hback s Hs) as (sh & Hsh & _ & H2). by exists sh.
Qed.

End ECPTablesFacts.

(** * ECP basis sets: the storage shells and the descriptors they come from *)

Module ECPRoundTrip.
Import ECPBasisSet ECPLayout ECPPoolMore ECPTablesFacts.

Lemma slice_middle {A : Type} (X B C : list A) (o n : nat) :
  length X = o → length B = n → slice (X ++ B ++ C) o n = B.
Proof.
  intros <- <-. unfold slice.
  rewrite drop_app_length. by rewrite take_app_length.
Qed.

Lemma slice_lookup {A : Type} (l : list A) (o n i : nat) :
  i < n → slice l o n !! i = l !! (o + i).
Proof. intros Hi. unfold slice. by rewrite lookup_take_lt, lookup_drop. Qed.

Lemma column_lookup {A : Type} (rd : ECPShellInfo.t → nat → A) (s : ECPShellInfo.t)
    (i : nat) :
  i < ECPShellInfo.nprimitive s → column rd s !! i = Some (rd s i).
Proof.
  intros Hi. unfold column. by rewrite list_lookup_fmap, lookup_seq_lt.
Qed.

Lemma flat_column_app {A : Type} (rd : ECPShellInfo.t → nat → A)
    (ss1 ss2 : list ECPShellInfo.t) :
  flat_column rd (ss1 ++ ss2) = flat_column rd ss1 ++ flat_column rd ss2.
Proof. unfold flat_column. apply bind_app. Qed.

(** The column of the [i]-th descriptor of a run that the pool holds
    from index [o] on. *)
Lemma held_column {A : Type} (rd : ECPShellInfo.t → nat → A) (arr X C : list A)
    (ss : list ECPShellInfo.t) (o i : nat) (s : ECPShellInfo.t) :
  arr = X ++ flat_column rd ss ++ C → length X = o → ss !! i = Some s →
  slice arr (o + total_primitives (take i ss)) (ECPShellInfo.nprimitive s) = column rd s.
Proof.
  intros -> HX Hi.
  rewrite <-(take_drop_middle ss i s Hi) at 1.
  rewrite flat_column_app. unfold flat_column at 2. rewrite bind_cons.
  rewrite <-!app_assoc, (app_assoc X).
  apply slice_middle.
  - rewrite length_app, length_flat_column. lia.
  - apply length_column.
Qed.

Lemma total_primitives_take (ss : list ECPShellInfo.t) (i : nat) (s : ECPShellInfo.t) :
  ss !! i = Some s →
  total_primitives (take i ss) + ECPShellInfo.nprimitive s ≤ total_primitives ss.
Proof.
  intros Hi. rewrite <-(take_drop_middle ss i s Hi) at 2.
  unfold total_primitives. rewrite sum_list_with_app. simpl. lia.
Qed.

Lemma length_built_shells (pool : Pool) (n ustart k bf : nat) (ss : list ECPShellInfo.t) :
  length (built_shells pool n ustart k bf ss) = length ss.
Proof.
  revert k bf. induction ss as [|s ss IH]; intros k bf; [done|].
  simpl. by rewrite IH.
Qed.

Lemma built_shells_lookup (pool : Pool) (n ustart k bf : nat)
    (ss : list ECPShellInfo.t) (i : nat) (s : ECPShellInfo.t) :
  ss !! i = Some s →
  built_shells pool n ustart k bf ss !! i
  = Some (GaussianECPShell.make (ECPShellInfo.am s) (ECPShellInfo.nprimitive s)
            (Build_Ptr (uoriginal_coefs pool) (ustart + (k + total_primitives (take i ss))))
            (Build_Ptr (uexps pool) (ustart + (k + total_primitives (take i ss))))
            (Build_Ptr (uns pool) (ustart + (k + total_primitives (take i ss))))
            (Build_Ptr (usubls pool) (ustart + (k + total_primitives (take i ss))))
            n (3 * n) (bf + sum_list_with ECPShellInfo.nfunction (take i ss))).
Proof.
  revert k bf i. induction ss as [|s' ss IH]; intros k bf [|i] Hi; try done.
  - simpl in *. inversion Hi; subst. unfold total_primitives. simpl.
    by rewrite !Nat.add_0_r.
  - simpl in Hi. cbn [built_shells take lookup list_lookup].
    rewrite (IH _ _ _ Hi). unfold total_primitives. simpl.
    rewrite !Nat.add_assoc. done.
Qed.

Lemma built_atoms_lookup (basistype : string) (mol : Molecule.t) (shell_map : ShellMap)
    (pool : Pool) (bf : nat) (ns : list nat) (k n : nat) (s : ECPShellInfo.t) :
  descriptors_of basistype mol shell_map ns !! k = Some (n, s) →
  ∃ i bf',
    shells_of_atom basistype mol shell_map n !! i = Some s
    ∧ built_atoms basistype mol shell_map pool bf ns !! k
      = Some (GaussianECPShell.make (ECPShellInfo.am s) (ECPShellInfo.nprimitive s)
                (Build_Ptr (uoriginal_coefs pool)
                   (ustart_of basistype mol pool n
                    + total_primitives (take i (shells_of_atom basistype mol shell_map n))))
                (Build_Ptr (uexps pool)
                   (ustart_of basistype mol pool n
                    + total_primitives (take i (shells_of_atom basistype mol shell_map n))))
                (Build_Ptr (uns pool)
                   (ustart_of basistype mol pool n
                    + total_primitives (take i (shells_of_atom basistype mol shell_map n))))
                (Build_Ptr (usubls pool)
                   (ustart_of basistype mol pool n
                    + total_primitives (take i (shells_of_atom basistype mol shell_map n))))
                n (3 * n) bf').
Proof.
  revert bf k. induction ns as [|m ns IH]; intros bf k Hk; [done|].
  rewrite descriptors_of_cons in Hk. cbn [built_atoms]. cbv zeta.
  destruct (decide (k < length (shells_of_atom basistype mol shell_map m))) as [Hlt|Hge].
  - rewrite lookup_app_l in Hk by (by rewrite length_fmap).
    rewrite list_lookup_fmap in Hk.
    destruct (shells_of_atom basistype mol shell_map m !! k) as [s'|] eqn:Hs; [|done].
    simpl in Hk. inversion Hk; subst m s'.
    exists k, (bf + sum_list_with ECPShellInfo.nfunction
                 (take k (shells_of_atom basistype mol shell_map n))).
    split; [done|].
    rewrite lookup_app_l by (by rewrite length_built_shells).
    by rewrite (built_shells_lookup _ _ _ _ _ _ _ _ Hs).
  - rewrite lookup_app_r in Hk by (rewrite length_fmap; lia).
    rewrite length_fmap in Hk.
    destruct (IH (bf + sum_list_with ECPShellInfo.nfunction
                    (shells_of_atom basistype mol shell_map m)) _ Hk)
      as (i & bf' & Hi & Hb).
    exists i, bf'. split; [done|].
    rewrite lookup_app_r by (rewrite length_built_shells; lia).
    by rewrite length_built_shells.
Qed.

(** The run of an atom that has a descriptor is an entry of the map. *)
Lemma shells_of_atom_found (basistype : string) (mol : Molecule.t)
    (shell_map : ShellMap) (n i : nat) (s : ECPShellInfo.t) :
  shells_of_atom basistype mol shell_map n !! i = Some s →
  Map2.find shell_map
    (Molecule.basisset (Molecule.atom_entry mol n) basistype)
    (Molecule.label_ (Molecule.atom_entry mol n))
  = Some (shells_of_atom basistype mol shell_map n).
Proof.
  unfold shells_of_atom, Map2.at_.
  by destruct (Map2.find shell_map _ _) as [ss|].
Qed.

(** The stored shell of the [k]-th descriptor and the place of its
    primitives in the pool. *)
Lemma stored_shell_at (basistype : string) (mol : Molecule.t)
    (shell_map : ShellMap) (bs : t) (k n : nat) (s : ECPShellInfo.t) :
  make basistype mol shell_map = Returned bs →
  descriptors basistype mol shell_map !! k = Some (n, s) →
  let pool := unique_primitives shell_map in
  let np := ECPShellInfo.nprimitive s in
  ∃ o bf,
    shells_ (tables bs) !! k
    = Some (GaussianShell.make (ECPShellInfo.am s) np
              (Build_Ptr (uoriginal_coefs pool) o) (Build_Ptr (uoriginal_coefs pool) o)
              (Build_Ptr (uoriginal_coefs pool) o) (Build_Ptr (uexps pool) o)
              Cartesian n (3 * n) bf)
    ∧ o + np ≤ n_uprimitive_ pool
    ∧ slice (uoriginal_coefs pool) o np = column ECPShellInfo.original_coef s
    ∧ slice (uexps pool) o np = column ECPShellInfo.exp s
    ∧ slice (uns pool) o np = column ECPShellInfo.n s
    ∧ slice (usubls pool) o np = column ECPShellInfo.subl s.
Proof.
  intros Hmake Hk pool np. subst pool np.
  destruct (make_tables _ _ _ _ Hmake) as (HT & _ & _).
  rewrite HT. unfold run_appended. cbn [shells_ empty_tables app].
  destruct (built_atoms_lookup basistype mol shell_map (unique_primitives shell_map)
              (bf_count empty_tables) _ _ _ _ Hk) as (i & bf' & Hi & Hb).
  destruct (entry_holds_at shell_map _ _ _ (shells_of_atom_found _ _ _ _ _ _ Hi))
    as (Hle & (X1 & C1 & A1 & L1) & (X2 & C2 & A2 & L2)
        & (X3 & C3 & A3 & L3) & (X4 & C4 & A4 & L4)).
  fold (ustart_of basistype mol (unique_primitives shell_map) n) in *.
  pose proof (total_primitives_take _ _ _ Hi) as Htake.
  eexists _, _. split; [by rewrite list_lookup_fmap, Hb|].
  split_and!.
  - lia.
  - by apply (held_column _ _ X1 C1 _ _ _ _ A1 L1 Hi).
  - by apply (held_column _ _ X2 C2 _ _ _ _ A2 L2 Hi).
  - by apply (held_column _ _ X3 C3 _ _ _ _ A3 L3 Hi).
  - by apply (held_column _ _ X4 C4 _ _ _ _ A4 L4 Hi).
Qed.

(** The arrays of the object are those of the pool. *)
Lemma make_arrays (basistype : string) (mol : Molecule.t) (shell_map : ShellMap) (bs : t) :
  make basistype mol shell_map = Returned bs →
  uoriginal_coefficients_ bs = uoriginal_coefs (unique_primitives shell_map)
  ∧ uexponents_ bs = uexps (unique_primitives shell_map)
  ∧ uns_ bs = uns (unique_primitives shell_map)
  ∧ usubls_ bs = usubls (unique_primitives shell_map)
  ∧ n_uprimitive bs = n_uprimitive_ (unique_primitives shell_map).
Proof.
  unfold make.
  destruct (assemble_atoms basistype mol shell_map (unique_primitives shell_map));
    [|done].
  by intros [= <-].
Qed.

(** X18. Every stored shell points at the primitives of its descriptor.
    For the [k]-th descriptor [s] that the assembly loop visits, on atom
    [n], element [k] of [shells_] has the angular momentum and the
    primitive count of [s] and centre [n]; its three coefficient
    pointers and its exponent pointer address one index [o] of the
    object's arrays of original coefficients and of exponents, with
    [o + nprimitive] inside the arrays; the [nprimitive] elements from
    [o] on are the original coefficients and the exponents of [s], in
    order, and the arrays of radial powers and of sub-labels hold those
    of [s] at the same indices. *)
Theorem shells_point_at_their_primitives (basistype : string) (mol : Molecule.t)
    (shell_map : ShellMap) (bs : t) (k n : nat) (s : ECPShellInfo.t) :
  make basistype mol shell_map = Returned bs →
  descriptors basistype mol shell_map !! k = Some (n, s) →
  ∃ sh o,
    shells_ (tables bs) !! k = Some sh
    ∧ GaussianShell.am sh = ECPShellInfo.am s
    ∧ GaussianShell.nprimitive_ sh = ECPShellInfo.nprimitive s
    ∧ GaussianShell.nc_ sh = n
    ∧ GaussianShell.center_ sh = 3 * n
    ∧ GaussianShell.original_coef_ sh = Build_Ptr (uoriginal_coefficients_ bs) o
    ∧ GaussianShell.coef_ sh = Build_Ptr (uoriginal_coefficients_ bs) o
    ∧ GaussianShell.erd_coef_ sh = Build_Ptr (uoriginal_coefficients_ bs) o
    ∧ GaussianShell.exp_ sh = Build_Ptr (uexponents_ bs) o
    ∧ o + ECPShellInfo.nprimitive s ≤ n_uprimitive bs
    ∧ ptr_view (GaussianShell.original_coef_ sh) (ECPShellInfo.nprimitive s)
      = column ECPShellInfo.original_coef s
    ∧ ptr_view (GaussianShell.exp_ sh) (ECPShellInfo.nprimitive s)
      = column ECPShellInfo.exp s
    ∧ slice (uns_ bs) o (ECPShellInfo.nprimitive s) = column ECPShellInfo.n s
    ∧ slice (usubls_ bs) o (ECPShellInfo.nprimitive s) = column ECPShellInfo.subl s.
Proof.
  intros Hmake Hk.
  destruct (make_arrays _ _ _ _ Hmake) as (-> & -> & -> & -> & ->).
  destruct (stored_shell_at _ _ _ _ _ _ _ Hmake Hk)
    as (o & bf & Hsh & Hle & S1 & S2 & S3 & S4).
  eexists _, o. split; [exact Hsh|].
  unfold ptr_view. cbn. by split_and!.
Qed.

End ECPRoundTrip.

(** * ECP basis construction from structured data: what each atom receives *)

Module ECPPydictMore.
Import ECPBasisSet ECPLayout Map2Facts ECPPoolFacts ECPTablesFacts ECPRoundTrip.

Lemma last_record_cons (label : string) (a : PyAtom) (atoms : list PyAtom) :
  last_record label (a :: atoms)
  = match last_record label atoms with
    | Some x => Some x
    | None => if decide (py_label a = label) then Some a else None
    end.
Proof.
  unfold last_record. rewrite filter_cons.
  destruct (decide (py_label a = label)); [|by destruct (last _)].
  by rewrite last_cons.
Qed.

Lemma atom_entry_fmap (f : Molecule.CoordEntry → Molecule.CoordEntry)
    (l : list Molecule.CoordEntry) (cs cs' : list Molecule.Call) (n : nat) :
  n < length l →
  Molecule.atom_entry {| Molecule.atoms := f <$> l; Molecule.calls := cs |} n
  = f (Molecule.atom_entry {| Molecule.atoms := l; Molecule.calls := cs' |} n).
Proof.
  intros Hn. unfold Molecule.atom_entry. simpl.
  rewrite !list_lookup_total_alt, list_lookup_fmap.
  destruct (lookup_lt_is_Some_2 l n Hn) as [a ->]. done.
Qed.

Section WithBase.
Context {B : ECPShellInfo.Base}.

(** The two maps after the loop over the records: under the name of the
    basis a label has what its last record gave; every other key is as
    before the loop. *)
Lemma read_atoms_maps (name key : string) (atoms : list PyAtom) (R : Reading)
    (b l : string) :
  let R' := foldl (read_atom name key) R atoms in
  let chosen := if decide (b = name) then last_record l atoms else None in
  Map2.find (basis_atom_shell R') b l
  = match chosen with
    | Some a => Some (shell_of_py <$> py_shells a)
    | None => Map2.find (basis_atom_shell R) b l
    end
  ∧ Map2.find (basis_atom_ncore R') b l
    = match chosen with
      | Some a => Some (py_ncore a)
      | None => Map2.find (basis_atom_ncore R) b l
      end.
Proof.
  revert R. induction atoms as [|a atoms IH]; intros R.
  - cbn [foldl]. unfold last_record. simpl. by destruct (decide (b = name)).
  - cbn [foldl]. cbv zeta in *. destruct (IH (read_atom name key R a)) as [-> ->].
    rewrite last_record_cons. unfold read_atom. simpl.
    rewrite !find_assign.
    destruct (decide (b = name)) as [->|Hb].
    + destruct (last_record l atoms); [done|].
      destruct (decide (py_label a = l)) as [->|Hl].
      * by rewrite !decide_True.
      * by rewrite !decide_False by (by intros [? ?]).
    + by rewrite !decide_False by (by intros [? ?]).
Qed.

(** The loop over the records leaves the labels and the basis names of
    the atoms as they are. *)
Lemma read_atoms_names (name key : string) (atoms : list PyAtom) (R : Reading) (n : nat) :
  let R' := foldl (read_atom name key) R atoms in
  Molecule.label_ (Molecule.atom_entry (r_mol R') n)
  = Molecule.label_ (Molecule.atom_entry (r_mol R) n)
  ∧ Molecule.basissets_ (Molecule.atom_entry (r_mol R') n)
    = Molecule.basissets_ (Molecule.atom_entry (r_mol R) n).
Proof.
  revert R. induction atoms as [|a atoms IH]; intros R; [done|].
  cbn [foldl]. cbv zeta in *. destruct (IH (read_atom name key R a)) as [-> ->].
  unfold read_atom, Molecule.set_shell_by_label, Molecule.atom_entry. simpl.
  rewrite !list_lookup_total_alt, list_lookup_fmap.
  destruct (Molecule.atoms (r_mol R) !! n) as [e|]; simpl; [|done].
  by case_bool_decide.
Qed.

(** The atoms at the moment update_geometry returns: the labels of the
    molecule given, and the name of the basis registered under the key. *)
Lemma molecule_at_update_names (mol : Molecule.t) (pybs : PyBasis) (n : nat) :
  n < Molecule.natom mol →
  Molecule.label_ (Molecule.atom_entry (molecule_at_update mol pybs) n)
  = Molecule.label mol n
  ∧ Molecule.basissets_ (Molecule.atom_entry (molecule_at_update mol pybs) n)
    = <[py_key pybs := py_name pybs]>
        (Molecule.basissets_ (Molecule.atom_entry mol n)).
Proof.
  intros Hn. unfold molecule_at_update, read_atoms.
  destruct (read_atoms_names (py_name pybs) (py_key pybs) (py_ecp_shell_map pybs)
              {| r_mol := Molecule.set_basis_all_atoms mol (py_name pybs) (py_key pybs);
                 basis_atom_ncore := ∅; basis_atom_shell := ∅ |} n) as [Hl Hb].
  cbv zeta in *. simpl in Hl, Hb.
  unfold Molecule.update_geometry.
  change (Molecule.atom_entry {| Molecule.atoms := ?a; Molecule.calls := _ |} n)
    with (Molecule.atom_entry {| Molecule.atoms := a; Molecule.calls := [] |} n).
  change (Molecule.atom_entry {| Molecule.atoms := Molecule.atoms ?m;
                                 Molecule.calls := [] |} n)
    with (Molecule.atom_entry m n).
  rewrite Hl, Hb. unfold Molecule.set_basis_all_atoms.
  rewrite (atom_entry_fmap _ _ _ (Molecule.calls mol)) by done.
  by destruct mol.
Qed.

(** The molecule that the call leaves, when the shell map is not empty:
    the atoms, their labels, and the basis registered under the key. *)
Lemma pydict_final_names (mol : Molecule.t) (pybs : PyBasis) (forced_puream : Z)
    (n : nat) :
  py_ecp_shell_map pybs ≠ [] →
  n < Molecule.natom mol →
  let mol' := (construct_ecp_from_pydict mol pybs forced_puream).1 in
  Molecule.natom mol' = Molecule.natom mol
  ∧ Molecule.label_ (Molecule.atom_entry mol' n) = Molecule.label mol n
  ∧ Molecule.basisset (Molecule.atom_entry mol' n) (py_key pybs) = py_name pybs.
Proof.
  intros Hne Hn mol'. subst mol'.
  rewrite (ECPChargeFacts.pydict_molecule mol pybs forced_puream Hne).
  destruct (ECPChargeFacts.molecule_at_update_facts mol pybs) as (_ & Hnat & _).
  unfold for_loop. rewrite Nat.sub_0_r.
  destruct (ECPChargeFacts.adjust_charges_run
              (basis_atom_ncore
                 (read_atoms (Molecule.set_basis_all_atoms mol (py_name pybs) (py_key pybs))
                    pybs))
              (seq 0 (Molecule.natom (molecule_at_update mol pybs)))
              (molecule_at_update mol pybs))
    as (_ & Hnat' & Hsame & _).
  { apply NoDup_seq. }
  { intros m Hm%elem_of_seq. lia. }
  cbv zeta in *. destruct (Hsame n) as [Hl Hb].
  destruct (molecule_at_update_names mol pybs n Hn) as [Hl0 Hb0].
  split_and!.
  - by rewrite Hnat', Hnat.
  - by rewrite Hl, Hl0.
  - unfold Molecule.basisset. by rewrite Hb, Hb0, lookup_insert_eq.
Qed.

(** The descriptors that the constructor finds for an atom are those of
    the last record with the label of the atom. *)
Lemma pydict_shells_of_atom (mol : Molecule.t) (pybs : PyBasis) (forced_puream : Z)
    (n : nat) :
  py_ecp_shell_map pybs ≠ [] →
  n < Molecule.natom mol →
  shells_of_atom (py_key pybs) (construct_ecp_from_pydict mol pybs forced_puream).1
    (basis_atom_shell
       (read_atoms (Molecule.set_basis_all_atoms mol (py_name pybs) (py_key pybs)) pybs))
    n
  = match last_record (Molecule.label mol n) (py_ecp_shell_map pybs) with
    | Some a => shell_of_py <$> py_shells a
    | None => []
    end.
Proof.
  intros Hne Hn.
  destruct (pydict_final_names mol pybs forced_puream n Hne Hn) as (_ & Hl & Hb).
  unfold shells_of_atom, Map2.at_. rewrite Hl, Hb.
  unfold read_atoms.
  destruct (read_atoms_maps (py_name pybs) (py_key pybs) (py_ecp_shell_map pybs)
              {| r_mol := Molecule.set_basis_all_atoms mol (py_name pybs) (py_key pybs);
                 basis_atom_ncore := ∅; basis_atom_shell := ∅ |}
              (py_name pybs) (Molecule.label mol n)) as [-> _].
  rewrite decide_True by done.
  by destruct (last_record _ _).
Qed.

(** The result of the call, when the shell map is not empty. *)
Lemma pydict_result (mol : Molecule.t) (pybs : PyBasis) (forced_puream : Z) :
  py_ecp_shell_map pybs ≠ [] →
  ∃ bs0,
    make (py_key pybs) (construct_ecp_from_pydict mol pybs forced_puream).1
      (basis_atom_shell
         (read_atoms (Molecule.set_basis_all_atoms mol (py_name pybs) (py_key pybs)) pybs))
    = Returned bs0
    ∧ (construct_ecp_from_pydict mol pybs forced_puream).2
      = Returned (rename bs0 (py_name pybs) (py_key pybs) (py_blend pybs)).
Proof.
  intros Hne. unfold construct_ecp_from_pydict.
  rewrite bool_decide_eq_false_2 by (by destruct (py_ecp_shell_map pybs)).
  set (molc := for_loop _ _ _ _).
  set (R := read_atoms _ _).
  destruct (make_returns (py_key pybs) molc (basis_atom_shell R)) as (bs0 & Hmake & _).
  exists bs0. rewrite Hmake. simpl. by rewrite Hmake.
Qed.



(** X22. Each atom receives the shells of the last record that carries its
    label, and an atom whose label no record carries receives none. *)
Theorem pydict_atom_shell_counts (mol mol' : Molecule.t) (pybs : PyBasis)
    (forced_puream : Z) (bs : t) (n : nat) :
  construct_ecp_from_pydict mol pybs forced_puream = (mol', Returned bs) →
  n < Molecule.natom mol →
  center_to_nshell_ (tables bs) !! n
  = Some (match last_record (Molecule.label mol n) (py_ecp_shell_map pybs) with
          | Some a => length (py_shells a)
          | None => 0
          end).
Proof.
  intros Hc Hn.
  assert (Hne : py_ecp_shell_map pybs ≠ []).
  { intros Hmap. unfold construct_ecp_from_pydict in Hc. by rewrite Hmap in Hc. }
  destruct (pydict_result mol pybs forced_puream Hne) as (bs0 & Hmake & Hres).
  rewrite Hc in Hres. simpl in Hres. inversion Hres; subst bs. clear Hres.
  destruct (pydict_final_names mol pybs forced_puream n Hne Hn) as (Hnat & _ & _).
  cbv zeta in Hnat.
  destruct (make_tables _ _ _ _ Hmake) as (HT & _ & _).
  cbn [tables rename]. rewrite HT. unfold run_appended. cbn [center_to_nshell_ empty_tables app].
  unfold nshells_of. rewrite list_lookup_fmap, lookup_seq_lt by (rewrite Hnat; done).
  simpl. rewrite (pydict_shells_of_atom mol pybs forced_puream n Hne Hn).
  destruct (last_record _ _); [|done]. by rewrite length_fmap.
Qed.

Lemma descriptors_lookup_atom (basistype : string) (mol : Molecule.t)
    (shell_map : ShellMap) (n i : nat) (s : ECPShellInfo.t) :
  n < Molecule.natom mol →
  shells_of_atom basistype mol shell_map n !! i = Some s →
  descriptors basistype mol shell_map
    !! (length (shells_of basistype mol shell_map (seq 0 n)) + i)
  = Some (n, s).
Proof.
  intros Hn Hi. unfold descriptors.
  assert (Hseq : seq 0 (Molecule.natom mol)
                 = seq 0 n ++ n :: seq (S n) (Molecule.natom mol - S n)).
  { replace (Molecule.natom mol) with (n + S (Molecule.natom mol - S n)) at 1 by lia.
    by rewrite seq_app. }
  rewrite Hseq, descriptors_of_app, descriptors_of_cons.
  rewrite <-(descriptors_of_shells basistype mol shell_map (seq 0 n)).
  rewrite length_fmap, lookup_app_r by lia.
  replace (length (descriptors_of basistype mol shell_map (seq 0 n)) + i
           - length (descriptors_of basistype mol shell_map (seq 0 n))) with i by lia.
  rewrite lookup_app_l
    by (rewrite length_fmap; by eapply lookup_lt_Some).
  by rewrite list_lookup_fmap, Hi.
Qed.

Lemma column_of_list {A : Type} `{Inhabited A} (proj : ECPShellInfo.t → list A)
    (s : ECPShellInfo.t) :
  length (proj s) = ECPShellInfo.nprimitive s →
  column (λ s i, proj s !!! i) s = proj s.
Proof.
  intros Hlen. unfold column. apply list_eq. intros i. rewrite list_lookup_fmap.
  destruct (decide (i < ECPShellInfo.nprimitive s)) as [Hi|Hi].
  - rewrite lookup_seq_lt by done. simpl.
    destruct (lookup_lt_is_Some_2 (proj s) i) as [x Hx]; [lia|].
    by rewrite Hx, (list_lookup_total_correct _ _ _ Hx).
  - rewrite lookup_seq_ge by lia. symmetry. apply lookup_ge_None. lia.
Qed.

(** The columns of the descriptor of a shell entry are the three
    components of its primitives and its angular momentum. *)
Lemma columns_of_py (sh : PyShell) :
  ECPShellInfo.nprimitive (shell_of_py sh) = length (py_primitives sh)
  ∧ column ECPShellInfo.original_coef (shell_of_py sh) = (λ p, p.1.2) <$> py_primitives sh
  ∧ column ECPShellInfo.exp (shell_of_py sh) = (λ p, p.1.1) <$> py_primitives sh
  ∧ column ECPShellInfo.n (shell_of_py sh) = (λ p, p.2) <$> py_primitives sh
  ∧ column ECPShellInfo.subl (shell_of_py sh)
    = replicate (length (py_primitives sh)) (py_am sh).
Proof.
  assert (Hfields : ECPShellInfo.original_coef_ (shell_of_py sh)
                    = (λ p, p.1.2) <$> py_primitives sh
                    ∧ ECPShellInfo.exp_ (shell_of_py sh) = (λ p, p.1.1) <$> py_primitives sh
                    ∧ ECPShellInfo.n_ (shell_of_py sh) = (λ p, p.2) <$> py_primitives sh
                    ∧ ECPShellInfo.sub_l_ (shell_of_py sh)
                      = replicate (length (py_primitives sh)) (py_am sh)).
  { unfold shell_of_py. by rewrite ECPLabelFacts.shell_of_py_vectors. }
  destruct Hfields as (F1 & F2 & F3 & F4).
  assert (Hn : ECPShellInfo.nprimitive (shell_of_py sh) = length (py_primitives sh)).
  { unfold ECPShellInfo.nprimitive. by rewrite F2, length_fmap. }
  split; [done|].
  split_and!.
  - rewrite <-F1. apply (column_of_list ECPShellInfo.original_coef_).
    by rewrite F1, Hn, length_fmap.
  - rewrite <-F2. by apply (column_of_list ECPShellInfo.exp_).
  - rewrite <-F3. apply (column_of_list ECPShellInfo.n_).
    by rewrite F3, Hn, length_fmap.
  - rewrite <-F4. apply (column_of_list ECPShellInfo.sub_l_).
    by rewrite F4, Hn, length_replicate.
Qed.

(** X23. From the structured input to the stored data.  When the call
    returns a basis set, every shell entry [am, [e1, c1, n1], ...] of
    the last record with the label of an atom has a stored shell on
    that atom with the angular momentum [am] and as many primitives as
    the entry; its pointers address an index [o] of the object's arrays
    from which the original coefficients are the [c], the exponents the
    [e], the radial powers the [n] and the sub-labels all [am], in the
    order of the entry. *)
Theorem pydict_shells_hold_their_primitives (mol mol' : Molecule.t) (pybs : PyBasis)
    (forced_puream : Z) (bs : t) (n i : nat) (a : PyAtom) (pysh : PyShell) :
  construct_ecp_from_pydict mol pybs forced_puream = (mol', Returned bs) →
  n < Molecule.natom mol →
  last_record (Molecule.label mol n) (py_ecp_shell_map pybs) = Some a →
  py_shells a !! i = Some pysh →
  let np := length (py_primitives pysh) in
  ∃ k sh o,
    shells_ (tables bs) !! k = Some sh
    ∧ GaussianShell.nc_ sh = n
    ∧ GaussianShell.am sh = py_am pysh
    ∧ GaussianShell.nprimitive_ sh = np
    ∧ GaussianShell.original_coef_ sh = Build_Ptr (uoriginal_coefficients_ bs) o
    ∧ GaussianShell.exp_ sh = Build_Ptr (uexponents_ bs) o
    ∧ o + np ≤ n_uprimitive bs
    ∧ ptr_view (GaussianShell.original_coef_ sh) np = (λ p, p.1.2) <$> py_primitives pysh
    ∧ ptr_view (GaussianShell.exp_ sh) np = (λ p, p.1.1) <$> py_primitives pysh
    ∧ slice (uns_ bs) o np = (λ p, p.2) <$> py_primitives pysh
    ∧ slice (usubls_ bs) o np = replicate np (py_am pysh).
Proof.
  intros Hc Hn Hlast Hi np. subst np.
  assert (Hne : py_ecp_shell_map pybs ≠ []).
  { intros Hmap. unfold construct_ecp_from_pydict in Hc. by rewrite Hmap in Hc. }
  destruct (pydict_result mol pybs forced_puream Hne) as (bs0 & Hmake & Hres).
  rewrite Hc in Hres. simpl in Hres. inversion Hres; subst bs. clear Hres.
  destruct (pydict_final_names mol pybs forced_puream n Hne Hn) as (Hnat & _ & _).
  cbv zeta in Hnat.
  pose proof (pydict_shells_of_atom mol pybs forced_puream n Hne Hn) as Hshells.
  rewrite Hlast in Hshells.
  rewrite Hc in Hmake, Hnat, Hshells. simpl in Hmake, Hnat, Hshells.
  set (shell_map := basis_atom_shell _) in *.
  assert (Hs : shells_of_atom (py_key pybs) mol' shell_map n !! i
               = Some (shell_of_py pysh)).
  { by rewrite Hshells, list_lookup_fmap, Hi. }
  assert (Hn' : n < Molecule.natom mol') by lia.
  pose proof (descriptors_lookup_atom _ _ _ _ _ _ Hn' Hs) as Hk.
  destruct (make_arrays _ _ _ _ Hmake) as (E1 & E2 & E3 & E4 & E5).
  destruct (stored_shell_at _ _ _ _ _ _ _ Hmake Hk)
    as (o & bf & Hsh & Hle & S1 & S2 & S3 & S4).
  destruct (columns_of_py pysh) as (Hnp & C1 & C2 & C3 & C4).
  rewrite Hnp in *. rewrite C1 in S1. rewrite C2 in S2. rewrite C3 in S3.
  rewrite C4 in S4.
  eexists _, _, o. cbn [tables rename uoriginal_coefficients_ uexponents_ uns_ usubls_
                         n_uprimitive].
  rewrite E1, E2, E3, E4, E5.
  split; [exact Hsh|].
  unfold ptr_view, GaussianShell.am. cbn.
  split_and!; try done.
  by destruct (ECPLabelFacts.shell_of_py_one_label pysh) as (_ & ? & _).
Qed.

End WithBase.

End ECPPydictMore.

(** * The further properties on the sample inputs *)

Module MoreSampleFacts.
Import Mat MatFacts ROHF ROHFSamples ECPBasisSet ECPLayout ECPSamples MoreSamples.

Ltac shape := vm_compute; repeat (constructor; try done).

Lemma form_F_keeps_dimensions_witness :
  has_shape (Fa_ (form_F (MP := reference_provider) three_class)) [3]
  ∧ has_shape (Fb_ (form_F (MP := reference_provider) three_class)) [3]
  ∧ has_shape (Feff_ (form_F (MP := reference_provider) three_class)) [3].
Proof.
  apply (ROHFMore.form_F_keeps_dimensions (MP := reference_provider) three_class [3]);
    shape.
Defined.

Lemma form_F_effective_fock_symmetric_witness :
  get (Feff_ (form_F (MP := reference_provider) three_class)) 0 0 2
  = get (Feff_ (form_F (MP := reference_provider) three_class)) 0 2 0.
Proof.
  apply (ROHFMore.form_F_effective_fock_symmetric (MP := reference_provider)
           three_class 0 0 2).
  - shape.
  - shape.
  - vm_compute; lia.
  - vm_compute; lia.
  - vm_compute; lia.
  - vm_compute; reflexivity.
  - vm_compute; reflexivity.
Defined.

Lemma form_F_coupling_blocks_symmetric_witness :
  get (Feff_ (form_F (MP := reference_provider) three_class)) 0 1 0
  = get (Feff_ (form_F (MP := reference_provider) three_class)) 0 0 1.
Proof.
  apply (ROHFMore.form_F_coupling_blocks_symmetric (MP := reference_provider)
           three_class 0 1 0).
  - shape.
  - shape.
  - vm_compute; lia.
  - vm_compute; lia.
  - vm_compute; lia.
  - vm_compute; reflexivity.
Defined.

Lemma form_F_diagonal_witness :
  get (Feff_ (form_F (MP := reference_provider) three_class)) 0 1 1
  = PrimFloat.mul 0.5%float
      (PrimFloat.add (get (moFa_ (form_F (MP := reference_provider) three_class)) 0 1 1)
                     (get (moFb_ (form_F (MP := reference_provider) three_class)) 0 1 1)).
Proof.
  apply (ROHFMore.form_F_diagonal (MP := reference_provider) three_class 0 1).
  - shape.
  - shape.
  - vm_compute; lia.
  - vm_compute; lia.
Defined.

Lemma form_F_closed_shell_witness :
  get (Feff_ (form_F (MP := reference_provider) closed_shell)) 0 0 1
  = PrimFloat.mul 0.5%float
      (PrimFloat.add (get (moFa_ (form_F (MP := reference_provider) closed_shell)) 0 0 1)
                     (get (moFb_ (form_F (MP := reference_provider) closed_shell)) 0 0 1)).
Proof.
  apply (ROHFMore.form_F_closed_shell (MP := reference_provider) closed_shell 0 0 1).
  - shape.
  - shape.
  - vm_compute; lia.
  - vm_compute; lia.
  - vm_compute; lia.
  - vm_compute; reflexivity.
Defined.

Lemma form_D_keeps_dimensions_witness :
  has_shape (Da_ (form_D three_class)) [3]
  ∧ has_shape (Db_ (form_D three_class)) [3]
  ∧ has_shape (Dt_ (form_D three_class)) [3].
Proof. apply (ROHFMore.form_D_keeps_dimensions three_class [3]); shape. Defined.

Lemma form_D_closed_shell_witness :
  get (Da_ (form_D closed_shell)) 0 0 0 = get (Db_ (form_D closed_shell)) 0 0 0.
Proof.
  apply (ROHFMore.form_D_closed_shell closed_shell 0 0 0).
  - shape.
  - shape.
  - vm_compute; lia.
  - vm_compute; lia.
  - vm_compute; lia.
  - vm_compute; reflexivity.
Defined.

Lemma form_D_idempotent_witness : form_D (form_D three_class) = form_D three_class.
Proof.
  apply (ROHFMore.form_D_idempotent three_class).
  - shape.
  - shape.
  - reflexivity.
Defined.

Example form_D_closed_shell_densities :
  Da_ (form_D closed_shell) = [[[1; 0]; [0; 0]]]%float
  ∧ Db_ (form_D closed_shell) = [[[1; 0]; [0; 0]]]%float.
Proof. vm_compute. done. Qed.

Lemma operator_eq_equal_fields_witness :
  ECPShellInfo.am descriptor = ECPShellInfo.am other_descriptor
  ∧ ECPShellInfo.puream_ descriptor = ECPShellInfo.puream_ other_descriptor
  ∧ ECPShellInfo.n_ descriptor = ECPShellInfo.n_ other_descriptor
  ∧ ECPShellInfo.sub_l_ descriptor = ECPShellInfo.sub_l_ other_descriptor
  ∧ ECPShellInfo.nc_ descriptor = ECPShellInfo.nc_ other_descriptor
  ∧ ECPShellInfo.start_ descriptor = ECPShellInfo.start_ other_descriptor
  ∧ ECPShellInfo.ncartesian descriptor = ECPShellInfo.ncartesian other_descriptor
  ∧ ECPShellInfo.nfunction descriptor = ECPShellInfo.nfunction other_descriptor
  ∧ ECPShellInfo.nprimitive descriptor = ECPShellInfo.nprimitive other_descriptor
  ∧ length (ECPShellInfo.original_coef_ descriptor)
    = length (ECPShellInfo.erd_coef_ other_descriptor).
Proof.
  apply (ECPShellInfoFacts.operator_eq_equal_fields descriptor other_descriptor).
  vm_compute. reflexivity.
Defined.

(** The constructor on the copper hydride sample. *)
Example make_CuH : make "BASIS" CuH_after cu_shell_map = Returned cu_made.
Proof. vm_compute. reflexivity. Qed.

Example descriptors_CuH :
  descriptors "BASIS" CuH_after cu_shell_map
  = [(0, shell_of_py (B := plain_base) cu_d_record); (0, cu_s_shell)].
Proof. vm_compute. reflexivity. Qed.

Lemma constructor_fills_its_arrays_witness :
  let T := tables cu_made in
  length (shells_ T) = n_shells_ cu_made
  ∧ length (shell_first_ao_ T) = n_shells_ cu_made
  ∧ length (shell_first_basis_function_ T) = n_shells_ cu_made
  ∧ length (shell_center_ T) = n_shells_ cu_made
  ∧ length (ao_to_shell_ T) = nao_ cu_made
  ∧ length (function_to_shell_ T) = nbf_ cu_made
  ∧ length (function_center_ T) = nbf_ cu_made
  ∧ length (center_to_nshell_ T) = Molecule.natom CuH_after
  ∧ length (center_to_shell_ T) = Molecule.natom CuH_after
  ∧ length (xyz_ T) = 3 * Molecule.natom CuH_after
  ∧ sum_list (center_to_nshell_ T) = n_shells_ cu_made
  ∧ sum_list_with GaussianShell.nprimitive_ (shells_ T) = nprimitive_ cu_made.
Proof.
  apply (ECPTablesFacts.constructor_fills_its_arrays "BASIS" CuH_after cu_shell_map
           cu_made).
  vm_compute. reflexivity.
Defined.

Lemma tables_locate_every_function_witness :
  let T := tables cu_made in
  let before := take 1 (descriptors "BASIS" CuH_after cu_shell_map).*2 in
  let fbf := sum_list_with ECPShellInfo.nfunction before in
  let fao := sum_list_with ECPShellInfo.ncartesian before in
  shell_center_ T !! 1 = Some 0
  ∧ shell_first_basis_function_ T !! 1 = Some fbf
  ∧ shell_first_ao_ T !! 1 = Some fao
  ∧ (GaussianShell.start_ <$> shells_ T) !! 1 = Some fbf
  ∧ (GaussianShell.nc_ <$> shells_ T) !! 1 = Some 0
  ∧ (∀ t, t < ECPShellInfo.nfunction cu_s_shell →
       function_to_shell_ T !! (fbf + t) = Some 1
       ∧ function_center_ T !! (fbf + t) = Some 0)
  ∧ (∀ t, t < ECPShellInfo.ncartesian cu_s_shell →
       ao_to_shell_ T !! (fao + t) = Some 1).
Proof.
  apply (ECPTablesFacts.tables_locate_every_function "BASIS" CuH_after cu_shell_map
           cu_made 1 0 cu_s_shell).
  - vm_compute. reflexivity.
  - vm_compute. reflexivity.
Defined.

Lemma tables_are_ordered_witness :
  let T := tables cu_made in
  nondecreasing (function_to_shell_ T)
  ∧ nondecreasing (ao_to_shell_ T)
  ∧ nondecreasing (function_center_ T)
  ∧ nondecreasing (shell_center_ T)
  ∧ Forall (λ x, x < n_shells_ cu_made) (function_to_shell_ T)
  ∧ Forall (λ x, x < n_shells_ cu_made) (ao_to_shell_ T)
  ∧ Forall (λ x, x < Molecule.natom CuH_after) (function_center_ T)
  ∧ Forall (λ x, x < Molecule.natom CuH_after) (shell_center_ T).
Proof.
  apply (ECPTablesFacts.tables_are_ordered "BASIS" CuH_after cu_shell_map cu_made).
  vm_compute. reflexivity.
Defined.

Lemma tables_give_each_atom_its_shells_witness :
  let T := tables cu_made in
  let nshells := length (shells_of_atom "BASIS" CuH_after cu_shell_map 1) in
  let first := sum_list (take 1 (center_to_nshell_ T)) in
  center_to_nshell_ T !! 1 = Some nshells
  ∧ center_to_shell_ T !! 1 = Some first
  ∧ first + nshells ≤ n_shells_ cu_made
  ∧ (∀ i, i < nshells → shell_center_ T !! (first + i) = Some 1).
Proof.
  apply (ECPTablesFacts.tables_give_each_atom_its_shells "BASIS" CuH_after cu_shell_map
           cu_made 1).
  - vm_compute. reflexivity.
  - vm_compute. lia.
Defined.

Example tables_CuH :
  center_to_nshell_ (tables cu_made) = [2; 0]
  ∧ center_to_shell_ (tables cu_made) = [0; 2]
  ∧ shell_center_ (tables cu_made) = [0; 0]
  ∧ shell_first_basis_function_ (tables cu_made) = [0; 6]
  ∧ function_to_shell_ (tables cu_made) = [0; 0; 0; 0; 0; 0; 1].
Proof. vm_compute. done. Qed.

Lemma tables_maxima_witness :
  let T := tables cu_made in
  (∀ sh, sh ∈ shells_ T →
     GaussianShell.nprimitive_ sh ≤ max_nprimitive_ T
     ∧ (GaussianShell.l_ sh ≤ max_am_ T)%Z)
  ∧ (0 ≤ max_am_ T)%Z
  ∧ (max_nprimitive_ T = 0
     ∨ ∃ sh, sh ∈ shells_ T ∧ GaussianShell.nprimitive_ sh = max_nprimitive_ T)
  ∧ (max_am_ T = 0%Z
     ∨ ∃ sh, sh ∈ shells_ T ∧ GaussianShell.l_ sh = max_am_ T).
Proof.
  apply (ECPTablesFacts.tables_maxima "BASIS" CuH_after cu_shell_map cu_made).
  vm_compute. reflexivity.
Defined.

Lemma shells_point_at_their_primitives_witness :
  ∃ sh o,
    shells_ (tables cu_made) !! 1 = Some sh
    ∧ GaussianShell.am sh = ECPShellInfo.am cu_s_shell
    ∧ GaussianShell.nprimitive_ sh = ECPShellInfo.nprimitive cu_s_shell
    ∧ GaussianShell.nc_ sh = 0
    ∧ GaussianShell.center_ sh = 3 * 0
    ∧ GaussianShell.original_coef_ sh = Build_Ptr (uoriginal_coefficients_ cu_made) o
    ∧ GaussianShell.coef_ sh = Build_Ptr (uoriginal_coefficients_ cu_made) o
    ∧ GaussianShell.erd_coef_ sh = Build_Ptr (uoriginal_coefficients_ cu_made) o
    ∧ GaussianShell.exp_ sh = Build_Ptr (uexponents_ cu_made) o
    ∧ o + ECPShellInfo.nprimitive cu_s_shell ≤ n_uprimitive cu_made
    ∧ ptr_view (GaussianShell.original_coef_ sh) (ECPShellInfo.nprimitive cu_s_shell)
      = column ECPShellInfo.original_coef cu_s_shell
    ∧ ptr_view (GaussianShell.exp_ sh) (ECPShellInfo.nprimitive cu_s_shell)
      = column ECPShellInfo.exp cu_s_shell
    ∧ slice (uns_ cu_made) o (ECPShellInfo.nprimitive cu_s_shell)
      = column ECPShellInfo.n cu_s_shell
    ∧ slice (usubls_ cu_made) o (ECPShellInfo.nprimitive cu_s_shell)
      = column ECPShellInfo.subl cu_s_shell.
Proof.
  apply (ECPRoundTrip.shells_point_at_their_primitives "BASIS" CuH_after cu_shell_map
           cu_made 1 0 cu_s_shell).
  - vm_compute. reflexivity.
  - vm_compute. reflexivity.
Defined.

(** With the labels "C" and "CU" the first loop visits "C" first, so
    the primitives of carbon are at the indices 0 and 1 of the pool and
    those of copper from index 2 on, although copper is the first
    atom. *)
Example pool_of_two_labels :
  (Map2.entries cuc_shell_map).*1 = [("LANL2DZ", "C"); ("LANL2DZ", "CU")]
  ∧ (λ sh, ptr_first (GaussianShell.exp_ sh)) <$> shells_ (tables cuc_made) = [2; 4; 0]
  ∧ uexponents_ cuc_made = [3; 4; 0.5; 0.25; 1]%float.
Proof. vm_compute. done. Qed.


Example pydict_charges_on_cu_twice :
  Molecule.Z CuH_twice_result.1 0 = 11%Z ∧ Molecule.Z CuH_twice_result.1 1 = 1%Z.
Proof. vm_compute. done. Qed.

Lemma pydict_atom_shell_counts_witness :
  center_to_nshell_ (tables cu_twice_basis) !! 0
  = Some (match last_record (Molecule.label CuH 0) (py_ecp_shell_map cu_twice) with
          | Some a => length (py_shells a)
          | None => 0
          end).
Proof.
  apply (ECPPydictMore.pydict_atom_shell_counts (B := plain_base)
           CuH CuH_twice_result.1 cu_twice 0 cu_twice_basis 0).
  - vm_compute. reflexivity.
  - vm_compute. lia.
Defined.

Example pydict_shell_counts_on_cu_twice :
  center_to_nshell_ (tables cu_twice_basis) = [1; 0].
Proof. vm_compute. reflexivity. Qed.

Lemma pydict_shells_hold_their_primitives_witness :
  let np := length (py_primitives cu_d_record) in
  ∃ k sh o,
    shells_ (tables cu_basis) !! k = Some sh
    ∧ GaussianShell.nc_ sh = 0
    ∧ GaussianShell.am sh = py_am cu_d_record
    ∧ GaussianShell.nprimitive_ sh = np
    ∧ GaussianShell.original_coef_ sh = Build_Ptr (uoriginal_coefficients_ cu_basis) o
    ∧ GaussianShell.exp_ sh = Build_Ptr (uexponents_ cu_basis) o
    ∧ o + np ≤ n_uprimitive cu_basis
    ∧ ptr_view (GaussianShell.original_coef_ sh) np
      = (λ p, p.1.2) <$> py_primitives cu_d_record
    ∧ ptr_view (GaussianShell.exp_ sh) np = (λ p, p.1.1) <$> py_primitives cu_d_record
    ∧ slice (uns_ cu_basis) o np = (λ p, p.2) <$> py_primitives cu_d_record
    ∧ slice (usubls_ cu_basis) o np = replicate np (py_am cu_d_record).
Proof.
  apply (ECPPydictMore.pydict_shells_hold_their_primitives (B := plain_base)
           CuH CuH_result.1 cu_ecp 0 cu_basis 0 0 cu_record cu_d_record).
  - vm_compute. reflexivity.
  - vm_compute. lia.
  - vm_compute. reflexivity.
  - reflexivity.
Defined.

End MoreSampleFacts.
